(** * find_audio.py: block classification, audio-run tracking and WAV export

    A shallow embedding of [find_audio.py] (recovery of PCM audio from a
    raw disk image of a Behringer X Air 16 recording) together with the
    properties stated about it.

    Layout: the embedding comes first, in the order of the source
    (constants, [struct] packing, Python float arithmetic, [analyze_block],
    the scanning loop of [find_audio_blocks], [create_wav_header], the
    [__main__] block, strings and paths, the extraction loop of
    [find_audio_blocks] on files); the lemmas and the numbered properties
    follow. *)

From Stdlib Require Import Ascii String.
From Stdlib Require Import ZArith QArith Qabs Qround Qpower List Lia Lqa Bool Sorted.
From Stdlib Require DecimalString DecimalZ.
From coqutil Require Import Byte Word.LittleEndianList.
Import ListNotations.

Local Open Scope Z_scope.

(** ** Module level constants *)

Definition SAMPLE_RATE : Z := 48000.
Definition BIT_DEPTH : Z := 16.
Definition CHANNELS : Z := 2.
Definition BYTES_PER_SAMPLE : Z := 2.
Definition BLOCK_SIZE : Z := 1024 * 1024.

(** The four labels [analyze_block] returns. *)
Inductive block_type : Type := Audio | Silence | Noise | Empty.

Definition is_audio (t : block_type) : bool :=
  match t with Audio => true | _ => false end.

(** ** [struct.pack] and [struct.unpack]

    Byte strings are lists of bytes.  The formats used by the program are
    ['<I'] (unsigned 32 bit), ['<H'] (unsigned 16 bit) and ['<h'] (signed
    16 bit), all little-endian.  [struct.pack] raises [struct.error] when
    the number does not fit the format: [None] here. *)
Module Struct.

Definition in_range (lo v hi : Z) : bool := (lo <=? v) && (v <? hi).

Definition pack_I (v : Z) : option (list byte) :=
  if in_range 0 v (2 ^ 32) then Some (le_split 4 v) else None.

Definition pack_H (v : Z) : option (list byte) :=
  if in_range 0 v (2 ^ 16) then Some (le_split 2 v) else None.

(** [struct.unpack('<h', b)[0]] for a two-byte [b]. *)
Definition unpack_h (b : list byte) : Z :=
  let u := le_combine b in
  if u <? 2 ^ 15 then u else u - 2 ^ 16.

Definition unpack_I (b : list byte) : Z := le_combine b.
Definition unpack_H (b : list byte) : Z := le_combine b.

End Struct.

(** ** Python numbers

    Python's [int] is [Z].  Python's [float] is IEEE 754 binary64; a float
    is modelled by the rational number it denotes, and addition,
    subtraction, division and the conversion of an [int] return the exact
    result rounded to the nearest number with a 53 bit significand, ties
    to even.  The exponent is not bounded: the values [analyze_block]
    computes are ratios of byte counts, 16 bit samples and sums of at most
    10000 of their squares, far from the overflow and underflow thresholds
    of binary64, where the two agree.

    Two operations of [analyze_block] are not fixed by the language:
    [x ** 2] on a float is the [pow] of the C library, which need not be
    correctly rounded, and [sum] over floats adds from left to right up to
    CPython 3.11 and carries a correction term along from CPython 3.12 on.
    Both are fields of a [platform], on which everything that computes the
    variance depends. *)
Module PyFloat.

Local Open Scope Q_scope.

(** Rounding to the nearest integer, ties to the even one. *)
Definition round_half_even (x : Q) : Z :=
  let f := Qfloor x in
  match Qcompare (x - inject_Z f) (1 # 2) with
  | Lt => f
  | Gt => (f + 1)%Z
  | Eq => if Z.even f then f else (f + 1)%Z
  end.

(** The binary exponent of a positive rational: the [k] with
    2^k <= x < 2^(k+1). *)
Definition ilog2 (x : Q) : Z :=
  let l := (Z.log2 (Qnum x) - Z.log2 (Zpos (Qden x)))%Z in
  if Qle_bool (2 ^ l) x then l else (l - 1)%Z.

(** Bits in the significand of a binary64 number. *)
Definition prec : Z := 53.

Definition round_pos (x : Q) : Q :=
  let e := (ilog2 x - (prec - 1))%Z in
  inject_Z (round_half_even (x / 2 ^ e)) * 2 ^ e.

(** Round to nearest, ties to even. *)
Definition RN (x : Q) : Q :=
  match Qcompare x 0 with
  | Eq => 0
  | Gt => round_pos x
  | Lt => - round_pos (- x)
  end.

(** [float(z)], also the implicit conversion of an [int] operand. *)
Definition of_int (z : Z) : Q := RN (inject_Z z).

(** A decimal literal such as [0.99]. *)
Definition lit (q : Q) : Q := RN q.

(** [a / b] on two [int]s: the correctly rounded quotient. *)
Definition truediv_int (a b : Z) : Q := RN (inject_Z a / inject_Z b).

Definition fadd (x y : Q) : Q := RN (x + y).
Definition fsub (x y : Q) : Q := RN (x - y).
Definition fmul (x y : Q) : Q := RN (x * y).
Definition fdiv (x y : Q) : Q := RN (x / y).

(** A rational that is a float: rounding does not change it. *)
Definition representable (x : Q) : Prop := RN x == x.

(** What the program leaves to the C library and to the version of
    CPython.

    [fpow2 x] is [x ** 2] on a float, which CPython computes as
    [pow(x, 2.0)].  The usual C libraries keep the error of [pow] below
    one unit in the last place without rounding correctly: the result is
    one of the two floats next to the exact square, not always the nearer
    one.  The law says so without naming the two floats: no float lies
    strictly between the exact square and the result.  In particular a
    square that is a float is returned as it is.  The program squares the
    differences between a 16 bit sample and the average, which are zero
    or of magnitude between 1/10001 and 65536.

    [compensated_sum] tells which [sum] the interpreter has. *)
Record platform : Type := mk_platform {
  fpow2 : Q -> Q;
  compensated_sum : bool;
  fpow2_faithful : forall x f : Q, representable f ->
    (f <= x * x -> f <= fpow2 x) /\ (x * x <= f -> fpow2 x <= f)
}.

(** [sum(...)] over floats up to CPython 3.11: the first item is added to
    the [int] 0, the others to the running float, from left to right. *)
Definition fsum_plain (l : list Q) : Q := fold_left fadd l 0.

(** One item of [sum(...)] from CPython 3.12 on, which is Neumaier's
    variant of compensated summation.  [f] is the running sum
    ([f_result] in [builtin_sum]) and [c] collects what the additions
    rounded away:
    [t = f_result + x;
     if (fabs(f_result) >= fabs(x)) c += (f_result - t) + x;
     else c += (x - t) + f_result;
     f_result = t;] *)
Definition neumaier_step (st : Q * Q) (x : Q) : Q * Q :=
  let '(f, c) := st in
  let t := fadd f x in
  let c' :=
    if Qle_bool (Qabs x) (Qabs f)
    then fadd c (fadd (fsub f t) x)
    else fadd c (fadd (fsub x t) f) in
  (t, c').

(** [sum(...)] over floats from CPython 3.12 on: the first item is added
    to the [int] 0 as before and starts the running sum, with a
    correction of zero; at the end the correction is added unless it is
    zero ([if (c && isfinite(c)) f_result += c;]). *)
Definition fsum_compensated (l : list Q) : Q :=
  match l with
  | [] => 0
  | x :: rest =>
      let '(f, c) := fold_left neumaier_step rest (fadd 0 x, 0) in
      if Qeq_bool c 0 then f else fadd f c
  end.

(** [sum(...)] over floats. *)
Definition fsum (pf : platform) (l : list Q) : Q :=
  if compensated_sum pf then fsum_compensated l else fsum_plain l.

(** [x > y] and [x < y]; comparing a float with an [int] is exact. *)
Definition gt (x y : Q) : bool := negb (Qle_bool x y).
Definition lt (x y : Q) : bool := negb (Qle_bool y x).

(** [k] is the binary exponent of [x]. *)
Definition in_binade (x : Q) (k : Z) : Prop := 2 ^ k <= x /\ x < 2 ^ (k + 1).

End PyFloat.

(** ** [analyze_block] *)

Definition len {A : Type} (l : list A) : Z := Z.of_nat (length l).

(** [range(start, stop, step)] for a positive [step]. *)
Definition py_range (start stop step : Z) : list Z :=
  map (fun k => start + step * Z.of_nat k)
      (seq 0 (Z.to_nat ((stop - start + step - 1) / step))).

(** [data[i:j]] for [0 <= i <= j]. *)
Definition py_slice (data : list byte) (i j : Z) : list byte :=
  firstn (Z.to_nat (j - i)) (skipn (Z.to_nat i) data).

(** [data.count(b'\x00')] *)
Definition zero_count (data : list byte) : Z :=
  Z.of_nat (count_occ Byte.byte_eq_dec data Byte.x00).

Definition zero_ratio (data : list byte) : Q :=
  PyFloat.truediv_int (zero_count data) (len data).

(** The body of the sampling loop for one offset [i]: the samples it
    appends. *)
Definition sample_at (data : list byte) (i : Z) : list Z :=
  if i + 2 <=? len data then
    let b := py_slice data i (i + 2) in
    if len b =? 2 then [Struct.unpack_h b] else []
  else [].

(** The list [samples] after the loop
    [for i in range(0, min(len(data), 40000), 4)]. *)
Definition samples (data : list byte) : list Z :=
  flat_map (sample_at data) (py_range 0 (Z.min (len data) 40000) 4).

Definition sum_int (l : list Z) : Z := fold_left Z.add l 0.

(** [avg = sum(samples) / len(samples)] *)
Definition average (samples : list Z) : Q :=
  PyFloat.truediv_int (sum_int samples) (len samples).

(** [variance = sum((s - avg) ** 2 for s in samples) / len(samples)] *)
Definition variance (pf : PyFloat.platform) (samples : list Z) : Q :=
  let avg := average samples in
  PyFloat.fdiv
    (PyFloat.fsum pf
       (map (fun s => PyFloat.fpow2 pf (PyFloat.fsub (PyFloat.of_int s) avg))
            samples))
    (PyFloat.of_int (len samples)).

(** [[abs(samples[i] - samples[i-1]) for i in range(1, len(samples))]] *)
Fixpoint diffs (samples : list Z) : list Z :=
  match samples with
  | a :: (b :: _) as t => Z.abs (b - a) :: diffs t
  | _ => []
  end.

(** [avg_diff = sum(diffs) / len(diffs) if diffs else 0] *)
Definition avg_diff (samples : list Z) : Q :=
  match diffs samples with
  | [] => 0%Q
  | d => PyFloat.truediv_int (sum_int d) (len d)
  end.

(** [max_val = max(abs(s) for s in samples)]; absolute values are not
    negative, so for the non-empty lists that reach this line the maximum
    can be accumulated from 0. *)
Definition max_val (samples : list Z) : Z :=
  fold_left Z.max (map Z.abs samples) 0.

(** [smoothness = 1.0 - (avg_diff / (max_val * 2)) if max_val > 0 else 0] *)
Definition smoothness (samples : list Z) : Q :=
  if 0 <? max_val samples then
    PyFloat.fsub 1 (PyFloat.fdiv (avg_diff samples)
                                 (PyFloat.of_int (max_val samples * 2)))
  else 0%Q.

Definition analyze_block (pf : PyFloat.platform) (data : list byte)
  : block_type * Q :=
  if len data <? 1000 then (Empty, 0%Q) else
  let zero_ratio := zero_ratio data in
  if PyFloat.gt zero_ratio (PyFloat.lit (99 # 100)) then (Empty, 0%Q) else
  if PyFloat.gt zero_ratio (PyFloat.lit (90 # 100)) then (Silence, zero_ratio) else
  let samples := samples data in
  if len samples <? 100 then (Empty, 0%Q) else
  let variance := variance pf samples in
  if max_val samples =? 0 then (Silence, 0%Q) else
  let smoothness := smoothness samples in
  if PyFloat.lt variance (inject_Z 1000) then (Silence, smoothness) else
  if PyFloat.gt smoothness (PyFloat.lit (3 # 10))
     && PyFloat.gt variance (inject_Z 10000) then (Audio, smoothness) else
  if PyFloat.lt smoothness (PyFloat.lit (2 # 10)) then (Noise, smoothness) else
  (* Probabilmente audio *)
  (Audio, smoothness).

(** ** Bookkeeping for the sampling loop *)

(** The number of offsets at which the loop finds a whole sample. *)
Definition sample_count (data : list byte) : Z :=
  (Z.min (len data) 40000 + 2) / 4.

(** Whether [analyze_block] gets as far as the sampling loop. *)
Definition reaches_sampling (data : list byte) : bool :=
  negb (len data <? 1000)
  && negb (PyFloat.gt (zero_ratio data) (PyFloat.lit (99 # 100)))
  && negb (PyFloat.gt (zero_ratio data) (PyFloat.lit (90 # 100))).

(** The number of 16 bit samples one call of [analyze_block] interprets. *)
Definition interpreted_samples (data : list byte) : Z :=
  if reaches_sampling data then len (samples data) else 0.

(** ** The scanning loop of [find_audio_blocks]

    The loop keeps three variables: the list [audio_blocks] of closed runs,
    [current_audio_start] ([None] when no run is open) and [block_num].
    One iteration handles the classification of one block read from the
    image. *)
Module Scan.

Record state : Type := mk_state {
  audio_blocks : list (Z * Z);
  current_audio_start : option Z;
  block_num : Z
}.

Definition init : state := mk_state [] None 0.

(** Body of the [while True] loop, after [analyze_block] has produced
    [block_type]. *)
Definition step (st : state) (ty : block_type) : state :=
  let st' :=
    if is_audio ty then
      match current_audio_start st with
      | None => mk_state (audio_blocks st) (Some (block_num st)) (block_num st)
      | Some _ => st
      end
    else
      match current_audio_start st with
      | Some s =>
          mk_state (audio_blocks st ++ [(s, block_num st - 1)]) None (block_num st)
      | None => st
      end in
  mk_state (audio_blocks st') (current_audio_start st') (block_num st' + 1).

(** The statement after the loop: a run still open is closed at the last
    block read. *)
Definition finish (st : state) : list (Z * Z) :=
  match current_audio_start st with
  | Some s => audio_blocks st ++ [(s, block_num st - 1)]
  | None => audio_blocks st
  end.

(** The runs reported for a sequence of block classifications. *)
Definition runs (tys : list block_type) : list (Z * Z) :=
  finish (fold_left step tys init).

End Scan.

(** ** [find_audio_blocks], first pass

    [f.read(BLOCK_SIZE)] until it returns nothing: the image cut into
    blocks of [BLOCK_SIZE] bytes, the last one possibly shorter.  Every
    block takes at least one byte, so the length of the image is fuel
    enough. *)
Fixpoint read_blocks_fuel (fuel : nat) (image : list byte) : list (list byte) :=
  match fuel with
  | O => []
  | S fuel' =>
      match image with
      | [] => []
      | _ :: _ =>
          firstn (Z.to_nat BLOCK_SIZE) image ::
          read_blocks_fuel fuel' (skipn (Z.to_nat BLOCK_SIZE) image)
      end
  end.

Definition read_blocks (image : list byte) : list (list byte) :=
  read_blocks_fuel (length image) image.

(** The list [audio_blocks] that [find_audio_blocks] returns. *)
Definition find_audio_blocks (pf : PyFloat.platform) (image : list byte)
  : list (Z * Z) :=
  Scan.finish
    (fold_left (fun st data => Scan.step st (fst (analyze_block pf data)))
               (read_blocks image) Scan.init).

(** ** What a run is, in the words of the specification

    [class_at l i] is the classification of block [i], when there is one. *)
Definition class_at (l : list block_type) (i : Z) : option block_type :=
  if i <? 0 then None else nth_error l (Z.to_nat i).

(** A maximal contiguous range [s..e] of blocks classified as audio: every
    block in the range is audio, the block before [s] and the block after
    [e] are not (or do not exist). *)
Definition maximal_audio_run (l : list block_type) (s e : Z) : Prop :=
  0 <= s <= e /\ e < Z.of_nat (length l) /\
  (forall i, s <= i <= e -> class_at l i = Some Audio) /\
  class_at l (s - 1) <> Some Audio /\
  class_at l (e + 1) <> Some Audio.

(** Reported runs come in scan order and are separated by at least one
    block that is not audio. *)
Definition run_before (p q : Z * Z) : Prop := snd p + 1 < fst q.

(** The loop of [Scan] written as a recursion over the remaining
    classifications: [n] is [block_num], [start] is [current_audio_start];
    the result lists the runs that are closed from here on. *)
Fixpoint runs_from (n : Z) (start : option Z) (l : list block_type)
  : list (Z * Z) :=
  match l with
  | [] => match start with Some s => [(s, n - 1)] | None => [] end
  | ty :: t =>
      if is_audio ty then
        runs_from (n + 1) (Some (match start with Some s => s | None => n end)) t
      else
        match start with
        | Some s => (s, n - 1) :: runs_from (n + 1) None t
        | None => runs_from (n + 1) None t
        end
  end.

(** [l] begins with exactly [k] audio blocks. *)
Definition leading_audio (l : list block_type) (k : Z) : Prop :=
  0 <= k <= Z.of_nat (length l) /\
  (forall i, 0 <= i < k -> class_at l i = Some Audio) /\
  class_at l k <> Some Audio.

(** A classification other than audio. *)
Definition not_audio (t : block_type) : Prop := t <> Audio.

(** ** Writing the output file

    [create_wav_header] opens the output file for writing (which empties
    it) and appends to it piece by piece; a failing [struct.pack] aborts
    the function and leaves what was written so far.  A computation takes
    the bytes written so far and returns the bytes written after it,
    together with its value, or [None] when [struct.error] was raised. *)
Module FileOut.

Definition M (A : Type) : Type := list byte -> list byte * option A.

Definition ret {A} (a : A) : M A := fun out => (out, Some a).

Definition bind {A B} (m : M A) (k : A -> M B) : M B :=
  fun out =>
    match m out with
    | (out', Some a) => k a out'
    | (out', None) => (out', None)
    end.

(** The argument of a call is evaluated before the call. *)
Definition eval {A} (o : option A) : M A := fun out => (out, o).

(** [f_out.write(bs)] *)
Definition write (bs : list byte) : M unit := fun out => (out ++ bs, Some tt).

(** [with open(wav_file, 'wb') as f_out: body] *)
Definition with_open_wb {A} (body : M A) : list byte * option A := body [].

End FileOut.

(** Byte string literals: [bytes "RIFF"] is [b'RIFF']. *)
Definition bytes (s : string) : list byte := list_byte_of_string s.

Notation "x <- m ;; k" := (FileOut.bind m (fun x => k))
  (at level 61, m at next level, right associativity).
Notation "m ;;; k" := (FileOut.bind m (fun _ => k))
  (at level 61, right associativity).

(** [f_out.write(struct.pack(fmt, v))] *)
Definition write_packed (packed : option (list byte)) : FileOut.M unit :=
  b <- FileOut.eval packed ;; FileOut.write b.

(** [create_wav_header(raw_file, wav_file)], as a function from the
    content of [raw_file] to the content of [wav_file] and the outcome.
    [os.path.getsize(raw_file)] is the length of what [f_in.read()]
    returns. *)
Definition create_wav_header (raw_data : list byte) : list byte * option unit :=
  let raw_size := Z.of_nat (length raw_data) in
  FileOut.with_open_wb (
    (* RIFF header *)
    FileOut.write (bytes "RIFF") ;;;
    write_packed (Struct.pack_I (raw_size + 36)) ;;;
    FileOut.write (bytes "WAVE") ;;;
    (* fmt chunk *)
    FileOut.write (bytes "fmt ") ;;;
    write_packed (Struct.pack_I 16) ;;;
    write_packed (Struct.pack_H 1) ;;;
    write_packed (Struct.pack_H CHANNELS) ;;;
    write_packed (Struct.pack_I SAMPLE_RATE) ;;;
    let byte_rate := SAMPLE_RATE * CHANNELS * BYTES_PER_SAMPLE in
    write_packed (Struct.pack_I byte_rate) ;;;
    let block_align := CHANNELS * BYTES_PER_SAMPLE in
    write_packed (Struct.pack_H block_align) ;;;
    write_packed (Struct.pack_H BIT_DEPTH) ;;;
    (* data chunk *)
    FileOut.write (bytes "data") ;;;
    write_packed (Struct.pack_I raw_size) ;;;
    FileOut.write raw_data).

(** ** Reading a canonical WAV header back

    The program has no WAV reader; this one follows the canonical 44 byte
    RIFF/WAVE layout the specification refers to: chunk identifiers at
    offsets 0, 8, 12 and 36, little-endian fields in between, the samples
    after the header. *)
Record wav_header : Type := mk_wav_header {
  riff_size : Z;
  fmt_size : Z;
  audio_format : Z;
  num_channels : Z;
  sample_rate : Z;
  byte_rate : Z;
  block_align : Z;
  bits_per_sample : Z;
  data_size : Z
}.

Definition slice (off len : nat) (bs : list byte) : list byte :=
  firstn len (skipn off bs).

Definition bytes_eqb (a b : list byte) : bool :=
  if list_eq_dec Byte.byte_eq_dec a b then true else false.

Definition parse_wav (file : list byte) : option (wav_header * list byte) :=
  if (44 <=? length file)%nat
     && bytes_eqb (slice 0 4 file) (bytes "RIFF")
     && bytes_eqb (slice 8 4 file) (bytes "WAVE")
     && bytes_eqb (slice 12 4 file) (bytes "fmt ")
     && bytes_eqb (slice 36 4 file) (bytes "data")
  then
    Some ({| riff_size := Struct.unpack_I (slice 4 4 file);
             fmt_size := Struct.unpack_I (slice 16 4 file);
             audio_format := Struct.unpack_H (slice 20 2 file);
             num_channels := Struct.unpack_H (slice 22 2 file);
             sample_rate := Struct.unpack_I (slice 24 4 file);
             byte_rate := Struct.unpack_I (slice 28 4 file);
             block_align := Struct.unpack_H (slice 32 2 file);
             bits_per_sample := Struct.unpack_H (slice 34 2 file);
             data_size := Struct.unpack_I (slice 40 4 file) |},
          skipn 44 file)
  else None.

(** The header fields the configured constants call for, for [n] bytes of
    samples. *)
Definition expected_header (n : Z) : wav_header :=
  {| riff_size := n + 36;
     fmt_size := 16;
     audio_format := 1;
     num_channels := CHANNELS;
     sample_rate := SAMPLE_RATE;
     byte_rate := SAMPLE_RATE * CHANNELS * (BIT_DEPTH / 8);
     block_align := CHANNELS * (BIT_DEPTH / 8);
     bits_per_sample := BIT_DEPTH;
     data_size := n |}.

(** The 44 bytes written before the samples, for [n] bytes of samples. *)
Definition header_bytes (n : Z) : list byte :=
  bytes "RIFF" ++ le_split 4 (n + 36) ++ bytes "WAVE" ++
  bytes "fmt " ++ le_split 4 16 ++ le_split 2 1 ++ le_split 2 CHANNELS ++
  le_split 4 SAMPLE_RATE ++
  le_split 4 (SAMPLE_RATE * CHANNELS * BYTES_PER_SAMPLE) ++
  le_split 2 (CHANNELS * BYTES_PER_SAMPLE) ++ le_split 2 BIT_DEPTH ++
  bytes "data" ++ le_split 4 n.

(** ** The [__main__] block

    What the script prints and calls, in order, and how it ends.  The
    outside world is what the script asks of it: [sys.argv], whether a
    path exists, [os.path.expanduser], and whether the call of
    [find_audio_blocks] returns or dies of an exception nobody catches. *)
Module Main.

Local Open Scope string_scope.

Inductive event : Type :=
| Print (line : string)
| FindAudioBlocks (image_path output_dir : string).

Inductive status : Type :=
| Completed
| SysExit (code : Z)
| Uncaught.

Record world : Type := mk_world {
  argv : list string;
  path_exists : string -> bool;
  expanduser : string -> string;
  scan_returns : string -> string -> bool
}.

Definition USA_PERCORSI_MANUALI : bool := true.
Definition PERCORSO_IMMAGINE : string := "/Volumes/ROMEO/P_BIANCA.dmg".
Definition CARTELLA_OUTPUT (w : world) : string :=
  expanduser w "~/Desktop/recovered_audio".

Definition rule : string := "============================================================".

(** The [if USA_PERCORSI_MANUALI: ... elif ...: ... else: ...] choice of
    the two paths; [inr] is the usage message followed by [sys.exit(1)]. *)
Definition choose_paths (manual : bool) (w : world)
  : (list event * string * string) + list event :=
  if manual then
    let image_path := PERCORSO_IMMAGINE in
    let output_dir := CARTELLA_OUTPUT w in
    inl ([Print "Usando percorsi manuali:";
          Print ("  Input:  " ++ image_path);
          Print ("  Output: " ++ output_dir);
          Print ""], image_path, output_dir)
  else if (2 <=? length (argv w))%nat then
    let image_path := nth 1 (argv w) "" in
    let output_dir :=
      if (2 <? length (argv w))%nat then nth 2 (argv w) ""
      else expanduser w "~/Desktop/recovered_audio" in
    inl ([], image_path, output_dir)
  else
    inr [Print "Uso: python find_audio.py <immagine.dmg> [cartella_output]";
         Print "";
         Print "Oppure modifica USA_PERCORSI_MANUALI = True nello script";
         Print "e imposta PERCORSO_IMMAGINE e CARTELLA_OUTPUT"].

Definition script (manual : bool) (w : world) : list event * status :=
  match choose_paths manual w with
  | inr usage => (usage, SysExit 1)
  | inl (out, image_path, output_dir) =>
      if negb (path_exists w image_path) then
        ((out ++ [Print ("Errore: file non trovato: " ++ image_path)])%list,
         SysExit 1)
      else if negb (scan_returns w image_path output_dir) then
        ((out ++ [FindAudioBlocks image_path output_dir])%list, Uncaught)
      else
        ((out ++ [FindAudioBlocks image_path output_dir;
                 Print (String (Ascii.ascii_of_nat 10) rule);
                 Print "FATTO!";
                 Print ("I file sono stati salvati in: " ++ output_dir);
                 Print "";
                 Print "Apri i file .wav in qualsiasi player audio.";
                 Print "Se l'audio è distorto, prova a importare i .raw in Audacity";
                 Print "con parametri diversi (16-bit invece di 24-bit, ecc.)"])%list,
         Completed)
  end.

(** The script as it stands, with [USA_PERCORSI_MANUALI = True]. *)
Definition main (w : world) : list event * status :=
  script USA_PERCORSI_MANUALI w.

Definition is_scan (e : event) : bool :=
  match e with FindAudioBlocks _ _ => true | Print _ => false end.

(** The scan was started. *)
Definition scanned (r : list event * status) : bool := existsb is_scan (fst r).

End Main.

(** ** Sample blocks *)


(** 250 stereo frames whose left channel climbs by 64 per frame. *)
Definition ramp_block : list byte :=
  flat_map (fun k => le_split 2 (Z.of_nat k * 64) ++ [Byte.x01; Byte.x01])
           (seq 1 250).

(** 250 stereo frames whose left channel jumps between the two extremes. *)
Definition jumping_block : list byte :=
  concat (repeat [Byte.xff; Byte.x7f; Byte.x01; Byte.x01;
                  Byte.x00; Byte.x80; Byte.x01; Byte.x01] 125).

(** ** More bookkeeping for [analyze_block] *)

(** The part of [analyze_block] that follows the test on the number of
    samples: the decision on [max_val], [variance] and [smoothness]. *)
Definition classify_samples (pf : PyFloat.platform) (samples : list Z)
  : block_type * Q :=
  let variance := variance pf samples in
  if max_val samples =? 0 then (Silence, 0%Q) else
  let smoothness := smoothness samples in
  if PyFloat.lt variance (inject_Z 1000) then (Silence, smoothness) else
  if PyFloat.gt smoothness (PyFloat.lit (3 # 10))
     && PyFloat.gt variance (inject_Z 10000) then (Audio, smoothness) else
  if PyFloat.lt smoothness (PyFloat.lit (2 # 10)) then (Noise, smoothness) else
  (Audio, smoothness).

(** The signed 16 bit little-endian number in bytes [i] and [i + 1]. *)
Definition sample_value (data : list byte) (i : nat) : Z :=
  let lo := byte.unsigned (nth i data Byte.x00) in
  let hi := byte.unsigned (nth (S i) data Byte.x00) in
  if hi <? 128 then lo + 256 * hi else lo + 256 * hi - 65536.

(** [total_blocks = file_size // BLOCK_SIZE], the number the scan announces. *)
Definition total_blocks (image : list byte) : Z := len image / BLOCK_SIZE.

(** [f.seek(pos)] followed by [f.read(n)]. *)
Definition seek_read (image : list byte) (pos n : Z) : list byte :=
  firstn (Z.to_nat n) (skipn (Z.to_nat pos) image).

(** What [f.seek(start * BLOCK_SIZE)] followed by
    [f.read((end - start + 1) * BLOCK_SIZE)] returns on a file whose
    content is [image]. *)
Definition block_data (image : list byte) (run : Z * Z) : list byte :=
  let '(start, end_) := run in
  seek_read image (start * BLOCK_SIZE) ((end_ - start + 1) * BLOCK_SIZE).

(** Blocks [start] to [end_] of a list of blocks. *)
Definition blocks_of_run {A} (blocks : list A) (run : Z * Z) : list A :=
  let '(start, end_) := run in
  firstn (Z.to_nat (end_ - start + 1)) (skipn (Z.to_nat start) blocks).

(** An image cut into blocks of [n] bytes, for any block size [n]. *)
Fixpoint chunks_fuel (n fuel : nat) (image : list byte) : list (list byte) :=
  match fuel with
  | O => []
  | S fuel' =>
      match image with
      | [] => []
      | _ :: _ => firstn n image :: chunks_fuel n fuel' (skipn n image)
      end
  end.

Definition chunks (n : nat) (image : list byte) : list (list byte) :=
  chunks_fuel n (length image) image.

(** ** Strings and paths *)
Module PyStr.

Local Open Scope string_scope.

(** [str(n)] for an [int]. *)
Definition str (n : Z) : string :=
  DecimalString.NilEmpty.string_of_int (Z.to_int n).

(** [s.rjust(width, '0')] *)
Definition zfill (width : nat) (s : string) : string :=
  string_of_list_ascii (repeat "0"%char (width - String.length s)) ++ s.

(** [format(n, '03d')]: at least three digits, the sign in front. *)
Definition format_03d (n : Z) : string :=
  if (n <? 0)%Z then "-" ++ zfill 2 (str (- n)) else zfill 3 (str n).

(** [format(x, '.0f')]: the nearest integer, ties to even. *)
Definition format_0f (x : Q) : string :=
  if Qle_bool 0 x then str (PyFloat.round_half_even x)
  else "-" ++ str (PyFloat.round_half_even (- x)).

(** [s.replace(old, new)] for a non-empty [old]: the occurrences of [old]
    are replaced from left to right; [skip] counts the characters of an
    occurrence still to be dropped. *)
Fixpoint replace_from (old new : string) (skip : nat) (s : string) : string :=
  match s with
  | EmptyString => EmptyString
  | String c rest =>
      match skip with
      | S k => replace_from old new k rest
      | O =>
          if prefix old s
          then new ++ replace_from old new (String.length old - 1) rest
          else String c (replace_from old new 0 rest)
      end
  end.

Definition replace (s old new : string) : string := replace_from old new 0 s.

(** [s.endswith('/')] *)
Fixpoint ends_with_slash (s : string) : bool :=
  match s with
  | EmptyString => false
  | String c EmptyString => Ascii.eqb c "/"
  | String _ rest => ends_with_slash rest
  end.

(** [os.path.join(a, b)] of [posixpath]. *)
Definition path_join (a b : string) : string :=
  if prefix "/" b then b
  else if (String.length a =? 0)%nat || ends_with_slash a then a ++ b
  else a ++ "/" ++ b.

End PyStr.


(** ** [find_audio_blocks], second pass

    The second pass reads the image again, through a file opened before
    the loop, and writes two files for every run.  The files are kept as
    the list of what was written, as path and content, the most recent
    first; the files that exist at the start are the first entries of the
    list.  What the operating system decides is asked of a [world]:
    [realpath] tells which file a path names (two paths name the same
    file when their [realpath] is the same), [mkdir_ok] whether
    [Path(p).mkdir(parents=True, exist_ok=True)] returns, [readable]
    whether [open(p, 'rb')] returns for a file that is there, and
    [creatable] whether, after the directory has been made,
    [open(p, 'wb')] returns.  The program creates directories only before
    the loop, so none of the four changes while the loop runs.  Reading
    from and writing to a file that has been opened are taken to
    succeed. *)
Module Files.

Record world : Type := mk_world {
  realpath : string -> string;
  mkdir_ok : string -> bool;
  readable : string -> bool;
  creatable : string -> bool
}.

Definition t : Type := list (string * list byte).

(** The content of the file [path] names, [None] when there is no such
    file. *)
Fixpoint read (w : world) (fs : t) (path : string) : option (list byte) :=
  match fs with
  | [] => None
  | (p, content) :: rest =>
      if String.eqb (realpath w p) (realpath w path) then Some content
      else read w rest path
  end.

Definition write (fs : t) (path : string) (content : list byte) : t :=
  (path, content) :: fs.

End Files.

(** [output_file] of the run with index [i] in [audio_blocks] that starts
    at block [start]. *)
Definition output_file (output_dir : string) (i : nat) (start : Z) : string :=
  let start_mb := PyFloat.truediv_int (start * BLOCK_SIZE) (1024 * 1024) in
  PyStr.path_join output_dir
    ("audio_block_" ++ PyStr.format_03d (Z.of_nat i + 1) ++ "_"
     ++ PyStr.format_0f start_mb ++ "MB.raw")%string.

(** [wav_file = output_file.replace('.raw', '.wav')] *)
Definition wav_file (output_file : string) : string :=
  PyStr.replace output_file ".raw" ".wav".

(** [create_wav_header(raw_file, wav_file)] on the files: [None] stands for
    an exception, [FileNotFoundError] when the raw file is missing or the
    WAV file cannot be created (its directory is missing, for one),
    [PermissionError] and the like when a file cannot be opened, or
    [struct.error] from the packing, which leaves the WAV file with what
    was written before it. *)
Definition create_wav_header_files (w : Files.world) (fs : Files.t)
  (raw_file wav_file : string) : Files.t * option unit :=
  match Files.read w fs raw_file with
  | None => (fs, None)
  | Some raw_data =>
      if negb (Files.readable w raw_file) then (fs, None) else
      if negb (Files.creatable w wav_file) then (fs, None) else
      let (content, outcome) := create_wav_header raw_data in
      (Files.write fs wav_file content, outcome)
  end.

(** [f.seek(start * BLOCK_SIZE)] and [f.read((end - start + 1) * BLOCK_SIZE)]
    on the image: the file is read as it is at that moment, after
    whatever the loop has written so far.  The image was opened before
    the loop, so it is there. *)
Definition read_run (w : Files.world) (fs : Files.t) (image_path : string)
  (run : Z * Z) : list byte :=
  match Files.read w fs image_path with
  | Some image => block_data image run
  | None => []
  end.

(** The body of the loop over [enumerate(audio_blocks)]. *)
Definition extract_run (w : Files.world) (image_path output_dir : string)
  (fs : Files.t) (i : nat) (run : Z * Z) : Files.t * option unit :=
  let output_file := output_file output_dir i (fst run) in
  let data := read_run w fs image_path run in
  if negb (Files.creatable w output_file) then (fs, None) else
  let fs := Files.write fs output_file data in
  create_wav_header_files w fs output_file (wav_file output_file).

(** The loop: an exception ends it. *)
Fixpoint extract_runs (w : Files.world) (image_path output_dir : string)
  (fs : Files.t) (i : nat) (runs : list (Z * Z)) : Files.t * option unit :=
  match runs with
  | [] => (fs, Some tt)
  | run :: rest =>
      match extract_run w image_path output_dir fs i run with
      | (fs', Some _) => extract_runs w image_path output_dir fs' (S i) rest
      | (fs', None) => (fs', None)
      end
  end.

(** [find_audio_blocks(image_path, output_dir)] on the files [fs]: the
    files afterwards and the list it returns, [None] when it ends in an
    exception.  The first pass is over before anything is written. *)
Definition find_audio_blocks_files (w : Files.world) (pf : PyFloat.platform)
  (fs : Files.t) (image_path output_dir : string)
  : Files.t * option (list (Z * Z)) :=
  match Files.read w fs image_path with
  | None => (fs, None)
  | Some image =>
      if negb (Files.readable w image_path) then (fs, None) else
      let audio_blocks := find_audio_blocks pf image in
      if negb (Files.mkdir_ok w output_dir) then (fs, None) else
      match extract_runs w image_path output_dir fs 0 audio_blocks with
      | (fs', Some _) => (fs', Some audio_blocks)
      | (fs', None) => (fs', None)
      end
  end.

(** No file the extraction writes is the image. *)
Definition image_kept_apart (w : Files.world) (image_path output_dir : string)
  : Prop :=
  forall (i : nat) (start : Z),
    Files.realpath w (output_file output_dir i start)
      <> Files.realpath w image_path /\
    Files.realpath w (wav_file (output_file output_dir i start))
      <> Files.realpath w image_path.

(** Every file the extraction may write can be created, and its raw
    files can then be opened for reading. *)
Definition outputs_usable (w : Files.world) (output_dir : string) : Prop :=
  forall (i : nat) (start : Z),
    Files.creatable w (output_file output_dir i start) = true /\
    Files.readable w (output_file output_dir i start) = true /\
    Files.creatable w (wav_file (output_file output_dir i start)) = true.

(** A world in which every path names a file of its own and nothing
    fails. *)
Definition plain_world : Files.world :=
  Files.mk_world (fun path => path) (fun _ => true) (fun _ => true)
                 (fun _ => true).

(** The files a complete extraction of [runs] writes, in the order of
    writing, the first run having index [i]. *)
Fixpoint files_of_runs (image : list byte) (output_dir : string) (i : nat)
  (runs : list (Z * Z)) : list (string * list byte) :=
  match runs with
  | [] => []
  | run :: rest =>
      let raw := output_file output_dir i (fst run) in
      let data := block_data image run in
      (raw, data) :: (wav_file raw, header_bytes (len data) ++ data)
      :: files_of_runs image output_dir (S i) rest
  end.

(** [k] zeros in front of a decimal number. *)
Fixpoint zeros_in_front (k : nat) (u : Decimal.uint) : Decimal.uint :=
  match k with
  | O => u
  | S k' => Decimal.D0 (zeros_in_front k' u)
  end.

(** No character of the string is a dot. *)
Fixpoint no_dot (s : string) : bool :=
  match s with
  | EmptyString => true
  | String c rest => negb (Ascii.eqb c ".") && no_dot rest
  end.

(** The file name of a run without its directory and extension. *)
Definition file_stem (i : nat) (start : Z) : string :=
  ("audio_block_" ++ PyStr.format_03d (Z.of_nat i + 1) ++ "_"
   ++ PyStr.str start ++ "MB")%string.

(** [x] is not negative and lies between the integers [fst b] and
    [snd b]. *)
Definition between (b : Z * Z) (x : Q) : Prop :=
  0 <= fst b /\ (inject_Z (fst b) <= x <= inject_Z (snd b))%Q.

(** [s - avg for s in samples]: what [analyze_block] squares. *)
Definition deviations (samples : list Z) : list Q :=
  let avg := average samples in
  map (fun s => PyFloat.fsub (PyFloat.of_int s) avg) samples.

(** The exact squares of the deviations, rounded down and rounded up to
    integers, and added up exactly. *)
Definition squares_below (samples : list Z) : Z :=
  sum_int (map (fun d => Qfloor (d * d)) (deviations samples)).

Definition squares_above (samples : list Z) : Z :=
  sum_int (map (fun d => Qceiling (d * d)) (deviations samples)).

(** Between the files [fs] and the files [fs'], [content] was written to
    [path]. *)
Definition written (fs fs' : Files.t) (path : string) (content : list byte)
  : Prop :=
  exists new, fs' = (new ++ fs)%list /\ In (path, content) new.


(** The files at the start: the image and nothing else. *)
Definition disk (image : list byte) : Files.t := [("/disk.img"%string, image)].


(* ================================================================== *)
(** * Properties *)
(* ================================================================== *)

(** ** The run tracker *)

Lemma scan_runs_from (l : list block_type) (st : Scan.state) :
  Scan.finish (fold_left Scan.step l st) =
  Scan.audio_blocks st ++
  runs_from (Scan.block_num st) (Scan.current_audio_start st) l.
Proof.
  revert st; induction l as [|ty t IH]; intros [acc start n]; simpl.
  - unfold Scan.finish; simpl. destruct start; [reflexivity|].
    now rewrite app_nil_r.
  - rewrite IH. unfold Scan.step; simpl.
    destruct (is_audio ty), start; simpl; try reflexivity.
    now rewrite <- app_assoc.
Qed.

Lemma class_at_neg l i : i < 0 -> class_at l i = None.
Proof. unfold class_at; intros H. apply Z.ltb_lt in H. now rewrite H. Qed.

Lemma class_at_0 x l : class_at (x :: l) 0 = Some x.
Proof. reflexivity. Qed.

Lemma class_at_succ x l i : 0 < i -> class_at (x :: l) i = class_at l (i - 1).
Proof.
  intros H. unfold class_at.
  destruct (i <? 0) eqn:E1; [apply Z.ltb_lt in E1; lia|].
  destruct (i - 1 <? 0) eqn:E2; [apply Z.ltb_lt in E2; lia|].
  replace (Z.to_nat i) with (S (Z.to_nat (i - 1))) by lia. reflexivity.
Qed.

Lemma class_at_nil i : class_at [] i = None.
Proof. unfold class_at. destruct (i <? 0); [reflexivity|]. now destruct (Z.to_nat i). Qed.

Lemma class_at_length l i : Z.of_nat (length l) <= i -> class_at l i = None.
Proof.
  intros H. unfold class_at. destruct (i <? 0); [reflexivity|].
  apply nth_error_None. lia.
Qed.

Lemma is_audio_true ty : is_audio ty = true <-> ty = Audio.
Proof. destruct ty; simpl; split; congruence. Qed.

Lemma is_audio_false ty : is_audio ty = false <-> ty <> Audio.
Proof. destruct ty; simpl; split; congruence. Qed.

Lemma leading_audio_nil k : leading_audio [] k <-> k = 0.
Proof.
  unfold leading_audio; simpl; split.
  - intros [H _]; lia.
  - intros ->. repeat split; try lia. now rewrite class_at_nil.
Qed.

Lemma leading_audio_cons_other ty t k :
  ty <> Audio -> (leading_audio (ty :: t) k <-> k = 0).
Proof.
  intros Hty; unfold leading_audio; split.
  - intros [Hk [Hall _]].
    destruct (Z.eq_dec k 0) as [|Hne]; [assumption|].
    specialize (Hall 0 ltac:(lia)). rewrite class_at_0 in Hall. congruence.
  - intros ->. simpl length. repeat split; try lia.
    rewrite class_at_0. congruence.
Qed.

Lemma leading_audio_cons_audio t k :
  leading_audio (Audio :: t) k <-> 1 <= k /\ leading_audio t (k - 1).
Proof.
  unfold leading_audio; simpl length; split.
  - intros [Hk [Hall Hend]].
    assert (1 <= k).
    { destruct (Z.eq_dec k 0) as [->|]; [|lia].
      rewrite class_at_0 in Hend. congruence. }
    split; [assumption|]. repeat split; try lia.
    + intros i Hi. rewrite <- (Hall (i + 1)) by lia.
      rewrite class_at_succ by lia. f_equal; lia.
    + rewrite <- class_at_succ with (x := Audio) by lia. assumption.
  - intros [H1 [Hk [Hall Hend]]]. repeat split; try lia.
    + intros i Hi. destruct (Z.eq_dec i 0) as [->|]; [reflexivity|].
      rewrite class_at_succ by lia. apply Hall; lia.
    + rewrite class_at_succ by lia. assumption.
Qed.

Lemma maximal_audio_run_nil s e : ~ maximal_audio_run [] s e.
Proof. unfold maximal_audio_run; simpl. intros [? [? _]]; lia. Qed.

Lemma maximal_audio_run_cons_other ty t s e :
  ty <> Audio ->
  (maximal_audio_run (ty :: t) s e <-> maximal_audio_run t (s - 1) (e - 1)).
Proof.
  intros Hty; unfold maximal_audio_run; simpl length; split.
  - intros [Hse [He [Hall [Hs Hend]]]].
    assert (1 <= s).
    { destruct (Z.eq_dec s 0) as [->|]; [|lia].
      specialize (Hall 0 ltac:(lia)). rewrite class_at_0 in Hall. congruence. }
    repeat split; try lia.
    + intros i Hi. rewrite <- (Hall (i + 1)) by lia.
      rewrite class_at_succ by lia. f_equal; lia.
    + destruct (Z.eq_dec s 1) as [->|].
      * rewrite class_at_neg by lia. discriminate.
      * rewrite class_at_succ in Hs by lia. assumption.
    + rewrite class_at_succ in Hend by lia.
      replace (e - 1 + 1) with (e + 1 - 1) by lia. assumption.
  - intros [Hse [He [Hall [Hs Hend]]]]. repeat split; try lia.
    + intros i Hi. rewrite class_at_succ by lia. apply Hall; lia.
    + destruct (Z.eq_dec s 1) as [->|].
      * simpl. rewrite class_at_0. congruence.
      * rewrite class_at_succ by lia. assumption.
    + rewrite class_at_succ by lia.
      replace (e + 1 - 1) with (e - 1 + 1) by lia. assumption.
Qed.

Lemma maximal_audio_run_cons_audio t s e :
  maximal_audio_run (Audio :: t) s e <->
  (s = 0 /\ leading_audio t e) \/
  (2 <= s /\ maximal_audio_run t (s - 1) (e - 1)).
Proof.
  unfold maximal_audio_run, leading_audio; simpl length; split.
  - intros [Hse [He [Hall [Hs Hend]]]].
    destruct (Z.eq_dec s 0) as [->|Hs0].
    + left. split; [reflexivity|]. repeat split; try lia.
      * intros i Hi. rewrite <- (Hall (i + 1)) by lia.
        rewrite class_at_succ by lia. f_equal; lia.
      * rewrite class_at_succ in Hend by lia.
        replace e with (e + 1 - 1) by lia. assumption.
    + right.
      assert (2 <= s).
      { destruct (Z.eq_dec s 1) as [->|]; [|lia].
        simpl in Hs. rewrite class_at_0 in Hs. congruence. }
      split; [assumption|]. repeat split; try lia.
      * intros i Hi. rewrite <- (Hall (i + 1)) by lia.
        rewrite class_at_succ by lia. f_equal; lia.
      * rewrite class_at_succ in Hs by lia. assumption.
      * rewrite class_at_succ in Hend by lia.
        replace (e - 1 + 1) with (e + 1 - 1) by lia. assumption.
  - intros [[-> [Hk [Hall Hend]]] | [H2 [Hse [He [Hall [Hs Hend]]]]]].
    + repeat split; try lia.
      * intros i Hi. destruct (Z.eq_dec i 0) as [->|]; [reflexivity|].
        rewrite class_at_succ by lia. apply Hall; lia.
      * rewrite class_at_neg by lia. discriminate.
      * rewrite class_at_succ by lia.
        replace (e + 1 - 1) with e by lia. assumption.
    + repeat split; try lia.
      * intros i Hi. rewrite class_at_succ by lia. apply Hall; lia.
      * rewrite class_at_succ by lia. assumption.
      * rewrite class_at_succ by lia.
        replace (e + 1 - 1) with (e - 1 + 1) by lia. assumption.
Qed.

(** What [runs_from] lists: with no run open, the maximal audio runs of
    the remaining blocks (shifted by [n]); with a run open since [s], the
    run that continues it plus the later maximal runs. *)
Lemma runs_from_spec (l : list block_type) :
  forall n start a b,
    In (a, b) (runs_from n start l) <->
    match start with
    | None => maximal_audio_run l (a - n) (b - n)
    | Some s =>
        (a = s /\ leading_audio l (b - n + 1)) \/
        (1 <= a - n /\ maximal_audio_run l (a - n) (b - n))
    end.
Proof.
  induction l as [|ty t IH]; intros n start a b.
  - simpl. destruct start as [s|].
    + rewrite leading_audio_nil. split.
      * intros [H|[]]. inversion H; subst. left; split; [reflexivity|lia].
      * intros [[-> H]|[_ H]]; [|now apply maximal_audio_run_nil in H].
        left. f_equal; lia.
    + split; [intros []|apply maximal_audio_run_nil].
  - simpl. destruct (is_audio ty) eqn:Ety.
    + apply is_audio_true in Ety; subst ty.
      rewrite IH.
      replace (b - (n + 1) + 1) with (b - n) by lia.
      replace (a - (n + 1)) with (a - n - 1) by lia.
      replace (b - (n + 1)) with (b - n - 1) by lia.
      destruct start as [s|]; rewrite maximal_audio_run_cons_audio;
        [rewrite leading_audio_cons_audio;
         replace (b - n + 1 - 1) with (b - n) by lia|].
      * split.
        -- intros [[-> H]|[H1 H2]].
           ++ left. split; [reflexivity|]. split; [|assumption].
              destruct H as [H _]; lia.
           ++ right. split; [lia|]. right. split; [lia|assumption].
        -- intros [[-> [_ H]]|[H1 [[H2 _]|[H2 H3]]]].
           ++ left; tauto.
           ++ lia.
           ++ right; split; [lia|assumption].
      * split.
        -- intros [[-> H]|[H1 H2]].
           ++ left. split; [lia|assumption].
           ++ right. split; [lia|assumption].
        -- intros [[H1 H2]|[H1 H2]].
           ++ left. split; [lia|assumption].
           ++ right. split; [lia|assumption].
    + apply is_audio_false in Ety.
      destruct start as [s|]; simpl; rewrite IH;
        rewrite (maximal_audio_run_cons_other _ _ _ _ Ety);
        try rewrite (leading_audio_cons_other _ _ _ Ety);
        replace (a - (n + 1)) with (a - n - 1) by lia;
        replace (b - (n + 1)) with (b - n - 1) by lia.
      * split.
        -- intros [H|H].
           ++ inversion H; subst. left; split; [reflexivity|lia].
           ++ right. split; [|assumption]. destruct H as [H _]; lia.
        -- intros [[-> H]|[_ H]].
           ++ left. f_equal; lia.
           ++ right; assumption.
      * reflexivity.
Qed.

Lemma runs_from_bounds l n start a b :
  In (a, b) (runs_from n start l) ->
  n - 1 <= b /\ (start = None -> n <= a).
Proof.
  rewrite runs_from_spec. destruct start as [s|].
  - intros [[-> [H _]]|[H1 [H2 _]]]; split; try lia; discriminate.
  - intros [H _]. split; lia.
Qed.

Lemma runs_from_sorted (l : list block_type) :
  forall n start, StronglySorted run_before (runs_from n start l).
Proof.
  induction l as [|ty t IH]; intros n start; simpl.
  - destruct start; repeat constructor.
  - destruct (is_audio ty); [apply IH|].
    destruct start as [s|]; [|apply IH].
    constructor; [apply IH|].
    apply Forall_forall. intros [a b] Hin.
    apply runs_from_bounds in Hin. unfold run_before; simpl.
    destruct Hin as [_ H]. specialize (H eq_refl). lia.
Qed.

Lemma scan_runs_eq (l : list block_type) : Scan.runs l = runs_from 0 None l.
Proof. unfold Scan.runs. now rewrite scan_runs_from. Qed.

Lemma runs_from_skip_others pre rest n :
  Forall not_audio pre ->
  runs_from n None (pre ++ rest) = runs_from (n + Z.of_nat (length pre)) None rest.
Proof.
  intros H; revert n; induction H as [|ty t Hty _ IH]; intros n.
  - simpl. f_equal; lia.
  - cbn [app runs_from length]. apply is_audio_false in Hty. rewrite Hty, IH.
    f_equal; lia.
Qed.

Lemma runs_from_audio_open k rest n s :
  runs_from n (Some s) (repeat Audio k ++ rest) =
  runs_from (n + Z.of_nat k) (Some s) rest.
Proof.
  revert n; induction k as [|k IH]; intros n.
  - simpl. f_equal; lia.
  - cbn [repeat app runs_from is_audio]. rewrite IH. f_equal; lia.
Qed.

Lemma runs_from_close post n s :
  Forall not_audio post -> runs_from n (Some s) post = [(s, n - 1)].
Proof.
  intros H. destruct H as [|ty t Hty Ht]; [reflexivity|].
  cbn [runs_from]. apply is_audio_false in Hty. rewrite Hty.
  f_equal. rewrite <- (app_nil_r t), runs_from_skip_others by assumption.
  reflexivity.
Qed.

Lemma runs_single pre k post :
  (0 < k)%nat -> Forall not_audio pre -> Forall not_audio post ->
  Scan.runs (pre ++ repeat Audio k ++ post) =
  [(Z.of_nat (length pre), Z.of_nat (length pre) + Z.of_nat k - 1)].
Proof.
  intros Hk Hpre Hpost. rewrite scan_runs_eq, runs_from_skip_others by assumption.
  destruct k as [|k]; [lia|].
  cbn [repeat app runs_from is_audio].
  rewrite runs_from_audio_open, runs_from_close by assumption.
  f_equal. f_equal; lia.
Qed.

Lemma sorted_runs_nodup (l : list (Z * Z)) :
  StronglySorted run_before l -> (forall p, In p l -> fst p <= snd p) -> NoDup l.
Proof.
  induction 1 as [|p l Hs IH Hall]; intros Hle; constructor.
  - intros Hin. rewrite Forall_forall in Hall. specialize (Hall p Hin).
    specialize (Hle p (or_introl eq_refl)). unfold run_before in Hall. lia.
  - apply IH. intros q Hq. apply Hle. now right.
Qed.

(** C1. For every sequence of block classifications the run tracker of
    [find_audio_blocks] reports exactly the maximal contiguous runs of
    audio blocks, as (start, end) pairs: a pair is reported if and only if
    it delimits a maximal run (a run reaching the last block read ends
    there), the pairs come in scan order without repetition, and a sequence
    with exactly one contiguous audio run yields exactly that one pair. *)
Theorem audio_runs_are_maximal_runs (l : list block_type) :
  (forall s e, In (s, e) (Scan.runs l) <-> maximal_audio_run l s e) /\
  StronglySorted run_before (Scan.runs l) /\
  NoDup (Scan.runs l) /\
  (forall pre k post,
      l = pre ++ repeat Audio k ++ post -> (0 < k)%nat ->
      Forall not_audio pre -> Forall not_audio post ->
      Scan.runs l =
      [(Z.of_nat (length pre), Z.of_nat (length pre) + Z.of_nat k - 1)]).
Proof.
  assert (Hspec : forall s e, In (s, e) (Scan.runs l) <-> maximal_audio_run l s e).
  { intros s e. rewrite scan_runs_eq, runs_from_spec.
    now replace (s - 0) with s by lia; replace (e - 0) with e by lia. }
  assert (Hsorted : StronglySorted run_before (Scan.runs l)).
  { rewrite scan_runs_eq. apply runs_from_sorted. }
  split; [exact Hspec|]. split; [exact Hsorted|]. split.
  - apply sorted_runs_nodup; [assumption|].
    intros [s e] Hin. apply Hspec in Hin. destruct Hin as [H _]. simpl; lia.
  - intros pre k post -> Hk Hpre Hpost. now apply runs_single.
Qed.

Lemma audio_runs_are_maximal_runs_witness :
  Scan.runs [Silence; Audio; Audio; Noise; Empty] = [(1, 2)].
Proof.
  apply (proj2 (proj2 (proj2
    (audio_runs_are_maximal_runs [Silence; Audio; Audio; Noise; Empty])))
    [Silence] 2%nat [Noise; Empty]).
  - reflexivity.
  - lia.
  - repeat constructor; discriminate.
  - repeat constructor; discriminate.
Defined.

(** ** [struct.pack] and the WAV header *)

Lemma pack_I_ok v : 0 <= v < 2 ^ 32 -> Struct.pack_I v = Some (le_split 4 v).
Proof.
  intros H. unfold Struct.pack_I, Struct.in_range.
  destruct (0 <=? v) eqn:E1; [|apply Z.leb_gt in E1; lia].
  destruct (v <? 2 ^ 32) eqn:E2; [reflexivity|apply Z.ltb_ge in E2; lia].
Qed.

Lemma pack_I_error v : 2 ^ 32 <= v -> Struct.pack_I v = None.
Proof.
  intros H. unfold Struct.pack_I, Struct.in_range.
  destruct (v <? 2 ^ 32) eqn:E2; [apply Z.ltb_lt in E2; lia|].
  now rewrite andb_false_r.
Qed.

Lemma unpack_pack_I v : 0 <= v < 2 ^ 32 -> Struct.unpack_I (le_split 4 v) = v.
Proof.
  intros H. unfold Struct.unpack_I. rewrite le_combine_split.
  apply Z.mod_small. simpl; lia.
Qed.

Lemma header_bytes_length n : length (header_bytes n) = 44%nat.
Proof. reflexivity. Qed.

Lemma create_wav_header_fits (raw : list byte) :
  Z.of_nat (length raw) + 36 < 2 ^ 32 ->
  create_wav_header raw =
  (header_bytes (Z.of_nat (length raw)) ++ raw, Some tt).
Proof.
  intros H. unfold create_wav_header, FileOut.with_open_wb, write_packed.
  rewrite (pack_I_ok (Z.of_nat (length raw) + 36)) by lia.
  rewrite (pack_I_ok (Z.of_nat (length raw))) by lia.
  change (Struct.pack_I 16) with (Some (le_split 4 16)).
  change (Struct.pack_H 1) with (Some (le_split 2 1)).
  change (Struct.pack_H CHANNELS) with (Some (le_split 2 CHANNELS)).
  change (Struct.pack_I SAMPLE_RATE) with (Some (le_split 4 SAMPLE_RATE)).
  change (Struct.pack_I (SAMPLE_RATE * CHANNELS * BYTES_PER_SAMPLE))
    with (Some (le_split 4 (SAMPLE_RATE * CHANNELS * BYTES_PER_SAMPLE))).
  change (Struct.pack_H (CHANNELS * BYTES_PER_SAMPLE))
    with (Some (le_split 2 (CHANNELS * BYTES_PER_SAMPLE))).
  change (Struct.pack_H BIT_DEPTH) with (Some (le_split 2 BIT_DEPTH)).
  cbn [FileOut.bind FileOut.eval FileOut.write].
  unfold header_bytes. rewrite <- !app_assoc. reflexivity.
Qed.

Lemma create_wav_header_too_big (raw : list byte) :
  2 ^ 32 <= Z.of_nat (length raw) + 36 ->
  create_wav_header raw = (bytes "RIFF", None).
Proof.
  intros H. unfold create_wav_header, FileOut.with_open_wb, write_packed.
  rewrite (pack_I_error (Z.of_nat (length raw) + 36)) by lia.
  reflexivity.
Qed.

Ltac eval_bytes s :=
  let r := eval vm_compute in (bytes s) in change (bytes s) with r.

Lemma parse_wav_header_bytes (n : Z) (raw : list byte) :
  0 <= n -> n + 36 < 2 ^ 32 ->
  parse_wav (header_bytes n ++ raw) = Some (expected_header n, raw).
Proof.
  intros H0 H.
  pose proof (unpack_pack_I (n + 36) ltac:(lia)) as Hriff.
  pose proof (unpack_pack_I n ltac:(lia)) as Hdata.
  unfold parse_wav, header_bytes.
  eval_bytes "RIFF"%string. eval_bytes "WAVE"%string.
  eval_bytes "fmt "%string. eval_bytes "data"%string.
  cbv [le_split] in Hriff, Hdata.
  cbv [le_split app slice firstn skipn length Nat.leb andb].
  rewrite Hriff, Hdata.
  reflexivity.
Qed.

(** C2, as amended. For every raw input of N bytes with N + 36 < 2^32,
    [create_wav_header] writes a 44 byte canonical PCM header followed by
    the same N bytes, and reading the header back gives RIFF size N + 36,
    data size N, format 1 (PCM), 2 channels, 48000 Hz, byte rate 192000,
    block align 4 and 16 bits per sample. *)
Theorem wav_header_round_trip (raw : list byte) :
  Z.of_nat (length raw) + 36 < 2 ^ 32 ->
  exists header : list byte,
    create_wav_header raw = (header ++ raw, Some tt) /\
    length header = 44%nat /\
    parse_wav (header ++ raw) =
      Some (expected_header (Z.of_nat (length raw)), raw) /\
    expected_header (Z.of_nat (length raw)) =
      {| riff_size := Z.of_nat (length raw) + 36;
         fmt_size := 16;
         audio_format := 1;
         num_channels := 2;
         sample_rate := 48000;
         byte_rate := 192000;
         block_align := 4;
         bits_per_sample := 16;
         data_size := Z.of_nat (length raw) |}.
Proof.
  intros H. exists (header_bytes (Z.of_nat (length raw))).
  split; [now apply create_wav_header_fits|].
  split; [apply header_bytes_length|].
  split; [|reflexivity].
  apply parse_wav_header_bytes; lia.
Qed.

Lemma wav_header_round_trip_witness :
  exists header : list byte,
    create_wav_header [Byte.x10; Byte.x00; Byte.xf0; Byte.xff] =
      (header ++ [Byte.x10; Byte.x00; Byte.xf0; Byte.xff], Some tt) /\
    length header = 44%nat.
Proof.
  destruct (wav_header_round_trip [Byte.x10; Byte.x00; Byte.xf0; Byte.xff])
    as [header [H1 [H2 _]]].
  - simpl. lia.
  - exists header. split; assumption.
Defined.

(** C2 as first stated fails for a raw input of 2^32 - 36 bytes: packing
    the RIFF size raises, and the output holds the four bytes written
    before that instead of a header and the samples. *)
Lemma wav_header_fails_for_large_input :
  let raw := repeat Byte.x00 (Z.to_nat (2 ^ 32 - 36)) in
  create_wav_header raw = (bytes "RIFF", None) /\
  ~ (exists header, create_wav_header raw = (header ++ raw, Some tt)).
Proof.
  intros raw.
  assert (Hlen : Z.of_nat (length raw) = 2 ^ 32 - 36).
  { unfold raw. rewrite repeat_length. apply Z2Nat.id. lia. }
  assert (H : create_wav_header raw = (bytes "RIFF", None)).
  { apply create_wav_header_too_big. rewrite Hlen. lia. }
  split; [exact H|].
  intros [header Hh]. rewrite H in Hh. discriminate.
Qed.

(** C9. [create_wav_header] succeeds exactly when N + 36 < 2^32, N being
    the size of the raw file: the RIFF size is packed as an unsigned 32 bit
    number, so from N = 2^32 - 36 on the first [struct.pack] raises, the
    function stops there, and what it leaves behind is not a WAV file. *)
Theorem wav_header_size_limit (raw : list byte) :
  create_wav_header raw =
    (if Z.of_nat (length raw) + 36 <? 2 ^ 32
     then (header_bytes (Z.of_nat (length raw)) ++ raw, Some tt)
     else (bytes "RIFF", None)) /\
  (snd (create_wav_header raw) = Some tt <->
   Z.of_nat (length raw) + 36 < 2 ^ 32) /\
  (Struct.pack_I (Z.of_nat (length raw) + 36) = None <->
   2 ^ 32 - 36 <= Z.of_nat (length raw)) /\
  (snd (create_wav_header raw) = None ->
   parse_wav (fst (create_wav_header raw)) = None).
Proof.
  destruct (Z.of_nat (length raw) + 36 <? 2 ^ 32) eqn:E.
  - apply Z.ltb_lt in E. rewrite create_wav_header_fits by assumption.
    simpl snd. split; [reflexivity|]. split; [tauto|]. split.
    + rewrite pack_I_ok by lia. split; [discriminate|lia].
    + discriminate.
  - apply Z.ltb_ge in E. rewrite create_wav_header_too_big by assumption.
    simpl snd. simpl fst. split; [reflexivity|]. split; [|split].
    + split; [discriminate|lia].
    + rewrite pack_I_error by assumption. split; [lia|reflexivity].
    + intros _. reflexivity.
Qed.

Lemma wav_header_size_limit_witness :
  parse_wav (fst (create_wav_header (repeat Byte.x00 (Z.to_nat (2 ^ 32))))) = None.
Proof.
  apply (proj2 (proj2 (proj2
    (wav_header_size_limit (repeat Byte.x00 (Z.to_nat (2 ^ 32))))))).
  rewrite create_wav_header_too_big; [reflexivity|].
  rewrite repeat_length, Z2Nat.id; lia.
Defined.

(** ** The [__main__] block *)

(** With [USA_PERCORSI_MANUALI] switched off and no argument on the command
    line the script prints its usage and exits with code 1; as the script
    stands the switch is on and this branch is never taken. *)
Lemma script_usage_exit (w : Main.world) :
  (length (Main.argv w) < 2)%nat -> snd (Main.script false w) = Main.SysExit 1.
Proof.
  intros H. unfold Main.script, Main.choose_paths.
  destruct (2 <=? length (Main.argv w))%nat eqn:E; [|reflexivity].
  apply Nat.leb_le in E. lia.
Qed.

(** C8. When the configured image path does not exist the script prints
    the error and stops at once with exit code 1, before the scan is
    started; and this is the only exit it takes before the scan: when the
    path exists the scan is started, and whenever the script ends through
    [sys.exit] the path did not exist. *)
Theorem missing_input_is_the_only_checked_exit (w : Main.world) :
  (Main.path_exists w Main.PERCORSO_IMMAGINE = false ->
   snd (Main.main w) = Main.SysExit 1 /\
   last (fst (Main.main w)) (Main.Print "") =
     Main.Print ("Errore: file non trovato: " ++ Main.PERCORSO_IMMAGINE) /\
   Main.scanned (Main.main w) = false) /\
  (Main.path_exists w Main.PERCORSO_IMMAGINE = true ->
   Main.scanned (Main.main w) = true) /\
  (forall code, snd (Main.main w) = Main.SysExit code ->
   code <> 0 /\ Main.path_exists w Main.PERCORSO_IMMAGINE = false).
Proof.
  unfold Main.main, Main.script, Main.USA_PERCORSI_MANUALI.
  cbn [Main.choose_paths].
  destruct (Main.path_exists w Main.PERCORSO_IMMAGINE) eqn:E; cbn [negb].
  - split; [discriminate|]. split.
    + intros _.
      destruct (Main.scan_returns w Main.PERCORSO_IMMAGINE (Main.CARTELLA_OUTPUT w));
        reflexivity.
    + intros code.
      destruct (Main.scan_returns w Main.PERCORSO_IMMAGINE (Main.CARTELLA_OUTPUT w));
        discriminate.
  - split; [|split].
    + intros _. repeat split.
    + discriminate.
    + intros code H. inversion H. split; [discriminate|reflexivity].
Qed.

Lemma missing_input_is_the_only_checked_exit_witness :
  snd (Main.main (Main.mk_world [] (fun _ => false) (fun p => p) (fun _ _ => true)))
  = Main.SysExit 1.
Proof.
  apply (proj1 (missing_input_is_the_only_checked_exit
    (Main.mk_world [] (fun _ => false) (fun p => p) (fun _ _ => true)))).
  reflexivity.
Defined.

(** ** Rounding to nearest

    The facts about Python float arithmetic the properties below rest on:
    rounding is monotone, it depends on the value only, and integers of
    magnitude below 2^53 are not changed by it. *)
Module PyFloatFacts.

Import PyFloat.
Local Open Scope Q_scope.

Lemma round_half_even_bounds x :
  (Qfloor x <= round_half_even x <= Qfloor x + 1)%Z.
Proof.
  unfold round_half_even.
  destruct (Qcompare (x - inject_Z (Qfloor x)) (1 # 2)); try lia.
  destruct (Z.even (Qfloor x)); lia.
Qed.

Lemma round_half_even_Z (z : Z) : round_half_even (inject_Z z) = z.
Proof.
  unfold round_half_even. rewrite Qfloor_Z.
  destruct (Qcompare_spec (inject_Z z - inject_Z z) (1 # 2)) as [H|H|H];
    [exfalso; lra|reflexivity|exfalso; lra].
Qed.

Lemma round_half_even_mono x y :
  x <= y -> (round_half_even x <= round_half_even y)%Z.
Proof.
  intros Hxy.
  pose proof (Qfloor_resp_le x y Hxy) as Hf.
  destruct (Z.eq_dec (Qfloor x) (Qfloor y)) as [E|NE].
  - unfold round_half_even. rewrite <- E.
    destruct (Qcompare_spec (x - inject_Z (Qfloor x)) (1 # 2)) as [Hx|Hx|Hx];
    destruct (Qcompare_spec (y - inject_Z (Qfloor x)) (1 # 2)) as [Hy|Hy|Hy];
    try lia; try (destruct (Z.even (Qfloor x)); lia); exfalso; lra.
  - pose proof (round_half_even_bounds x). pose proof (round_half_even_bounds y).
    lia.
Qed.

#[global] Instance round_half_even_comp : Proper (Qeq ==> eq) round_half_even.
Proof.
  intros x y E. unfold round_half_even.
  rewrite (Qfloor_comp x y E).
  assert (E2 : x - inject_Z (Qfloor y) == y - inject_Z (Qfloor y)) by (rewrite E; reflexivity).
  now rewrite (Qcompare_comp _ _ E2 _ _ (Qeq_refl (1#2))).
Qed.

Lemma pow2_pos (e : Z) : 0 < 2 ^ e.
Proof. apply Qpower_0_lt. reflexivity. Qed.

Lemma pow2_add (a b : Z) : 2 ^ (a + b) == 2 ^ a * 2 ^ b.
Proof. apply Qpower_plus. discriminate. Qed.

Lemma pow2_le (a b : Z) : (a <= b)%Z -> 2 ^ a <= 2 ^ b.
Proof. intros H. apply Qpower_le_compat_l; [assumption|discriminate]. Qed.

Lemma pow2_lt (a b : Z) : (a < b)%Z -> 2 ^ a < 2 ^ b.
Proof. intros H. apply Qpower_lt_compat_l; [assumption|reflexivity]. Qed.

Lemma pow2_inject (a : Z) : (0 <= a)%Z -> inject_Z (2 ^ a) == 2 ^ a.
Proof. intros H. apply (Zpower_Qpower 2 a H). Qed.

Lemma in_binade_unique x k k' : in_binade x k -> in_binade x k' -> k = k'.
Proof.
  intros [H1 H2] [H3 H4].
  destruct (Z.lt_trichotomy k k') as [L|[E|L]]; [exfalso|assumption|exfalso].
  - pose proof (pow2_le (k + 1) k' ltac:(lia)). lra.
  - pose proof (pow2_le (k' + 1) k ltac:(lia)). lra.
Qed.

Lemma in_binade_le x y kx ky :
  in_binade x kx -> in_binade y ky -> x <= y -> (kx <= ky)%Z.
Proof.
  intros [H1 H2] [H3 H4] Hxy.
  destruct (Z.le_gt_cases kx ky) as [L|L]; [assumption|exfalso].
  pose proof (pow2_le (ky + 1) kx ltac:(lia)). lra.
Qed.

Lemma ilog2_spec x : 0 < x -> in_binade x (ilog2 x).
Proof.
  intros Hx. destruct x as [p q].
  assert (Hp : (0 < p)%Z).
  { unfold Qlt in Hx; simpl in Hx. lia. }
  pose proof (Z.log2_spec p Hp) as [Ha1 Ha2].
  pose proof (Z.log2_spec (Zpos q) ltac:(lia)) as [Hb1 Hb2].
  pose proof (Z.log2_nonneg p) as Ha0.
  pose proof (Z.log2_nonneg (Zpos q)) as Hb0.
  set (a := Z.log2 p) in *. set (b := Z.log2 (Zpos q)) in *.
  assert (HP1 : 2 ^ a <= inject_Z p).
  { rewrite <- pow2_inject by assumption. now rewrite <- Zle_Qle. }
  assert (HP2 : inject_Z p < 2 ^ (a + 1)).
  { rewrite <- pow2_inject by lia. rewrite <- Zlt_Qlt. now rewrite <- Z.add_1_r in Ha2. }
  assert (HD1 : 2 ^ b <= inject_Z (Zpos q)).
  { rewrite <- pow2_inject by assumption. now rewrite <- Zle_Qle. }
  assert (HD2 : inject_Z (Zpos q) < 2 ^ (b + 1)).
  { rewrite <- pow2_inject by lia. rewrite <- Zlt_Qlt. now rewrite <- Z.add_1_r in Hb2. }
  assert (HD0 : 0 < inject_Z (Zpos q)).
  { replace 0 with (inject_Z 0) by reflexivity. rewrite <- Zlt_Qlt. lia. }
  assert (Hx' : (p # q) * inject_Z (Zpos q) == inject_Z p).
  { rewrite (Qmake_Qdiv p q). field. lra. }
  unfold in_binade, ilog2. cbn [Qnum Qden]. fold a b.
  pose proof (pow2_pos (a - b + 1)) as Hu.
  pose proof (pow2_pos (a - b - 1)) as Hv.
  pose proof (pow2_add (a - b + 1) b) as E1.
  replace (a - b + 1 + b)%Z with (a + 1)%Z in E1 by lia.
  pose proof (pow2_add (a - b - 1) (b + 1)) as E2.
  replace (a - b - 1 + (b + 1))%Z with a in E2 by lia.
  assert (Hup : (p # q) < 2 ^ (a - b + 1)).
  { apply Qnot_le_lt; intros Hc.
    assert (2 ^ (a - b + 1) * 2 ^ b <= (p # q) * inject_Z (Zpos q)) by nra.
    lra. }
  assert (Hlo : 2 ^ (a - b - 1) <= (p # q)).
  { apply Qnot_lt_le; intros Hc.
    assert ((p # q) * inject_Z (Zpos q) < 2 ^ (a - b - 1) * 2 ^ (b + 1)) by nra.
    lra. }
  destruct (Qle_bool (2 ^ (a - b)) (p # q)) eqn:E.
  - apply Qle_bool_iff in E. split; assumption.
  - split; [assumption|].
    replace (a - b - 1 + 1)%Z with (a - b)%Z by lia.
    apply Qnot_le_lt; intros Hc. apply Qle_bool_iff in Hc. congruence.
Qed.

Lemma ilog2_eq x k : in_binade x k -> ilog2 x = k.
Proof.
  intros H. apply (in_binade_unique x); [|assumption].
  apply ilog2_spec. destruct H as [H _]. pose proof (pow2_pos k). lra.
Qed.

Lemma ilog2_comp x y : 0 < x -> x == y -> ilog2 x = ilog2 y.
Proof.
  intros Hx E. symmetry. apply ilog2_eq.
  destruct (ilog2_spec x Hx) as [H1 H2].
  split; rewrite <- E; assumption.
Qed.

(** Scaling by the exponent of the binade brings [x] into [2^52, 2^53). *)
Lemma scaled_range x k :
  in_binade x k ->
  inject_Z (2 ^ (prec - 1)) <= x / 2 ^ (k - (prec - 1)) /\
  x / 2 ^ (k - (prec - 1)) < inject_Z (2 ^ prec).
Proof.
  intros [H1 H2]. unfold prec.
  rewrite !pow2_inject by lia.
  pose proof (pow2_pos (k - (53 - 1))) as He.
  pose proof (pow2_add (53 - 1) (k - (53 - 1))) as E1.
  replace (53 - 1 + (k - (53 - 1)))%Z with k in E1 by lia.
  pose proof (pow2_add 53 (k - (53 - 1))) as E2.
  replace (53 + (k - (53 - 1)))%Z with (k + 1)%Z in E2 by lia.
  split.
  - apply Qle_shift_div_l; [assumption|]. lra.
  - apply Qlt_shift_div_r; [assumption|]. lra.
Qed.

Lemma round_pos_eq x k :
  in_binade x k ->
  round_pos x =
  inject_Z (round_half_even (x / 2 ^ (k - (prec - 1)))) * 2 ^ (k - (prec - 1)).
Proof. intros H. unfold round_pos. now rewrite (ilog2_eq x k H). Qed.

Lemma round_pos_range x k :
  in_binade x k -> 2 ^ k <= round_pos x <= 2 ^ (k + 1).
Proof.
  intros H. rewrite (round_pos_eq x k H).
  destruct (scaled_range x k H) as [S1 S2].
  pose proof (round_half_even_mono _ _ S1) as M1.
  pose proof (round_half_even_mono _ _ (Qlt_le_weak _ _ S2)) as M2.
  rewrite round_half_even_Z in M1, M2.
  rewrite Zle_Qle in M1, M2. unfold prec in *.
  rewrite !pow2_inject in M1, M2 by lia.
  pose proof (pow2_pos (k - (53 - 1))) as He.
  pose proof (pow2_add (53 - 1) (k - (53 - 1))) as E1.
  replace (53 - 1 + (k - (53 - 1)))%Z with k in E1 by lia.
  pose proof (pow2_add 53 (k - (53 - 1))) as E2.
  replace (53 + (k - (53 - 1)))%Z with (k + 1)%Z in E2 by lia.
  split; nra.
Qed.

Lemma round_pos_mono x y : 0 < x -> x <= y -> round_pos x <= round_pos y.
Proof.
  intros Hx Hxy.
  pose proof (ilog2_spec x Hx) as Bx.
  pose proof (ilog2_spec y ltac:(lra)) as By.
  pose proof (in_binade_le _ _ _ _ Bx By Hxy) as Hk.
  destruct (Z.eq_dec (ilog2 x) (ilog2 y)) as [E|NE].
  - unfold round_pos. rewrite <- E.
    pose proof (pow2_pos (ilog2 x - (prec - 1))) as He.
    assert (Hs : x / 2 ^ (ilog2 x - (prec - 1)) <= y / 2 ^ (ilog2 x - (prec - 1))).
    { apply Qle_shift_div_l; [assumption|].
      unfold Qdiv. rewrite <- Qmult_assoc, (Qmult_comm (/ _)), Qmult_inv_r by lra. lra. }
    apply round_half_even_mono in Hs. rewrite Zle_Qle in Hs. nra.
  - pose proof (round_pos_range x _ Bx) as [_ R1].
    pose proof (round_pos_range y _ By) as [R2 _].
    pose proof (pow2_le (ilog2 x + 1) (ilog2 y) ltac:(lia)). lra.
Qed.

Lemma round_pos_pos x : 0 < x -> 0 < round_pos x.
Proof.
  intros Hx. pose proof (round_pos_range x _ (ilog2_spec x Hx)) as [R _].
  pose proof (pow2_pos (ilog2 x)). lra.
Qed.

Lemma round_pos_comp x y : 0 < x -> x == y -> round_pos x == round_pos y.
Proof.
  intros Hx E. unfold round_pos. rewrite <- (ilog2_comp x y Hx E).
  assert (E' : x / 2 ^ (ilog2 x - (prec - 1)) == y / 2 ^ (ilog2 x - (prec - 1))).
  { apply Qdiv_comp; [assumption|reflexivity]. }
  rewrite (round_half_even_comp _ _ E'). reflexivity.
Qed.

Lemma RN_0 : RN 0 = 0.
Proof. reflexivity. Qed.

Lemma RN_pos x : 0 < x -> RN x = round_pos x.
Proof.
  intros H. unfold RN. destruct (Qcompare_spec x 0) as [E|E|E];
    [exfalso; lra|exfalso; lra|reflexivity].
Qed.

Lemma RN_neg x : x < 0 -> RN x = - round_pos (- x).
Proof.
  intros H. unfold RN. destruct (Qcompare_spec x 0) as [E|E|E];
    [exfalso; lra|reflexivity|exfalso; lra].
Qed.

Lemma RN_zero x : x == 0 -> RN x = 0.
Proof.
  intros H. unfold RN. destruct (Qcompare_spec x 0) as [E|E|E];
    [reflexivity|exfalso; lra|exfalso; lra].
Qed.

#[global] Instance RN_comp : Proper (Qeq ==> Qeq) RN.
Proof.
  intros x y E.
  destruct (Q_dec x 0) as [[H|H]|H].
  - rewrite (RN_neg x H), (RN_neg y) by lra.
    apply Qopp_comp. apply round_pos_comp; [lra|]. now rewrite E.
  - rewrite (RN_pos x H), (RN_pos y) by lra. now apply round_pos_comp.
  - rewrite (RN_zero x H), (RN_zero y) by lra. reflexivity.
Qed.

Theorem RN_mono x y : x <= y -> RN x <= RN y.
Proof.
  intros Hxy.
  destruct (Q_dec x 0) as [[Hx|Hx]|Hx]; destruct (Q_dec y 0) as [[Hy|Hy]|Hy];
    try (exfalso; lra).
  - rewrite (RN_neg x Hx), (RN_neg y Hy).
    pose proof (round_pos_mono (- y) (- x) ltac:(lra) ltac:(lra)). lra.
  - rewrite (RN_neg x Hx), (RN_pos y Hy).
    pose proof (round_pos_pos (- x) ltac:(lra)). pose proof (round_pos_pos y Hy). lra.
  - rewrite (RN_neg x Hx), (RN_zero y Hy).
    pose proof (round_pos_pos (- x) ltac:(lra)). lra.
  - rewrite (RN_pos x Hx), (RN_pos y Hy). now apply round_pos_mono.
  - rewrite (RN_zero x Hx), (RN_pos y Hy).
    pose proof (round_pos_pos y Hy). lra.
  - rewrite (RN_zero x Hx), (RN_zero y Hy). lra.
Qed.

Lemma in_binade_Z (z : Z) : (0 < z)%Z -> in_binade (inject_Z z) (Z.log2 z).
Proof.
  intros Hz. pose proof (Z.log2_spec z Hz) as [H1 H2].
  pose proof (Z.log2_nonneg z) as H0. split.
  - rewrite <- pow2_inject by assumption. now rewrite <- Zle_Qle.
  - rewrite <- pow2_inject by lia. rewrite <- Zlt_Qlt.
    now rewrite <- Z.add_1_r in H2.
Qed.

Lemma round_pos_Z (z : Z) :
  (0 < z < 2 ^ prec)%Z -> round_pos (inject_Z z) == inject_Z z.
Proof.
  intros [Hz Hb].
  rewrite (round_pos_eq _ _ (in_binade_Z z Hz)).
  assert (Hk : (Z.log2 z < prec)%Z) by (apply Z.log2_lt_pow2; assumption).
  pose proof (Z.log2_nonneg z) as H0.
  set (e := (Z.log2 z - (prec - 1))%Z).
  assert (He : (e <= 0)%Z) by (unfold e; lia).
  pose proof (pow2_pos e) as Hpe.
  assert (Hinv : 2 ^ (- e) == / 2 ^ e) by apply Qpower_opp.
  assert (Hs : inject_Z z / 2 ^ e == inject_Z (z * 2 ^ (- e))).
  { rewrite inject_Z_mult, pow2_inject by lia. rewrite Hinv. reflexivity. }
  rewrite (round_half_even_comp _ _ Hs), round_half_even_Z.
  rewrite inject_Z_mult, pow2_inject by lia.
  rewrite Hinv. field. lra.
Qed.

(** Integers of magnitude below 2^53 are floats: converting them is exact. *)
Lemma RN_Z (z : Z) : (Z.abs z < 2 ^ prec)%Z -> RN (inject_Z z) == inject_Z z.
Proof.
  intros Hz. destruct (Z.lt_trichotomy z 0) as [L|[->|G]].
  - assert (Hneg : inject_Z z < 0).
    { replace 0 with (inject_Z 0) by reflexivity. now rewrite <- Zlt_Qlt. }
    rewrite (RN_neg _ Hneg).
    assert (E : - inject_Z z == inject_Z (- z)) by (rewrite inject_Z_opp; reflexivity).
    assert (Hpos : 0 < - inject_Z z) by lra.
    rewrite (round_pos_comp _ _ Hpos E), round_pos_Z by lia.
    rewrite inject_Z_opp. ring.
  - reflexivity.
  - assert (Hpos : 0 < inject_Z z).
    { replace 0 with (inject_Z 0) by reflexivity. now rewrite <- Zlt_Qlt. }
    rewrite (RN_pos _ Hpos). apply round_pos_Z. lia.
Qed.

Lemma RN_nonneg x : 0 <= x -> 0 <= RN x.
Proof. intros H. apply RN_mono in H. now rewrite RN_0 in H. Qed.

Lemma RN_le_1 x : x <= 1 -> RN x <= 1.
Proof.
  intros H. apply RN_mono in H.
  assert (E : RN 1 == 1) by (vm_compute; reflexivity). lra.
Qed.

(** Rounding the exact square to the nearest float is one way of being
    next to it. *)
Lemma fmul_square_faithful (x f : Q) :
  representable f ->
  (f <= x * x -> f <= fmul x x) /\ (x * x <= f -> fmul x x <= f).
Proof.
  unfold representable, fmul. intros Hf.
  split; intros H; apply RN_mono in H; rewrite Hf in H; exact H.
Qed.

End PyFloatFacts.

(** A platform whose [pow] is correctly rounded; [compensated] chooses
    the [sum] of CPython 3.12 and later (true) or of the versions before
    (false).  The worked examples below are computed on it.  Their blocks
    are classified alike on every platform: where the variance matters it
    is far from 1000 (see [analyze_block_platforms]), and the
    pseudo-random block is handled for every platform at once. *)
Definition correctly_rounded (compensated : bool) : PyFloat.platform :=
  PyFloat.mk_platform (fun x => PyFloat.fmul x x) compensated
                      PyFloatFacts.fmul_square_faithful.

(** ** [analyze_block]: counting and sampling *)

Lemma len_nonneg {A} (l : list A) : 0 <= len l.
Proof. unfold len; lia. Qed.

Lemma zero_count_bounds data : 0 <= zero_count data <= len data.
Proof.
  unfold zero_count, len.
  pose proof (count_occ_bound Byte.byte_eq_dec Byte.x00 data). lia.
Qed.

Lemma zero_count_all_zero data :
  Forall (fun b => b = Byte.x00) data -> zero_count data = len data.
Proof.
  intros H. unfold zero_count, len. f_equal.
  induction H as [|b t Hb _ IH]; [reflexivity|].
  subst b. rewrite count_occ_cons_eq by reflexivity. simpl. now rewrite IH.
Qed.

Lemma gt_true x y : PyFloat.gt x y = true <-> (y < x)%Q.
Proof.
  unfold PyFloat.gt. rewrite negb_true_iff. split.
  - intros H. apply Qnot_le_lt. intros Hc. apply Qle_bool_iff in Hc. congruence.
  - intros H. destruct (Qle_bool x y) eqn:E; [|reflexivity].
    apply Qle_bool_iff in E. lra.
Qed.

Lemma gt_false x y : PyFloat.gt x y = false <-> (x <= y)%Q.
Proof.
  unfold PyFloat.gt. rewrite negb_false_iff. apply Qle_bool_iff.
Qed.

Lemma lt_true x y : PyFloat.lt x y = true <-> (x < y)%Q.
Proof. apply gt_true. Qed.

Lemma lt_false x y : PyFloat.lt x y = false <-> (y <= x)%Q.
Proof. apply gt_false. Qed.

Lemma py_slice_length data i :
  0 <= i -> i + 2 <= len data -> len (py_slice data i (i + 2)) = 2.
Proof.
  intros H0 H. unfold py_slice, len in *.
  rewrite length_firstn, length_skipn. lia.
Qed.

Lemma sample_at_inside data i :
  0 <= i -> i + 2 <= len data ->
  sample_at data i = [Struct.unpack_h (py_slice data i (i + 2))].
Proof.
  intros H0 H. unfold sample_at.
  destruct (i + 2 <=? len data) eqn:E; [|apply Z.leb_gt in E; lia].
  now rewrite py_slice_length, Z.eqb_refl.
Qed.

Lemma sample_at_outside data i : len data < i + 2 -> sample_at data i = [].
Proof.
  intros H. unfold sample_at.
  destruct (i + 2 <=? len data) eqn:E; [apply Z.leb_le in E; lia|reflexivity].
Qed.

Lemma flat_map_singletons {A B} (f : A -> list B) (g : A -> B) l :
  (forall x, In x l -> f x = [g x]) -> flat_map f l = map g l.
Proof.
  induction l as [|a t IH]; intros H; [reflexivity|].
  simpl. rewrite (H a (or_introl eq_refl)), IH; [reflexivity|].
  intros x Hx. apply H. now right.
Qed.

Lemma flat_map_empties {A B} (f : A -> list B) l :
  (forall x, In x l -> f x = []) -> flat_map f l = [].
Proof.
  induction l as [|a t IH]; intros H; [reflexivity|].
  simpl. rewrite (H a (or_introl eq_refl)), IH; [reflexivity|].
  intros x Hx. apply H. now right.
Qed.

Lemma flat_map_over_map {A B C} (f : B -> list C) (g : A -> B) l :
  flat_map f (map g l) = flat_map (fun x => f (g x)) l.
Proof.
  induction l as [|a t IH]; [reflexivity|]. simpl. now rewrite IH.
Qed.

Lemma samples_eq data :
  samples data =
  map (fun k => Struct.unpack_h
                  (py_slice data (4 * Z.of_nat k) (4 * Z.of_nat k + 2)))
      (seq 0 (Z.to_nat (sample_count data))).
Proof.
  unfold samples, py_range, sample_count.
  pose proof (len_nonneg data) as Hl.
  set (stop := Z.min (len data) 40000).
  replace (stop - 0 + 4 - 1) with (stop + 3) by lia.
  assert (Hstop : 0 <= stop <= len data) by (unfold stop; lia).
  set (m := Z.to_nat ((stop + 2) / 4)).
  set (n := Z.to_nat ((stop + 3) / 4)).
  assert (Hmn : (m <= n)%nat).
  { unfold m, n. apply Z2Nat.inj_le; try (apply Z.div_pos; lia).
    apply Z.div_le_mono; lia. }
  replace n with (m + (n - m))%nat by lia.
  rewrite seq_app, map_app, flat_map_app.
  rewrite !flat_map_over_map.
  rewrite (flat_map_empties _ (seq (0 + m) (n - m))).
  - rewrite app_nil_r. apply flat_map_singletons.
    intros k Hk. apply in_seq in Hk.
    replace (0 + 4 * Z.of_nat k) with (4 * Z.of_nat k) by lia.
    apply sample_at_inside; [lia|].
    assert (Z.of_nat k < (stop + 2) / 4) by (unfold m in Hk; lia).
    assert (4 * ((stop + 2) / 4) <= stop + 2) by (apply Z.mul_div_le; lia).
    lia.
  - intros k Hk. apply in_seq in Hk. apply sample_at_outside.
    assert (Hk1 : (stop + 2) / 4 <= Z.of_nat k) by (unfold m in Hk; lia).
    assert (Hk2 : Z.of_nat k < (stop + 3) / 4) by (unfold n in Hk; lia).
    assert (H1 : stop + 2 < 4 * ((stop + 2) / 4) + 4).
    { pose proof (Z.mod_pos_bound (stop + 2) 4 ltac:(lia)).
      pose proof (Z.div_mod (stop + 2) 4 ltac:(lia)). lia. }
    assert (H2 : 4 * ((stop + 3) / 4) <= stop + 3) by (apply Z.mul_div_le; lia).
    (* between the two quotients there is room only when the loop stops at
       the end of the data, one byte short of a sample *)
    assert (stop = len data) by (unfold stop in *; lia).
    lia.
Qed.

Lemma samples_length data : len (samples data) = sample_count data.
Proof.
  rewrite samples_eq. unfold len. rewrite length_map, length_seq.
  apply Z2Nat.id. unfold sample_count. apply Z.div_pos; [|lia].
  pose proof (len_nonneg data). lia.
Qed.

Lemma sample_count_max data : sample_count data <= 10000.
Proof.
  unfold sample_count.
  assert ((Z.min (len data) 40000 + 2) / 4 < 10001)
    by (apply Z.div_lt_upper_bound; lia).
  lia.
Qed.

Lemma sample_count_min data : 1000 <= len data -> 250 <= sample_count data.
Proof.
  intros H. unfold sample_count.
  apply Z.div_le_lower_bound; lia.
Qed.

Lemma unpack_h_range b :
  length b = 2%nat -> - 2 ^ 15 <= Struct.unpack_h b < 2 ^ 15.
Proof.
  intros H. unfold Struct.unpack_h.
  pose proof (le_combine_bound b) as Hb. rewrite H in Hb.
  change (2 ^ (8 * Z.of_nat 2)) with (2 ^ 16) in Hb.
  destruct (le_combine b <? 2 ^ 15) eqn:E.
  - apply Z.ltb_lt in E. lia.
  - apply Z.ltb_ge in E. lia.
Qed.

Lemma samples_range data :
  Forall (fun s => - 2 ^ 15 <= s < 2 ^ 15) (samples data).
Proof.
  apply Forall_forall. intros s Hs. unfold samples in Hs.
  apply in_flat_map in Hs. destruct Hs as [i [_ Hi]].
  unfold sample_at in Hi.
  destruct (i + 2 <=? len data); [|destruct Hi].
  destruct (len (py_slice data i (i + 2)) =? 2) eqn:E; [|destruct Hi].
  destruct Hi as [<-|[]]. apply unpack_h_range.
  apply Z.eqb_eq in E. unfold len in E. lia.
Qed.

(** *** Sums and maxima of integers *)

Lemma fold_max_ge l : forall acc, acc <= fold_left Z.max l acc.
Proof.
  induction l as [|x t IH]; intros acc; simpl; [lia|].
  specialize (IH (Z.max acc x)). lia.
Qed.

Lemma fold_max_In l : forall acc x, In x l -> x <= fold_left Z.max l acc.
Proof.
  induction l as [|y t IH]; intros acc x Hx; simpl; [destruct Hx|].
  destruct Hx as [->|Hx].
  - pose proof (fold_max_ge t (Z.max acc x)). lia.
  - now apply IH.
Qed.

Lemma fold_max_le l bound :
  forall acc, acc <= bound -> Forall (fun x => x <= bound) l ->
  fold_left Z.max l acc <= bound.
Proof.
  induction l as [|y t IH]; intros acc Hacc H; simpl; [assumption|].
  inversion H; subst. apply IH; [lia|assumption].
Qed.

Lemma max_val_nonneg l : 0 <= max_val l.
Proof. apply fold_max_ge. Qed.

Lemma max_val_In l s : In s l -> Z.abs s <= max_val l.
Proof. intros H. apply fold_max_In. now apply in_map. Qed.

Lemma max_val_zero l : max_val l = 0 -> Forall (fun s => s = 0) l.
Proof.
  intros H. apply Forall_forall. intros s Hs.
  pose proof (max_val_In l s Hs). lia.
Qed.

Lemma max_val_le l bound :
  0 <= bound -> Forall (fun s => Z.abs s <= bound) l -> max_val l <= bound.
Proof.
  intros Hb H. apply fold_max_le; [assumption|].
  apply Forall_forall. intros x Hx. apply in_map_iff in Hx.
  destruct Hx as [s [<- Hs]]. rewrite Forall_forall in H. now apply H.
Qed.

Lemma max_val_samples data : max_val (samples data) <= 2 ^ 15.
Proof.
  apply max_val_le; [lia|].
  eapply Forall_impl; [|apply samples_range]. simpl. intros s Hs. lia.
Qed.

Lemma sum_int_acc l : forall acc, fold_left Z.add l acc = acc + sum_int l.
Proof.
  unfold sum_int. induction l as [|x t IH]; intros acc; simpl; [lia|].
  rewrite IH, (IH x). lia.
Qed.

Lemma sum_int_cons x l : sum_int (x :: l) = x + sum_int l.
Proof. unfold sum_int at 1. simpl. apply sum_int_acc. Qed.

Lemma sum_int_bounds l lo hi :
  Forall (fun x => lo <= x <= hi) l ->
  lo * len l <= sum_int l <= hi * len l.
Proof.
  unfold len. induction 1 as [|x t Hx _ IH].
  - simpl. unfold sum_int; simpl. lia.
  - rewrite sum_int_cons. simpl length. lia.
Qed.

Lemma sum_int_zeros l : Forall (fun s => s = 0) l -> sum_int l = 0.
Proof.
  induction 1 as [|x t Hx _ IH]; [reflexivity|].
  rewrite sum_int_cons. lia.
Qed.

Lemma diffs_bound l :
  Forall (fun d => 0 <= d <= 2 * max_val l) (diffs l).
Proof.
  assert (H : forall t, (forall s, In s t -> Z.abs s <= max_val l) ->
                        Forall (fun d => 0 <= d <= 2 * max_val l) (diffs t)).
  { induction t as [|a t IH]; intros Hin; [constructor|].
    destruct t as [|b t']; [constructor|].
    change (diffs (a :: b :: t')) with (Z.abs (b - a) :: diffs (b :: t')).
    constructor.
    - pose proof (Hin a (or_introl eq_refl)).
      pose proof (Hin b (or_intror (or_introl eq_refl))). lia.
    - apply IH. intros s Hs. apply Hin. now right. }
  apply H. intros s Hs. now apply max_val_In.
Qed.

(** *** The float quantities *)

Import PyFloat PyFloatFacts.

Lemma inject_Z_pos z : 0 < z -> (0 < inject_Z z)%Q.
Proof. intros H. replace 0%Q with (inject_Z 0) by reflexivity. now rewrite <- Zlt_Qlt. Qed.

Lemma inject_Z_nonneg z : 0 <= z -> (0 <= inject_Z z)%Q.
Proof. intros H. replace 0%Q with (inject_Z 0) by reflexivity. now rewrite <- Zle_Qle. Qed.

(** An integer quotient at most [a / b] rounds to at most the float
    nearest to [a / b]. *)
Lemma truediv_int_le z n a b :
  0 < n -> 0 < b -> z * b <= a * n ->
  (truediv_int z n <= RN (inject_Z a / inject_Z b))%Q.
Proof.
  intros Hn Hb H. unfold truediv_int. apply RN_mono.
  pose proof (inject_Z_pos n Hn). pose proof (inject_Z_pos b Hb).
  apply Qle_shift_div_l; [assumption|].
  unfold Qdiv. rewrite <- Qmult_assoc, (Qmult_comm (/ _)), Qmult_assoc.
  apply Qle_shift_div_r; [assumption|].
  rewrite <- !inject_Z_mult, <- Zle_Qle. lia.
Qed.

Lemma truediv_int_ge z n a b :
  0 < n -> 0 < b -> a * n <= z * b ->
  (RN (inject_Z a / inject_Z b) <= truediv_int z n)%Q.
Proof.
  intros Hn Hb H. unfold truediv_int. apply RN_mono.
  pose proof (inject_Z_pos n Hn). pose proof (inject_Z_pos b Hb).
  apply Qle_shift_div_r; [assumption|].
  unfold Qdiv. rewrite <- Qmult_assoc, (Qmult_comm (/ _)), Qmult_assoc.
  apply Qle_shift_div_l; [assumption|].
  rewrite <- !inject_Z_mult, <- Zle_Qle. lia.
Qed.

Lemma RN_1 : (RN 1 == 1)%Q.
Proof. vm_compute. reflexivity. Qed.

Lemma zero_ratio_range data : 0 < len data -> (0 <= zero_ratio data <= 1)%Q.
Proof.
  intros Hl. pose proof (zero_count_bounds data) as [H0 H1]. unfold zero_ratio. split.
  - pose proof (truediv_int_ge (zero_count data) (len data) 0 1 Hl ltac:(lia) ltac:(lia)) as H.
    assert (E : (inject_Z 0 / inject_Z 1 == 0)%Q) by reflexivity.
    rewrite (RN_zero _ E) in H. exact H.
  - pose proof (truediv_int_le (zero_count data) (len data) 1 1 Hl ltac:(lia) ltac:(lia)) as H.
    assert (E : (inject_Z 1 / inject_Z 1 == 1)%Q) by reflexivity.
    rewrite (RN_comp _ _ E), RN_1 in H. exact H.
Qed.

(** Ratios at most 0.99, or at most 0.90, do not pass the tests
    [zero_ratio > 0.99] and [zero_ratio > 0.90]. *)
Lemma zero_ratio_not_above_99 data :
  0 < len data -> 100 * zero_count data <= 99 * len data ->
  gt (zero_ratio data) (lit (99 # 100)) = false.
Proof.
  intros Hl H. apply gt_false. unfold lit, zero_ratio.
  assert (E : (99 # 100 == inject_Z 99 / inject_Z 100)%Q) by reflexivity.
  rewrite (RN_comp _ _ E). apply truediv_int_le; lia.
Qed.

Lemma zero_ratio_not_above_90 data :
  0 < len data -> 10 * zero_count data <= 9 * len data ->
  gt (zero_ratio data) (lit (90 # 100)) = false.
Proof.
  intros Hl H. apply gt_false. unfold lit, zero_ratio.
  assert (E : (90 # 100 == inject_Z 9 / inject_Z 10)%Q) by reflexivity.
  rewrite (RN_comp _ _ E). apply truediv_int_le; lia.
Qed.

(** A ratio of byte counts strictly above 9/10 is at least
    9/10 + 1/(10 n); up to n = 2^50 that is far enough from the float 0.90
    for the rounded ratio to lie strictly above it. *)
Lemma zero_ratio_above_90 data :
  0 < len data <= 2 ^ 50 -> 9 * len data < 10 * zero_count data ->
  gt (zero_ratio data) (lit (90 # 100)) = true.
Proof.
  intros [Hl Hmax] H. apply gt_true. unfold zero_ratio, truediv_int.
  set (t := (10133099161583617 # 11258999068426240)%Q).
  assert (Ht : (lit (90 # 100) < RN t)%Q) by (vm_compute; reflexivity).
  apply (Qlt_le_trans _ _ _ Ht). apply RN_mono.
  pose proof (inject_Z_pos _ Hl) as HL.
  apply Qle_shift_div_l; [assumption|].
  assert (H1 : (inject_Z (9 * len data + 1) <= inject_Z (10 * zero_count data))%Q)
    by (rewrite <- Zle_Qle; lia).
  assert (H2 : (inject_Z (len data) <= inject_Z (2 ^ 50))%Q)
    by (rewrite <- Zle_Qle; lia).
  rewrite inject_Z_plus, !inject_Z_mult in H1.
  unfold t.
  change (inject_Z (2 ^ 50)) with (1125899906842624 # 1)%Q in H2.
  change (inject_Z 9) with (9 # 1)%Q in H1. change (inject_Z 10) with (10 # 1)%Q in H1.
  change (inject_Z 1) with (1 # 1)%Q in H1.
  lra.
Qed.

(** Beyond that size the bound is needed: of 10^17 bytes, 9 * 10^16 + 1
    zero bytes are more than nine tenths, yet the quotient rounds to the
    float 0.90 itself and the test [zero_ratio > 0.90] fails. *)
Lemma ratio_above_90_can_round_to_it :
  9 * 10 ^ 17 < 10 * (9 * 10 ^ 16 + 1) /\
  gt (truediv_int (9 * 10 ^ 16 + 1) (10 ^ 17)) (lit (90 # 100)) = false.
Proof. split; [lia|]. vm_compute. reflexivity. Qed.


Lemma Qle_div_mult a b c : (0 < c -> b / c <= a -> b <= a * c)%Q.
Proof.
  intros Hc H. assert (E : (b / c * c == b)%Q) by (field; lra).
  rewrite <- E. apply Qmult_le_compat_r; [assumption|lra].
Qed.

Lemma zero_ratio_all_zero data :
  0 < len data -> Forall (fun b => b = Byte.x00) data ->
  gt (zero_ratio data) (lit (99 # 100)) = true.
Proof.
  intros Hl H. apply gt_true. unfold zero_ratio.
  rewrite (zero_count_all_zero data H). unfold truediv_int.
  assert (E : (inject_Z (len data) / inject_Z (len data) == 1)%Q).
  { pose proof (inject_Z_pos _ Hl). field. lra. }
  rewrite (RN_comp _ _ E), RN_1. vm_compute. reflexivity.
Qed.

Lemma analyze_block_all_zero (pf : PyFloat.platform) data :
  1000 <= len data -> Forall (fun b => b = Byte.x00) data ->
  analyze_block pf data = (Empty, 0%Q).
Proof.
  intros Hl H. unfold analyze_block.
  destruct (len data <? 1000) eqn:E; [reflexivity|].
  now rewrite zero_ratio_all_zero by (assumption || lia).
Qed.

(** C3. A block of the configured block size (1 MiB) whose bytes are all
    zero is classified as empty, with score 0. *)
Theorem all_zero_block_is_empty (pf : PyFloat.platform) (data : list byte) :
  len data = BLOCK_SIZE -> Forall (fun b => b = Byte.x00) data ->
  analyze_block pf data = (Empty, 0%Q).
Proof.
  intros Hl H. apply analyze_block_all_zero; [|assumption].
  rewrite Hl. unfold BLOCK_SIZE. lia.
Qed.

Lemma all_zero_block_is_empty_witness :
  analyze_block (correctly_rounded false) (repeat Byte.x00 (Z.to_nat BLOCK_SIZE)) = (Empty, 0%Q).
Proof.
  apply all_zero_block_is_empty.
  - unfold len. rewrite repeat_length. apply Z2Nat.id. unfold BLOCK_SIZE. lia.
  - apply Forall_forall. intros b Hb. now apply repeat_spec in Hb.
Defined.



(** *** Variance and smoothness *)

Lemma representable_0 : representable 0.
Proof. unfold representable. reflexivity. Qed.

(** The square of zero is zero, whatever the C library. *)
Lemma fpow2_zero (pf : PyFloat.platform) (x : Q) :
  (x == 0)%Q -> (fpow2 pf x == 0)%Q.
Proof.
  intros Hx. destruct (fpow2_faithful pf x 0 representable_0) as [Hlo Hhi].
  assert (E : (x * x == 0)%Q) by (rewrite Hx; ring).
  apply Qle_antisym; [apply Hhi|apply Hlo]; rewrite E; apply Qle_refl.
Qed.

Lemma fadd_zero (x y : Q) : (x == 0)%Q -> (y == 0)%Q -> fadd x y = 0%Q.
Proof. intros Hx Hy. unfold fadd. apply RN_zero. rewrite Hx, Hy. ring. Qed.

Lemma fsub_zero (x y : Q) : (x == 0)%Q -> (y == 0)%Q -> fsub x y = 0%Q.
Proof. intros Hx Hy. unfold fsub. apply RN_zero. rewrite Hx, Hy. ring. Qed.

Lemma fsum_plain_zeros (l : list Q) :
  Forall (fun x => x == 0)%Q l -> fsum_plain l = 0%Q.
Proof.
  unfold fsum_plain. induction 1 as [|x t Hx _ IH]; [reflexivity|].
  cbn [fold_left]. rewrite (fadd_zero 0 x (Qeq_refl 0) Hx). exact IH.
Qed.

Lemma neumaier_zeros (l : list Q) :
  Forall (fun x => x == 0)%Q l -> fold_left neumaier_step l (0%Q, 0%Q) = (0%Q, 0%Q).
Proof.
  induction 1 as [|x t Hx _ IH]; [reflexivity|].
  cbn [fold_left]. unfold neumaier_step at 2.
  rewrite (fadd_zero 0 x (Qeq_refl 0) Hx).
  rewrite (fsub_zero 0 0 (Qeq_refl 0) (Qeq_refl 0)).
  rewrite (fsub_zero x 0 Hx (Qeq_refl 0)).
  rewrite (fadd_zero 0 x (Qeq_refl 0) Hx).
  rewrite (fadd_zero 0 0 (Qeq_refl 0) (Qeq_refl 0)).
  destruct (Qle_bool (Qabs x) (Qabs 0)); exact IH.
Qed.

Lemma fsum_compensated_zeros (l : list Q) :
  Forall (fun x => x == 0)%Q l -> fsum_compensated l = 0%Q.
Proof.
  intros H. destruct H as [|x t Hx Ht]; [reflexivity|].
  unfold fsum_compensated. rewrite (fadd_zero 0 x (Qeq_refl 0) Hx).
  rewrite (neumaier_zeros t Ht). reflexivity.
Qed.

(** Adding zeros gives zero, with either [sum]. *)
Lemma fsum_zeros (pf : PyFloat.platform) (l : list Q) :
  Forall (fun x => x == 0)%Q l -> fsum pf l = 0%Q.
Proof.
  intros H. unfold fsum. destruct (compensated_sum pf);
    [now apply fsum_compensated_zeros|now apply fsum_plain_zeros].
Qed.

(** Samples that are all zero have variance zero. *)
Lemma variance_zeros (pf : PyFloat.platform) (l : list Z) :
  Forall (fun s => s = 0) l -> variance pf l = 0%Q.
Proof.
  intros H. unfold variance, average.
  rewrite (sum_int_zeros l H).
  assert (E0 : (inject_Z 0 / inject_Z (len l) == 0)%Q) by (unfold Qdiv; ring).
  unfold truediv_int. rewrite (RN_zero _ E0).
  rewrite fsum_zeros.
  - unfold fdiv. apply RN_zero. unfold Qdiv; ring.
  - apply Forall_forall. intros x Hx. apply in_map_iff in Hx.
    destruct Hx as [s [<- Hs]]. rewrite Forall_forall in H.
    rewrite (H s Hs). apply fpow2_zero. reflexivity.
Qed.

Lemma variance_max_val_zero (pf : PyFloat.platform)
  (l : list Z) : max_val l = 0 -> variance pf l = 0%Q.
Proof. intros H. apply variance_zeros. now apply max_val_zero. Qed.

Lemma avg_diff_range (l : list Z) :
  max_val l < 2 ^ 52 ->
  (0 <= avg_diff l <= inject_Z (2 * max_val l))%Q.
Proof.
  intros Hmax. pose proof (max_val_nonneg l) as H0.
  pose proof (diffs_bound l) as Hd. unfold avg_diff.
  destruct (diffs l) as [|d ds] eqn:E.
  - split; [lra|]. now apply inject_Z_nonneg; lia.
  - pose proof (sum_int_bounds _ _ _ Hd) as [S1 S2].
    assert (Hlen : 0 < len (d :: ds)) by (unfold len; simpl; lia).
    split.
    + pose proof (truediv_int_ge (sum_int (d :: ds)) (len (d :: ds)) 0 1
                    Hlen ltac:(lia) ltac:(lia)) as H.
      assert (E0 : (inject_Z 0 / inject_Z 1 == 0)%Q) by reflexivity.
      rewrite (RN_zero _ E0) in H. exact H.
    + pose proof (truediv_int_le (sum_int (d :: ds)) (len (d :: ds))
                    (2 * max_val l) 1 Hlen ltac:(lia) ltac:(lia)) as H.
      assert (E1 : (inject_Z (2 * max_val l) / inject_Z 1 == inject_Z (2 * max_val l))%Q)
        by (unfold Qdiv; change (/ inject_Z 1)%Q with 1%Q; ring).
      rewrite (RN_comp _ _ E1), RN_Z in H; [exact H|].
      unfold prec. lia.
Qed.

Lemma smoothness_range (l : list Z) :
  max_val l < 2 ^ 52 -> (0 <= smoothness l <= 1)%Q.
Proof.
  intros Hmax. unfold smoothness.
  destruct (0 <? max_val l) eqn:E; [|split; lra].
  apply Z.ltb_lt in E.
  pose proof (avg_diff_range l Hmax) as [A0 A1].
  assert (EX : (of_int (max_val l * 2) == inject_Z (2 * max_val l))%Q).
  { unfold of_int. rewrite RN_Z by (unfold prec; lia).
    now replace (max_val l * 2) with (2 * max_val l) by lia. }
  pose proof (inject_Z_pos (2 * max_val l) ltac:(lia)) as HX.
  assert (R0 : (0 <= avg_diff l / of_int (max_val l * 2))%Q).
  { rewrite EX. apply Qle_shift_div_l; [assumption|]. lra. }
  assert (R1 : (avg_diff l / of_int (max_val l * 2) <= 1)%Q).
  { rewrite EX. apply Qle_shift_div_r; [assumption|]. lra. }
  unfold fsub, fdiv.
  pose proof (RN_nonneg _ R0) as F0. pose proof (RN_le_1 _ R1) as F1.
  split; [apply RN_nonneg|apply RN_le_1]; lra.
Qed.

Lemma smoothness_samples_range data :
  (0 <= smoothness (samples data) <= 1)%Q.
Proof.
  apply smoothness_range. pose proof (max_val_samples data). lia.
Qed.

(** *** The classification past the zero-ratio tests *)

Lemma lit_03_below : (lit (3 # 10) <= 3 # 10)%Q.
Proof. vm_compute. discriminate. Qed.


Lemma lit_02_03 : (lit (2 # 10) <= lit (3 # 10))%Q.
Proof. vm_compute. discriminate. Qed.

Lemma ratio_at_most_90 data :
  0 < len data ->
  (inject_Z (zero_count data) / inject_Z (len data) <= 9 # 10)%Q ->
  10 * zero_count data <= 9 * len data.
Proof.
  intros Hl H. pose proof (inject_Z_pos (len data) Hl) as HL.
  apply Qle_div_mult in H; [|assumption].
  assert (H' : (inject_Z (10 * zero_count data) <= inject_Z (9 * len data))%Q).
  { rewrite !inject_Z_mult. change (inject_Z 9) with (9 # 1)%Q.
    change (inject_Z 10) with (10 # 1)%Q. lra. }
  now rewrite <- Zle_Qle in H'.
Qed.

(** Past the tests on the length and on the zero ratio, a block of at
    least 1000 bytes always has its 100 samples; what is left is the
    decision on [max_val], [variance] and [smoothness]. *)
Lemma analyze_block_statistics (pf : PyFloat.platform) data :
  1000 <= len data ->
  10 * zero_count data <= 9 * len data ->
  analyze_block pf data =
  let samples := samples data in
  if max_val samples =? 0 then (Silence, 0%Q) else
  if lt (variance pf samples) (inject_Z 1000) then (Silence, smoothness samples) else
  if gt (smoothness samples) (lit (3 # 10))
     && gt (variance pf samples) (inject_Z 10000) then (Audio, smoothness samples) else
  if lt (smoothness samples) (lit (2 # 10)) then (Noise, smoothness samples) else
  (Audio, smoothness samples).
Proof.
  intros Hl Hr. unfold analyze_block.
  destruct (len data <? 1000) eqn:E; [apply Z.ltb_lt in E; lia|].
  rewrite zero_ratio_not_above_99 by lia.
  rewrite zero_ratio_not_above_90 by lia.
  pose proof (sample_count_min data Hl) as Hs. rewrite <- samples_length in Hs.
  destruct (len (samples data) <? 100) eqn:E2; [apply Z.ltb_lt in E2; lia|].
  reflexivity.
Qed.

(** C5. A block of at least 1000 bytes with zero ratio at most 0.90 whose
    samples have smoothness above 0.3 and variance above 10000 is
    classified as audio; such a block always yields its 100 samples. *)
Theorem smooth_block_is_audio (pf : PyFloat.platform) (data : list byte) :
  1000 <= len data ->
  (inject_Z (zero_count data) / inject_Z (len data) <= 9 # 10)%Q ->
  (3 # 10 < smoothness (samples data))%Q ->
  (inject_Z 10000 < variance pf (samples data))%Q ->
  100 <= len (samples data) /\
  analyze_block pf data = (Audio, smoothness (samples data)).
Proof.
  intros Hl Hr Hs Hv. split.
  { rewrite samples_length. pose proof (sample_count_min data Hl). lia. }
  pose proof (ratio_at_most_90 data ltac:(lia) Hr) as Hr'.
  rewrite analyze_block_statistics by assumption.
  cbv zeta.
  destruct (max_val (samples data) =? 0) eqn:E.
  { apply Z.eqb_eq in E. rewrite (variance_max_val_zero pf _ E) in Hv.
    exfalso. revert Hv. vm_compute. discriminate. }
  assert (H1 : lt (variance pf (samples data)) (inject_Z 1000) = false).
  { apply lt_false. change (inject_Z 1000) with (1000 # 1)%Q.
    change (inject_Z 10000) with (10000 # 1)%Q in Hv. lra. }
  assert (H2 : gt (smoothness (samples data)) (lit (3 # 10)) = true).
  { apply gt_true. pose proof lit_03_below. lra. }
  assert (H3 : gt (variance pf (samples data)) (inject_Z 10000) = true).
  { now apply gt_true. }
  now rewrite H1, H2, H3.
Qed.

(** *** Rounding between integers *)

Lemma RN_ge_Z (z : Z) (x : Q) :
  Z.abs z < 2 ^ 53 -> (inject_Z z <= x)%Q -> (inject_Z z <= RN x)%Q.
Proof.
  intros Hz H. apply RN_mono in H. rewrite (RN_Z z) in H by exact Hz. exact H.
Qed.

Lemma RN_le_Z (z : Z) (x : Q) :
  Z.abs z < 2 ^ 53 -> (x <= inject_Z z)%Q -> (RN x <= inject_Z z)%Q.
Proof.
  intros Hz H. apply RN_mono in H. rewrite (RN_Z z) in H by exact Hz. exact H.
Qed.

Lemma Qfloor_between (x : Q) (a b : Z) :
  (inject_Z a <= x <= inject_Z b)%Q -> a <= Qfloor x <= b.
Proof.
  intros [Ha Hb]. apply Qfloor_resp_le in Ha, Hb. rewrite Qfloor_Z in Ha, Hb. lia.
Qed.

Lemma Qceiling_between (x : Q) (a b : Z) :
  (inject_Z a <= x <= inject_Z b)%Q -> a <= Qceiling x <= b.
Proof.
  intros [Ha Hb]. apply Qceiling_resp_le in Ha, Hb.
  rewrite Qceiling_Z in Ha, Hb. lia.
Qed.

(** Rounding a number of magnitude at most 2^52 moves it by less than 1. *)
Lemma RN_near (x : Q) :
  (- inject_Z (2 ^ 52) <= x <= inject_Z (2 ^ 52))%Q ->
  (x - 1 < RN x < x + 1)%Q.
Proof.
  intros [Hlo Hhi].
  assert (Hb : (inject_Z (- 2 ^ 52) <= x <= inject_Z (2 ^ 52))%Q).
  { rewrite inject_Z_opp. split; assumption. }
  pose proof (Qfloor_between x _ _ Hb) as Hf.
  pose proof (Qceiling_between x _ _ Hb) as Hc.
  pose proof (Qfloor_le x) as F1. pose proof (Qlt_floor x) as F2.
  pose proof (Qle_ceiling x) as C1. pose proof (Qceiling_lt x) as C2.
  rewrite inject_Z_plus in F2. unfold Z.sub in C2. rewrite inject_Z_plus in C2.
  change (inject_Z 1) with 1%Q in F2. change (inject_Z (- (1))) with (-1 # 1)%Q in C2.
  assert (P : 2 ^ 52 < 2 ^ 53) by reflexivity.
  assert (A1 : Z.abs (Qfloor x) < 2 ^ 53) by (clear - Hf P; lia).
  assert (A2 : Z.abs (Qceiling x) < 2 ^ 53) by (clear - Hc P; lia).
  pose proof (RN_ge_Z (Qfloor x) x A1 F1).
  pose proof (RN_le_Z (Qceiling x) x A2 C1).
  split; lra.
Qed.

(** *** Sums of floats between sums of integers *)

Ltac push_inject :=
  unfold Z.sub in *;
  repeat (rewrite inject_Z_plus in * || rewrite inject_Z_opp in *
          || rewrite inject_Z_mult in * );
  change (inject_Z 0) with 0%Q in *;
  change (inject_Z 1) with 1%Q in *;
  change (inject_Z 2) with (2 # 1)%Q in *.

Lemma between_order b x : between b x -> 0 <= fst b <= snd b.
Proof.
  intros [H0 [H1 H2]]. split; [assumption|].
  rewrite Zle_Qle. lra.
Qed.

Lemma sum_fst_snd bs xs :
  Forall2 between bs xs ->
  0 <= sum_int (map fst bs) <= sum_int (map snd bs).
Proof.
  induction 1 as [|b x bs xs Hb _ IH]; [unfold sum_int; simpl; lia|].
  cbn [map]. rewrite !sum_int_cons. apply between_order in Hb. lia.
Qed.

Lemma fadd_between (a A : Z) (b : Z * Z) (acc x : Q) :
  0 <= a -> (inject_Z a <= acc <= inject_Z A)%Q -> between b x ->
  A + snd b < 2 ^ 53 ->
  (inject_Z (a + fst b) <= fadd acc x <= inject_Z (A + snd b))%Q.
Proof.
  intros Ha [A1 A2] Hb Hmax. pose proof (between_order b x Hb) as Ho.
  destruct Hb as [_ [B1 B2]].
  assert (HaA : a <= A) by (rewrite Zle_Qle; lra).
  unfold fadd. split.
  - apply RN_ge_Z; [lia|]. rewrite inject_Z_plus. lra.
  - apply RN_le_Z; [lia|]. rewrite inject_Z_plus. lra.
Qed.

Lemma fold_fadd_between bs xs :
  Forall2 between bs xs ->
  forall (acc : Q) (a A : Z),
  0 <= a -> (inject_Z a <= acc <= inject_Z A)%Q ->
  A + sum_int (map snd bs) < 2 ^ 53 ->
  (inject_Z (a + sum_int (map fst bs)) <= fold_left fadd xs acc
   <= inject_Z (A + sum_int (map snd bs)))%Q.
Proof.
  induction 1 as [|b x bs xs Hb Hrest IH]; intros acc a A Ha Hacc Hmax.
  - cbn [map fold_left]. unfold sum_int. cbn [fold_left].
    now rewrite !Z.add_0_r.
  - cbn [map fold_left]. cbn [map] in Hmax. rewrite !sum_int_cons in *.
    pose proof (sum_fst_snd bs xs Hrest) as Hs.
    pose proof (between_order b x Hb) as Ho.
    rewrite !Z.add_assoc. apply IH.
    + lia.
    + apply fadd_between; [assumption|assumption|assumption|lia].
    + lia.
Qed.

(** The term that Neumaier's summation adds to the correction is what the
    addition rounded away: it is small. *)
Lemma correction_term (p q t : Q) :
  (0 <= p)%Q -> (0 <= q)%Q -> (p + q <= inject_Z (2 ^ 52) - 1)%Q ->
  (p + q - 1 < t < p + q + 1)%Q ->
  (- (2) <= fadd (fsub p t) q <= 2)%Q.
Proof.
  intros Hp Hq Hmax [T1 T2]. unfold fadd, fsub.
  assert (Hu : (- inject_Z (2 ^ 52) <= p - t <= inject_Z (2 ^ 52))%Q)
    by (split; lra).
  destruct (RN_near (p - t) Hu) as [U1 U2].
  split.
  - apply (RN_ge_Z (-2)); [reflexivity|]. change (inject_Z (-2)) with (-2 # 1)%Q. lra.
  - apply (RN_le_Z 2); [reflexivity|]. change (inject_Z 2) with (2 # 1)%Q. lra.
Qed.

Lemma neumaier_step_between (a A k : Z) (b : Z * Z) (f c x : Q) :
  0 <= a -> (inject_Z a <= f <= inject_Z A)%Q ->
  0 <= k < 2 ^ 50 -> (- inject_Z (2 * k) <= c <= inject_Z (2 * k))%Q ->
  between b x -> A + snd b < 2 ^ 52 ->
  (inject_Z (a + fst b) <= fst (neumaier_step (f, c) x)
   <= inject_Z (A + snd b))%Q /\
  (- inject_Z (2 * (k + 1)) <= snd (neumaier_step (f, c) x)
   <= inject_Z (2 * (k + 1)))%Q.
Proof.
  intros Ha Hf Hk Hc Hb Hmax.
  assert (P : 2 ^ 52 < 2 ^ 53) by reflexivity.
  assert (P50 : 2 * 2 ^ 50 < 2 ^ 53) by reflexivity.
  pose proof (fadd_between a A b f x Ha Hf Hb ltac:(lia)) as Ht.
  pose proof (between_order b x Hb) as Ho.
  destruct Hb as [_ [B1 B2]]. destruct Hf as [F1 F2].
  assert (Ha' : (0 <= inject_Z a)%Q) by (now apply inject_Z_nonneg).
  assert (Hb' : (0 <= inject_Z (fst b))%Q) by (now apply inject_Z_nonneg).
  assert (Hsum : (f + x <= inject_Z (2 ^ 52) - 1)%Q).
  { assert (H : (inject_Z (A + snd b) <= inject_Z (2 ^ 52 - 1))%Q)
      by (rewrite <- Zle_Qle; lia).
    rewrite inject_Z_plus in H. unfold Z.sub in H. rewrite inject_Z_plus in H.
    change (inject_Z (- (1))) with (-1 # 1)%Q in H. lra. }
  assert (Hnear : (f + x - 1 < fadd f x < f + x + 1)%Q).
  { unfold fadd. apply RN_near. split; lra. }
  unfold neumaier_step. cbv zeta.
  set (t := fadd f x) in *.
  assert (Hd : forall d, (- (2) <= d <= 2)%Q ->
    (- inject_Z (2 * (k + 1)) <= fadd c d <= inject_Z (2 * (k + 1)))%Q).
  { intros d [D1 D2]. destruct Hc as [C1 C2]. unfold fadd.
    rewrite inject_Z_mult in C1, C2.
    change (inject_Z 2) with (2 # 1)%Q in C1, C2.
    split.
    - rewrite <- inject_Z_opp. apply RN_ge_Z; [lia|].
      rewrite inject_Z_opp, inject_Z_mult, inject_Z_plus.
      change (inject_Z 2) with (2 # 1)%Q. change (inject_Z 1) with 1%Q. lra.
    - apply RN_le_Z; [lia|].
      rewrite inject_Z_mult, inject_Z_plus.
      change (inject_Z 2) with (2 # 1)%Q. change (inject_Z 1) with 1%Q. lra. }
  destruct (Qle_bool (Qabs x) (Qabs f)); cbn [fst snd];
    (split; [exact Ht|]); apply Hd; apply correction_term; lra.
Qed.

Lemma neumaier_between bs xs :
  Forall2 between bs xs ->
  forall (f c : Q) (a A k : Z),
  0 <= a -> (inject_Z a <= f <= inject_Z A)%Q ->
  0 <= k -> k + len xs <= 2 ^ 50 ->
  (- inject_Z (2 * k) <= c <= inject_Z (2 * k))%Q ->
  A + sum_int (map snd bs) < 2 ^ 52 ->
  (inject_Z (a + sum_int (map fst bs))
   <= fst (fold_left neumaier_step xs (f, c))
   <= inject_Z (A + sum_int (map snd bs)))%Q /\
  (- inject_Z (2 * (k + len xs))
   <= snd (fold_left neumaier_step xs (f, c))
   <= inject_Z (2 * (k + len xs)))%Q.
Proof.
  induction 1 as [|b x bs xs Hb Hrest IH]; intros f c a A k Ha Hf Hk Hn Hc Hmax.
  - cbn [map fold_left fst snd]. unfold sum_int, len. cbn [fold_left length].
    rewrite !Z.add_0_r. split; assumption.
  - cbn [map fold_left]. cbn [map] in Hmax. rewrite !sum_int_cons in *.
    pose proof (sum_fst_snd bs xs Hrest) as Hs.
    pose proof (between_order b x Hb) as Ho.
    assert (Hlen : len (x :: xs) = len xs + 1) by (unfold len; cbn [length]; lia).
    rewrite Hlen in *. pose proof (len_nonneg xs) as Hl.
    destruct (neumaier_step_between a A k b f c x Ha Hf ltac:(lia) Hc Hb ltac:(lia))
      as [S1 S2].
    destruct (neumaier_step (f, c) x) as [f' c']. cbn [fst snd] in S1, S2.
    rewrite !Z.add_assoc.
    replace (k + len xs + 1) with (k + 1 + len xs) by lia.
    apply IH; [lia|assumption|lia|lia|assumption|lia].
Qed.

(** With either [sum], the sum of floats that are not negative lies
    between the sum of integers below them and the sum of integers above
    them, up to 2 for each item. *)
Lemma fsum_between (pf : PyFloat.platform) bs xs :
  Forall2 between bs xs ->
  sum_int (map snd bs) < 2 ^ 52 -> len xs <= 2 ^ 50 ->
  (inject_Z (sum_int (map fst bs) - 2 * len xs) <= fsum pf xs
   <= inject_Z (sum_int (map snd bs) + 2 * len xs))%Q.
Proof.
  intros H Hmax Hn. pose proof (sum_fst_snd bs xs H) as Hs.
  pose proof (len_nonneg xs) as Hl.
  assert (P : 2 ^ 52 < 2 ^ 53) by reflexivity.
  assert (P50 : 2 * 2 ^ 50 < 2 ^ 52) by reflexivity.
  assert (Hwide : forall q : Q,
    (inject_Z (sum_int (map fst bs)) <= q <= inject_Z (sum_int (map snd bs)))%Q ->
    (inject_Z (sum_int (map fst bs) - 2 * len xs) <= q
     <= inject_Z (sum_int (map snd bs) + 2 * len xs))%Q).
  { intros q [Q1 Q2]. split.
    - apply Qle_trans with (2 := Q1). rewrite <- Zle_Qle. lia.
    - apply Qle_trans with (1 := Q2). rewrite <- Zle_Qle. lia. }
  unfold fsum. destruct (compensated_sum pf).
  - destruct H as [|b x bs xs Hb Hrest]; [cbn; split; discriminate|].
    unfold fsum_compensated. cbn [map] in *. rewrite !sum_int_cons in *.
    pose proof (sum_fst_snd bs xs Hrest) as Hs'.
    pose proof (between_order b x Hb) as Ho.
    assert (Hlen : len (x :: xs) = len xs + 1) by (unfold len; cbn [length]; lia).
    rewrite Hlen in *. pose proof (len_nonneg xs) as Hl'.
    assert (H0 : (inject_Z 0 <= 0 <= inject_Z 0)%Q) by (split; apply Qle_refl).
    pose proof (fadd_between 0 0 b 0 x ltac:(lia) H0 Hb ltac:(lia)) as Hf.
    rewrite !Z.add_0_l in Hf.
    assert (Hc0 : (- inject_Z (2 * 0) <= 0 <= inject_Z (2 * 0))%Q)
      by (split; apply Qle_refl).
    assert (G1 : 0 + len xs <= 2 ^ 50) by lia.
    assert (G2 : snd b + sum_int (map snd bs) < 2 ^ 52) by lia.
    destruct (neumaier_between bs xs Hrest (fadd 0 x) 0 (fst b) (snd b) 0
                (proj1 Ho) Hf (Z.le_refl 0) G1 Hc0 G2) as [N1 N2].
    destruct (fold_left neumaier_step xs (fadd 0 x, 0%Q)) as [f c].
    cbn [fst snd] in N1, N2. rewrite Z.add_0_l in N2.
    destruct (Qeq_bool c 0).
    + apply Hwide. exact N1.
    + unfold fadd. destruct N1 as [N1a N1b]. destruct N2 as [N2a N2b].
      clear Hwide Hf H0 Hc0.
      split; [apply RN_ge_Z; [lia|]|apply RN_le_Z; [lia|]];
        clear - N1a N1b N2a N2b; push_inject; lra.
  - apply Hwide. unfold fsum_plain.
    assert (H0 : (inject_Z 0 <= 0 <= inject_Z 0)%Q) by (split; apply Qle_refl).
    pose proof (fold_fadd_between bs xs H 0%Q 0 0 ltac:(lia) H0 ltac:(lia)) as R.
    now rewrite !Z.add_0_l in R.
Qed.

(** *** The variance on every platform *)

Lemma variance_deviations (pf : PyFloat.platform) (l : list Z) :
  variance pf l =
  fdiv (fsum pf (map (fpow2 pf) (deviations l))) (of_int (len l)).
Proof. unfold variance, deviations. cbv zeta. now rewrite map_map. Qed.

Lemma square_floor_ceiling (d : Q) :
  0 <= Qfloor (d * d) <= Qceiling (d * d).
Proof.
  assert (H0 : (inject_Z 0 <= d * d)%Q) by (change (inject_Z 0) with 0%Q; nra).
  apply Qfloor_resp_le in H0. rewrite Qfloor_Z in H0.
  pose proof (Qfloor_le (d * d)) as F. pose proof (Qle_ceiling (d * d)) as C.
  split; [assumption|]. rewrite Zle_Qle. lra.
Qed.

(** [x ** 2] lies between the integers next to the exact square. *)
Lemma fpow2_between (pf : PyFloat.platform) (d : Q) :
  Qceiling (d * d) < 2 ^ 53 ->
  between (Qfloor (d * d), Qceiling (d * d)) (fpow2 pf d).
Proof.
  intros Hmax. pose proof (square_floor_ceiling d) as Ho.
  unfold between. cbn [fst snd]. split; [apply Ho|]. split.
  - apply (fpow2_faithful pf d (inject_Z (Qfloor (d * d)))).
    + unfold representable. apply RN_Z. unfold prec. lia.
    + apply Qfloor_le.
  - apply (fpow2_faithful pf d (inject_Z (Qceiling (d * d)))).
    + unfold representable. apply RN_Z. unfold prec. lia.
    + apply Qle_ceiling.
Qed.

Lemma squares_between (pf : PyFloat.platform) (ds : list Q) :
  sum_int (map (fun d => Qceiling (d * d)) ds) < 2 ^ 53 ->
  Forall2 between
    (map (fun d => (Qfloor (d * d), Qceiling (d * d))) ds)
    (map (fpow2 pf) ds) /\
  0 <= sum_int (map (fun d => Qceiling (d * d)) ds).
Proof.
  induction ds as [|d t IH]; intros Hmax.
  - split; [constructor|]. unfold sum_int. cbn. lia.
  - cbn [map] in *. rewrite sum_int_cons in *.
    pose proof (square_floor_ceiling d) as Ho.
    destruct (Z.lt_ge_cases (sum_int (map (fun d => Qceiling (d * d)) t)) (2 ^ 53))
      as [Ht|Ht].
    + destruct (IH Ht) as [IH1 IH2]. split; [|lia].
      constructor; [apply fpow2_between; lia|exact IH1].
    + exfalso. lia.
Qed.

(** The variance lies between two numbers that do not depend on the
    platform. *)
Lemma variance_between (pf : PyFloat.platform) (l : list Z) :
  l <> [] -> squares_above l < 2 ^ 52 -> len l <= 2 ^ 50 ->
  (RN (inject_Z (squares_below l - 2 * len l) / inject_Z (len l))
   <= variance pf l
   <= RN (inject_Z (squares_above l + 2 * len l) / inject_Z (len l)))%Q.
Proof.
  intros Hne Hmax Hn. rewrite variance_deviations.
  assert (P : 2 ^ 52 < 2 ^ 53) by reflexivity.
  assert (P50 : 2 ^ 50 < 2 ^ 53) by reflexivity.
  unfold squares_above, squares_below in *.
  destruct (squares_between pf (deviations l) ltac:(lia)) as [Hb _].
  assert (Hlen : len (map (fpow2 pf) (deviations l)) = len l).
  { unfold len, deviations. now rewrite !length_map. }
  pose proof (fsum_between pf _ _ Hb) as Hs.
  rewrite !map_map in Hs. cbn [fst snd] in Hs. rewrite Hlen in Hs.
  specialize (Hs Hmax Hn).
  assert (Hpos : 0 < len l) by (unfold len; destruct l; [congruence|cbn; lia]).
  pose proof (inject_Z_pos _ Hpos) as HN.
  assert (En : (of_int (len l) == inject_Z (len l))%Q).
  { unfold of_int. apply RN_Z. unfold prec. lia. }
  unfold fdiv. destruct Hs as [S1 S2].
  set (S := fsum pf (map (fpow2 pf) (deviations l))) in *.
  assert (E : (S / of_int (len l) == S / inject_Z (len l))%Q)
    by (apply Qdiv_comp; [reflexivity|exact En]).
  rewrite (RN_comp _ _ E).
  split; apply RN_mono; apply Qmult_le_compat_r; try assumption;
    apply Qlt_le_weak; now apply Qinv_lt_0_compat.
Qed.


Lemma variance_le (pf : PyFloat.platform) (l : list Z) (v : Z) :
  l <> [] -> squares_above l < 2 ^ 52 -> len l <= 2 ^ 50 ->
  Z.abs v < 2 ^ 53 ->
  squares_above l + 2 * len l <= v * len l ->
  (variance pf l <= inject_Z v)%Q.
Proof.
  intros Hne Hmax Hn Hv H.
  destruct (variance_between pf l Hne Hmax Hn) as [_ V].
  apply Qle_trans with (1 := V). apply RN_le_Z; [assumption|].
  assert (Hpos : 0 < len l) by (unfold len; destruct l; [congruence|cbn; lia]).
  pose proof (inject_Z_pos _ Hpos) as HN.
  apply Qle_shift_div_r; [assumption|].
  rewrite <- inject_Z_mult, <- Zle_Qle. exact H.
Qed.

(** *** Samples of 16 bits *)

Lemma nonempty_len {A} (l : list A) : l <> [] -> 0 < len l.
Proof. unfold len. destruct l; [congruence|cbn; lia]. Qed.

Lemma RN_Z_div_1 (a : Z) :
  Z.abs a < 2 ^ 53 -> (RN (inject_Z a / inject_Z 1) == inject_Z a)%Q.
Proof.
  intros Ha.
  assert (E : (inject_Z a / inject_Z 1 == inject_Z a)%Q)
    by (unfold Qdiv; change (/ inject_Z 1)%Q with 1%Q; ring).
  rewrite (RN_comp _ _ E). now apply RN_Z.
Qed.

Lemma average_range (l : list Z) :
  l <> [] -> Forall (fun s => - 2 ^ 15 <= s < 2 ^ 15) l ->
  (inject_Z (- 2 ^ 15) <= average l <= inject_Z (2 ^ 15))%Q.
Proof.
  intros Hne Hr. pose proof (nonempty_len l Hne) as Hn.
  assert (Hr' : Forall (fun s => - 2 ^ 15 <= s <= 2 ^ 15) l).
  { eapply Forall_impl; [|exact Hr]. cbn. intros s Hs. lia. }
  destruct (sum_int_bounds l _ _ Hr') as [S1 S2]. unfold average. split.
  - rewrite <- (RN_Z_div_1 (- 2 ^ 15)) by reflexivity.
    apply truediv_int_ge; lia.
  - rewrite <- (RN_Z_div_1 (2 ^ 15)) by reflexivity.
    apply truediv_int_le; lia.
Qed.

Lemma deviation_range (l : list Z) (d : Q) :
  l <> [] -> Forall (fun s => - 2 ^ 15 <= s < 2 ^ 15) l ->
  In d (deviations l) ->
  (inject_Z (- 2 ^ 16) <= d <= inject_Z (2 ^ 16))%Q.
Proof.
  intros Hne Hr Hd. destruct (average_range l Hne Hr) as [A1 A2].
  unfold deviations in Hd. cbv zeta in Hd. apply in_map_iff in Hd.
  destruct Hd as [s [<- Hs]]. rewrite Forall_forall in Hr.
  specialize (Hr s Hs).
  assert (Es : (of_int s == inject_Z s)%Q).
  { unfold of_int. apply RN_Z. unfold prec.
    change (2 ^ 15) with 32768 in Hr. change (2 ^ 53) with 9007199254740992. lia. }
  assert (S1 : (inject_Z (- 2 ^ 15) <= inject_Z s)%Q) by (rewrite <- Zle_Qle; lia).
  assert (S2 : (inject_Z s <= inject_Z (2 ^ 15))%Q) by (rewrite <- Zle_Qle; lia).
  change (inject_Z (- 2 ^ 15)) with (- 32768 # 1)%Q in *.
  change (inject_Z (2 ^ 15)) with (32768 # 1)%Q in *.
  unfold fsub. split.
  - apply RN_ge_Z; [reflexivity|].
    change (inject_Z (- 2 ^ 16)) with (- 65536 # 1)%Q. rewrite Es. lra.
  - apply RN_le_Z; [reflexivity|].
    change (inject_Z (2 ^ 16)) with (65536 # 1)%Q. rewrite Es. lra.
Qed.

Lemma square_ceiling_max (d : Q) :
  (inject_Z (- 2 ^ 16) <= d <= inject_Z (2 ^ 16))%Q ->
  0 <= Qceiling (d * d) <= 2 ^ 32.
Proof.
  intros [D1 D2]. pose proof (square_floor_ceiling d) as Ho.
  split; [lia|].
  change (inject_Z (- 2 ^ 16)) with (- 65536 # 1)%Q in D1.
  change (inject_Z (2 ^ 16)) with (65536 # 1)%Q in D2.
  assert (H : (inject_Z 0 <= d * d <= inject_Z (2 ^ 32))%Q).
  { change (inject_Z 0) with 0%Q.
    change (inject_Z (2 ^ 32)) with (4294967296 # 1)%Q. split; nra. }
  apply (Qceiling_between _ _ _ H).
Qed.

Lemma squares_above_max (l : list Z) :
  l <> [] -> Forall (fun s => - 2 ^ 15 <= s < 2 ^ 15) l ->
  0 <= squares_above l <= 2 ^ 32 * len l.
Proof.
  intros Hne Hr. unfold squares_above.
  assert (H : Forall (fun c => 0 <= c <= 2 ^ 32)
                     (map (fun d => Qceiling (d * d)) (deviations l))).
  { apply Forall_forall. intros c Hc. apply in_map_iff in Hc.
    destruct Hc as [d [<- Hd]]. apply square_ceiling_max.
    now apply (deviation_range l). }
  destruct (sum_int_bounds _ _ _ H) as [S1 S2].
  assert (E : len (map (fun d => Qceiling (d * d)) (deviations l)) = len l).
  { unfold len, deviations. now rewrite !length_map. }
  rewrite E in *. lia.
Qed.

Lemma ceiling_floor (x : Q) : Qceiling x <= Qfloor x + 1.
Proof.
  pose proof (Qlt_floor x) as F. pose proof (Qceiling_lt x) as C.
  assert (H : (inject_Z (Qceiling x - 1) < inject_Z (Qfloor x + 1))%Q)
    by (eapply Qlt_trans; eassumption).
  rewrite <- Zlt_Qlt in H. lia.
Qed.

Lemma squares_gap (l : list Z) : squares_above l <= squares_below l + len l.
Proof.
  unfold squares_above, squares_below.
  assert (E : len l = len (deviations l)).
  { unfold len, deviations. now rewrite length_map. }
  rewrite E. generalize (deviations l). intros ds.
  induction ds as [|d t IH]; [unfold sum_int, len; cbn; lia|].
  cbn [map]. rewrite !sum_int_cons.
  assert (Hlen : len (d :: t) = len t + 1) by (unfold len; cbn [length]; lia).
  rewrite Hlen. pose proof (ceiling_floor (d * d)). lia.
Qed.

Lemma squares_order (l : list Z) : 0 <= squares_below l <= squares_above l.
Proof.
  unfold squares_above, squares_below. generalize (deviations l). intros ds.
  induction ds as [|d t IH]; [unfold sum_int; cbn; lia|].
  cbn [map]. rewrite !sum_int_cons. pose proof (square_floor_ceiling d). lia.
Qed.

Lemma fsum_nil (pf : PyFloat.platform) : fsum pf [] = 0%Q.
Proof. unfold fsum. now destruct (compensated_sum pf). Qed.

(** The variance of at most 10000 samples of 16 bits differs by less
    than 7 between any two platforms. *)
Lemma variance_platforms (pf1 pf2 : PyFloat.platform) (l : list Z) :
  Forall (fun s => - 2 ^ 15 <= s < 2 ^ 15) l -> len l <= 10000 ->
  (variance pf1 l - 7 < variance pf2 l < variance pf1 l + 7)%Q.
Proof.
  intros Hr Hn. destruct l as [|s0 t] eqn:El.
  { unfold variance. cbn [map]. rewrite !fsum_nil. split; lra. }
  rewrite <- El in *. assert (Hne : l <> []) by (rewrite El; discriminate).
  clear El s0 t.
  pose proof (nonempty_len l Hne) as Hpos.
  destruct (squares_above_max l Hne Hr) as [A0 A1].
  pose proof (squares_gap l) as Hg.
  assert (P : 2 ^ 32 * 10000 < 2 ^ 52) by reflexivity.
  assert (P50 : 10000 < 2 ^ 50) by reflexivity.
  assert (Hmax : squares_above l < 2 ^ 52) by nia.
  destruct (variance_between pf1 l Hne Hmax ltac:(lia)) as [L1 U1].
  destruct (variance_between pf2 l Hne Hmax ltac:(lia)) as [L2 U2].
  set (lo := (inject_Z (squares_below l - 2 * len l) / inject_Z (len l))%Q) in *.
  set (hi := (inject_Z (squares_above l + 2 * len l) / inject_Z (len l))%Q) in *.
  pose proof (inject_Z_pos _ Hpos) as HN.
  destruct (squares_order l) as [B0 B1].
  assert (Hhl : (hi <= lo + 5)%Q).
  { unfold hi, lo. apply Qle_shift_div_r; [assumption|].
    assert (E : ((inject_Z (squares_below l - 2 * len l) / inject_Z (len l) + 5)
                 * inject_Z (len l)
                 == inject_Z (squares_below l - 2 * len l + 5 * len l))%Q).
    { rewrite inject_Z_plus, inject_Z_mult. change (inject_Z 5) with (5 # 1)%Q.
      field. lra. }
    rewrite E. rewrite <- Zle_Qle. lia. }
  assert (Hlo : (inject_Z (- 2 ^ 51) <= lo)%Q).
  { unfold lo. apply Qle_shift_div_l; [assumption|].
    rewrite <- inject_Z_mult, <- Zle_Qle.
    assert (- 2 ^ 51 * len l <= - 2 * len l) by nia. lia. }
  assert (Hhi : (hi <= inject_Z (2 ^ 51))%Q).
  { unfold hi. apply Qle_shift_div_r; [assumption|].
    rewrite <- inject_Z_mult, <- Zle_Qle.
    assert (2 ^ 32 * len l + 2 * len l <= 2 ^ 51 * len l) by nia. lia. }
  change (inject_Z (- 2 ^ 51)) with (- 2251799813685248 # 1)%Q in Hlo.
  change (inject_Z (2 ^ 51)) with (2251799813685248 # 1)%Q in Hhi.
  assert (Hlh : (lo <= hi)%Q).
  { unfold lo, hi. apply Qmult_le_compat_r;
      [rewrite <- Zle_Qle; lia|apply Qlt_le_weak; now apply Qinv_lt_0_compat]. }
  assert (R52 : forall q, (lo <= q <= hi)%Q ->
            (- inject_Z (2 ^ 52) <= q <= inject_Z (2 ^ 52))%Q).
  { intros q [Q1 Q2].
    change (inject_Z (2 ^ 52)) with (4503599627370496 # 1)%Q. split; lra. }
  destruct (RN_near lo (R52 lo ltac:(split; lra))) as [NL1 NL2].
  destruct (RN_near hi (R52 hi ltac:(split; lra))) as [NH1 NH2].
  split; lra.
Qed.

(** *** Rough samples *)






(** C10, as amended. The score [analyze_block] returns lies between 0 and
    1: it is 0 with 'empty'; 0, the zero ratio or the smoothness with
    'silence'; the smoothness with 'noise' and 'audio'; and zero ratio and
    smoothness lie between 0 and 1. *)
Theorem score_between_0_and_1 (pf : PyFloat.platform) (data : list byte) :
  (0 <= snd (analyze_block pf data) <= 1)%Q /\
  match fst (analyze_block pf data) with
  | Empty => snd (analyze_block pf data) = 0%Q
  | Silence =>
      snd (analyze_block pf data) = 0%Q \/
      snd (analyze_block pf data) = zero_ratio data \/
      snd (analyze_block pf data) = smoothness (samples data)
  | Noise | Audio => snd (analyze_block pf data) = smoothness (samples data)
  end /\
  (1 <= len data -> (0 <= zero_ratio data <= 1)%Q) /\
  (0 <= smoothness (samples data) <= 1)%Q.
Proof.
  pose proof (smoothness_samples_range data) as Hs.
  assert (Hz : 1000 <= len data -> (0 <= zero_ratio data <= 1)%Q).
  { intros H. apply zero_ratio_range. lia. }
  assert (H01 : (0 <= 0 <= 1)%Q) by (split; lra).
  split; [|split; [|split; [intros H; apply zero_ratio_range; lia|exact Hs]]];
  unfold analyze_block;
  destruct (len data <? 1000) eqn:E; cbn [fst snd]; auto;
  apply Z.ltb_ge in E;
  destruct (gt (zero_ratio data) (lit (99 # 100))); cbn [fst snd]; auto;
  destruct (gt (zero_ratio data) (lit (90 # 100))); cbn [fst snd]; auto;
  destruct (len (samples data) <? 100); cbn [fst snd]; auto;
  destruct (max_val (samples data) =? 0); cbn [fst snd]; auto;
  destruct (lt (variance pf (samples data)) (inject_Z 1000)); cbn [fst snd]; auto;
  destruct (gt (smoothness (samples data)) (lit (3 # 10))
            && gt (variance pf (samples data)) (inject_Z 10000)); cbn [fst snd]; auto;
  destruct (lt (smoothness (samples data)) (lit (2 # 10))); cbn [fst snd]; auto.
Qed.

(** *** How many samples are interpreted *)

Lemma interpreted_samples_max data : 0 <= interpreted_samples data <= 10000.
Proof.
  unfold interpreted_samples. destruct (reaches_sampling data); [|lia].
  rewrite samples_length. pose proof (sample_count_max data).
  unfold sample_count in *. pose proof (len_nonneg data).
  assert (0 <= (Z.min (len data) 40000 + 2) / 4) by (apply Z.div_pos; lia).
  lia.
Qed.

Lemma sample_count_ceil data :
  (len data) mod 4 <> 1 \/ 40000 < len data ->
  sample_count data = (Z.min (len data) 40000 + 3) / 4.
Proof.
  intros H. unfold sample_count. pose proof (len_nonneg data) as Hl.
  set (stop := Z.min (len data) 40000).
  assert (Hstop : stop mod 4 <> 1).
  { destruct H as [H|H].
    - destruct (Z.le_gt_cases (len data) 40000).
      + now replace stop with (len data) by (unfold stop; lia).
      + replace stop with 40000 by (unfold stop; lia). discriminate.
    - replace stop with 40000 by (unfold stop; lia). discriminate. }
  pose proof (Z.div_mod stop 4 ltac:(lia)) as Hdm.
  pose proof (Z.mod_pos_bound stop 4 ltac:(lia)) as Hm.
  assert (Hcase : stop mod 4 = 0 \/ stop mod 4 = 2 \/ stop mod 4 = 3) by lia.
  set (q := stop / 4) in *.
  destruct Hcase as [Hc|[Hc|Hc]]; rewrite Hc in Hdm.
  - replace (stop + 2) with (q * 4 + 2) by lia.
    replace (stop + 3) with (q * 4 + 3) by lia.
    rewrite !Z.div_add_l by lia. reflexivity.
  - replace (stop + 2) with ((q + 1) * 4 + 0) by lia.
    replace (stop + 3) with ((q + 1) * 4 + 1) by lia.
    rewrite !Z.div_add_l by lia. reflexivity.
  - replace (stop + 2) with ((q + 1) * 4 + 1) by lia.
    replace (stop + 3) with ((q + 1) * 4 + 2) by lia.
    rewrite !Z.div_add_l by lia. reflexivity.
Qed.

(** C7, as amended. [analyze_block] interprets at most 10000 samples.
    When it reaches the sampling loop it reads one 16 bit little-endian
    signed sample at every fourth offset below min(len(data), 40000) whose
    two bytes lie inside the data; that makes
    floor((min(len(data), 40000) + 2) / 4) samples, which is
    ceil(min(len(data), 40000) / 4) unless the data is at most 40000 bytes
    long with a length of the form 4k + 1. *)
Theorem sample_count_at_most_10000 (data : list byte) :
  0 <= interpreted_samples data <= 10000 /\
  len (samples data) <= 10000 /\
  len (samples data) = (Z.min (len data) 40000 + 2) / 4 /\
  samples data =
    map (fun k => Struct.unpack_h
                    (py_slice data (4 * Z.of_nat k) (4 * Z.of_nat k + 2)))
        (seq 0 (Z.to_nat ((Z.min (len data) 40000 + 2) / 4))) /\
  ((len data) mod 4 <> 1 \/ 40000 < len data ->
   len (samples data) = (Z.min (len data) 40000 + 3) / 4).
Proof.
  split; [apply interpreted_samples_max|].
  split; [rewrite samples_length; apply sample_count_max|].
  split; [apply samples_length|].
  split; [apply samples_eq|].
  intros H. rewrite samples_length. now apply sample_count_ceil.
Qed.

Lemma sample_count_at_most_10000_witness :
  len (samples (repeat Byte.x01 1002)) = 251.
Proof.
  rewrite (proj2 (proj2 (proj2 (proj2
    (sample_count_at_most_10000 (repeat Byte.x01 1002)))))).
  - reflexivity.
  - left. vm_compute. discriminate.
Defined.

(** C7 as first stated fails on a block of 1001 bytes that reaches the
    sampling loop: the loop visits 251 offsets, the last one holds a single
    byte, and 250 samples are interpreted where the ceiling gives 251. *)
Lemma sample_count_is_not_the_ceiling :
  let data := repeat Byte.x01 1001 in
  reaches_sampling data = true /\
  interpreted_samples data = 250 /\
  len (samples data) = 250 /\
  (Z.min (len data) 40000 + 3) / 4 = 251.
Proof. vm_compute. repeat split. Qed.

Lemma score_between_0_and_1_witness :
  (0 <= zero_ratio (repeat Byte.x00 3 ++ repeat Byte.x01 5) <= 1)%Q.
Proof.
  apply (proj1 (proj2 (proj2
    (score_between_0_and_1 (correctly_rounded false) (repeat Byte.x00 3 ++ repeat Byte.x01 5))))).
  vm_compute. discriminate.
Defined.

(** *** The classification on sample blocks *)


Lemma smooth_block_is_audio_witness :
  analyze_block (correctly_rounded false) ramp_block = (Audio, smoothness (samples ramp_block)).
Proof.
  apply smooth_block_is_audio.
  - vm_compute. discriminate.
  - vm_compute. discriminate.
  - vm_compute. reflexivity.
  - vm_compute. reflexivity.
Defined.


(** ** The first pass of [find_audio_blocks] *)

Lemma read_blocks_fuel_concat fuel :
  forall image, (length image <= fuel)%nat ->
  concat (read_blocks_fuel fuel image) = image.
Proof.
  induction fuel as [|fuel IH]; intros image H.
  - destruct image; [reflexivity|simpl in H; lia].
  - destruct image as [|b image']; [reflexivity|].
    cbn [read_blocks_fuel concat]. rewrite IH.
    + apply firstn_skipn.
    + rewrite length_skipn. simpl length in *.
      assert (0 < Z.to_nat BLOCK_SIZE)%nat by (unfold BLOCK_SIZE; lia). lia.
Qed.

(** The blocks read make up the image: the fuel does not run out. *)
Lemma read_blocks_concat image : concat (read_blocks image) = image.
Proof. apply read_blocks_fuel_concat. lia. Qed.

Lemma read_blocks_fuel_sizes fuel :
  forall image,
  Forall (fun data => 1 <= len data <= BLOCK_SIZE) (read_blocks_fuel fuel image).
Proof.
  induction fuel as [|fuel IH]; intros image; [constructor|].
  destruct image as [|b image']; [constructor|].
  cbn [read_blocks_fuel]. constructor; [|apply IH].
  unfold len. rewrite length_firstn. simpl length.
  assert (0 < Z.to_nat BLOCK_SIZE)%nat by (unfold BLOCK_SIZE; lia).
  assert (Z.of_nat (Z.to_nat BLOCK_SIZE) = BLOCK_SIZE)
    by (apply Z2Nat.id; unfold BLOCK_SIZE; lia).
  lia.
Qed.

(** Every block handed to [analyze_block] holds between 1 and
    [BLOCK_SIZE] bytes. *)
Lemma read_blocks_sizes image :
  Forall (fun data => 1 <= len data <= BLOCK_SIZE) (read_blocks image).
Proof. apply read_blocks_fuel_sizes. Qed.

Lemma fold_left_over_map {A B C} (f : A -> B -> A) (g : C -> B) l :
  forall a, fold_left (fun a x => f a (g x)) l a = fold_left f (map g l) a.
Proof. induction l as [|x t IH]; intros a; [reflexivity|]. simpl. apply IH. Qed.

(** The runs [find_audio_blocks] returns are the runs of the sequence of
    classifications of the blocks read. *)
Lemma find_audio_blocks_runs (pf : PyFloat.platform) image :
  find_audio_blocks pf image =
  Scan.runs (map (fun data => fst (analyze_block pf data)) (read_blocks image)).
Proof.
  unfold find_audio_blocks, Scan.runs. f_equal.
  apply (fold_left_over_map Scan.step (fun data => fst (analyze_block pf data))).
Qed.

Lemma le_combine_two (a b : byte) :
  le_combine [a; b] = byte.unsigned a + 256 * byte.unsigned b.
Proof.
  pose proof (byte.unsigned_range a) as Ha.
  pose proof (byte.unsigned_range b) as Hb.
  pose proof (le_combine_split 2 (byte.unsigned a + 256 * byte.unsigned b)) as H.
  change (2 ^ (Z.of_nat 2 * 8)) with 65536 in H.
  change (2 ^ 8) with 256 in Ha, Hb.
  rewrite Z.mod_small in H by lia. rewrite <- H. f_equal.
  unfold le_split. f_equal; [|f_equal].
  - apply byte.unsigned_inj. rewrite byte.unsigned_of_Z. unfold byte.wrap.
    change (2 ^ 8) with 256.
    replace (byte.unsigned a + 256 * byte.unsigned b)
      with (byte.unsigned a + byte.unsigned b * 256) by lia.
    rewrite Z.mod_add by lia. now rewrite Z.mod_small by lia.
  - apply byte.unsigned_inj. rewrite byte.unsigned_of_Z. unfold byte.wrap.
    rewrite Z.shiftr_div_pow2 by lia. change (2 ^ 8) with 256.
    replace (byte.unsigned a + 256 * byte.unsigned b)
      with (byte.unsigned a + byte.unsigned b * 256) by lia.
    rewrite Z.div_add by lia.
    rewrite (Z.div_small (byte.unsigned a)) by lia.
    now rewrite Z.mod_small by lia.
Qed.



(** ** More on [analyze_block] *)

(** A block of at least 1000 bytes: the three tests before the
    statistics, and the statistics; the test on the number of samples never
    fires. *)
Lemma analyze_block_long (pf : PyFloat.platform) data :
  1000 <= len data ->
  analyze_block pf data =
  if gt (zero_ratio data) (lit (99 # 100)) then (Empty, 0%Q) else
  if gt (zero_ratio data) (lit (90 # 100)) then (Silence, zero_ratio data) else
  classify_samples pf (samples data).
Proof.
  intros Hl. unfold analyze_block, classify_samples.
  destruct (len data <? 1000) eqn:E; [apply Z.ltb_lt in E; lia|].
  pose proof (sample_count_min data Hl) as Hs. rewrite <- samples_length in Hs.
  destruct (len (samples data) <? 100) eqn:E2; [apply Z.ltb_lt in E2; lia|].
  reflexivity.
Qed.

Lemma analyze_block_short (pf : PyFloat.platform)
  data : len data < 1000 -> analyze_block pf data = (Empty, 0%Q).
Proof.
  intros H. unfold analyze_block.
  destruct (len data <? 1000) eqn:E; [reflexivity|apply Z.ltb_ge in E; lia].
Qed.

(** The first 'audio' test never changes the label: a smoothness above
    0.3 is not below 0.2. *)
Lemma classify_samples_table (pf : PyFloat.platform) l :
  classify_samples pf l =
  if max_val l =? 0 then (Silence, 0%Q) else
  if lt (variance pf l) (inject_Z 1000) then (Silence, smoothness l) else
  if lt (smoothness l) (lit (2 # 10)) then (Noise, smoothness l) else
  (Audio, smoothness l).
Proof.
  unfold classify_samples.
  destruct (max_val l =? 0); [reflexivity|].
  destruct (lt (variance pf l) (inject_Z 1000)); [reflexivity|].
  destruct (gt (smoothness l) (lit (3 # 10))) eqn:E1; [|reflexivity].
  destruct (gt (variance pf l) (inject_Z 10000)); [|reflexivity].
  cbn [andb]. apply gt_true in E1.
  assert (H : lt (smoothness l) (lit (2 # 10)) = false).
  { apply lt_false. pose proof lit_02_03. lra. }
  now rewrite H.
Qed.

(** A ratio of byte counts strictly above 99/100 is at least
    99/100 + 1/(100 n); up to n = 2^47 the rounded ratio lies strictly
    above the float 0.99. *)
Lemma zero_ratio_above_99 data :
  0 < len data <= 2 ^ 47 -> 99 * len data < 100 * zero_count data ->
  gt (zero_ratio data) (lit (99 # 100)) = true.
Proof.
  intros [Hl Hmax] H. apply gt_true. unfold zero_ratio, truediv_int.
  set (t := (13933011347177473 # 14073748835532800)%Q).
  assert (Ht : (lit (99 # 100) < RN t)%Q) by (vm_compute; reflexivity).
  apply (Qlt_le_trans _ _ _ Ht). apply RN_mono.
  pose proof (inject_Z_pos _ Hl) as HL.
  apply Qle_shift_div_l; [assumption|].
  assert (H1 : (inject_Z (99 * len data + 1) <= inject_Z (100 * zero_count data))%Q)
    by (rewrite <- Zle_Qle; lia).
  assert (H2 : (inject_Z (len data) <= inject_Z (2 ^ 47))%Q)
    by (rewrite <- Zle_Qle; lia).
  rewrite inject_Z_plus, !inject_Z_mult in H1.
  unfold t.
  change (inject_Z (2 ^ 47)) with (140737488355328 # 1)%Q in H2.
  change (inject_Z 99) with (99 # 1)%Q in H1. change (inject_Z 100) with (100 # 1)%Q in H1.
  change (inject_Z 1) with (1 # 1)%Q in H1.
  lra.
Qed.

Lemma classify_samples_cases (pf : PyFloat.platform) l :
  (fst (classify_samples pf l) = Silence /\
   (max_val l = 0 \/ (variance pf l < inject_Z 1000)%Q)) \/
  ((fst (classify_samples pf l) = Noise \/ fst (classify_samples pf l) = Audio) /\
   0 < max_val l /\ (inject_Z 1000 <= variance pf l)%Q /\
   snd (classify_samples pf l) = smoothness l).
Proof.
  rewrite classify_samples_table. pose proof (max_val_nonneg l) as H0.
  destruct (max_val l =? 0) eqn:E0.
  { left. apply Z.eqb_eq in E0. cbn [fst]. split; [reflexivity|now left]. }
  apply Z.eqb_neq in E0.
  destruct (lt (variance pf l) (inject_Z 1000)) eqn:E1.
  { left. apply lt_true in E1. cbn [fst]. split; [reflexivity|now right]. }
  apply lt_false in E1. right.
  destruct (lt (smoothness l) (lit (2 # 10))); cbn [fst snd];
    (split; [auto|split; [lia|split; [assumption|reflexivity]]]).
Qed.

(** X1. For a block of at most [BLOCK_SIZE] bytes, [analyze_block] answers
    'empty' exactly when the block is shorter than 1000 bytes or more than
    99 percent of its bytes are zero.  In particular the return after the
    test on the number of samples is never taken. *)
Theorem empty_exactly_when_short_or_zero (pf : PyFloat.platform)
  (data : list byte) :
  len data <= BLOCK_SIZE ->
  (fst (analyze_block pf data) = Empty <->
   len data < 1000 \/ 99 * len data < 100 * zero_count data).
Proof.
  intros Hmax. unfold BLOCK_SIZE in Hmax.
  destruct (Z.lt_ge_cases (len data) 1000) as [Hs|Hl].
  { rewrite analyze_block_short by assumption. cbn [fst]. tauto. }
  rewrite analyze_block_long by lia.
  destruct (Z.lt_ge_cases (99 * len data) (100 * zero_count data)) as [Hz|Hz].
  { rewrite zero_ratio_above_99 by lia. cbn [fst]. tauto. }
  rewrite zero_ratio_not_above_99 by lia.
  split; [|lia]. intros H. exfalso.
  destruct (gt (zero_ratio data) (lit (90 # 100))); [discriminate|].
  destruct (classify_samples_cases pf (samples data)) as [[C _]|[[C|C] _]];
    rewrite C in H; discriminate.
Qed.

Lemma empty_exactly_when_short_or_zero_witness :
  fst (analyze_block (correctly_rounded false) (repeat Byte.x01 999)) = Empty.
Proof.
  apply (empty_exactly_when_short_or_zero (correctly_rounded false) (repeat Byte.x01 999)).
  - vm_compute. discriminate.
  - left. vm_compute. reflexivity.
Defined.

(** X2. A block of at most [BLOCK_SIZE] bytes that is classified as audio
    or as noise has at least 1000 bytes, at most 90 percent zero bytes,
    at least 250 samples of which one is not zero, and a variance of at
    least 1000; its score is the smoothness. *)
Theorem audio_and_noise_need_signal (pf : PyFloat.platform) (data : list byte) :
  len data <= BLOCK_SIZE ->
  fst (analyze_block pf data) = Audio \/ fst (analyze_block pf data) = Noise ->
  1000 <= len data /\
  10 * zero_count data <= 9 * len data /\
  250 <= len (samples data) /\
  0 < max_val (samples data) /\
  (inject_Z 1000 <= variance pf (samples data))%Q /\
  snd (analyze_block pf data) = smoothness (samples data).
Proof.
  intros Hmax H. unfold BLOCK_SIZE in Hmax.
  destruct (Z.lt_ge_cases (len data) 1000) as [Hs|Hl].
  { rewrite analyze_block_short in H by assumption. cbn [fst] in H.
    destruct H; discriminate. }
  rewrite analyze_block_long in * by lia.
  destruct (gt (zero_ratio data) (lit (99 # 100))) eqn:E99.
  { cbn [fst] in H. destruct H; discriminate. }
  destruct (gt (zero_ratio data) (lit (90 # 100))) eqn:E90.
  { cbn [fst] in H. destruct H; discriminate. }
  assert (Hr : 10 * zero_count data <= 9 * len data).
  { destruct (Z.le_gt_cases (10 * zero_count data) (9 * len data)) as [|Hc];
      [assumption|].
    rewrite zero_ratio_above_90 in E90 by lia. discriminate. }
  destruct (classify_samples_cases pf (samples data)) as [[C _]|[_ [Hm [Hv Hs]]]].
  { rewrite C in H. destruct H; discriminate. }
  split; [lia|]. split; [assumption|].
  split; [rewrite samples_length; now apply sample_count_min|].
  split; [assumption|]. split; assumption.
Qed.

Lemma audio_and_noise_need_signal_witness :
  (inject_Z 1000 <= variance (correctly_rounded false) (samples ramp_block))%Q.
Proof.
  apply (audio_and_noise_need_signal (correctly_rounded false) ramp_block).
  - vm_compute. discriminate.
  - left. vm_compute. reflexivity.
Defined.

(** X3. Past the tests on length and zero ratio the label depends on three
    things only: whether every sample is zero, whether the variance is
    below 1000, and whether the smoothness is below 0.2.  The thresholds
    0.3 and 10000 of the first 'audio' test have no effect on the result. *)
Theorem label_decided_by_variance_and_smoothness (pf : PyFloat.platform)
  (data : list byte) :
  1000 <= len data ->
  10 * zero_count data <= 9 * len data ->
  analyze_block pf data =
  if max_val (samples data) =? 0 then (Silence, 0%Q) else
  if lt (variance pf (samples data)) (inject_Z 1000)
  then (Silence, smoothness (samples data)) else
  if lt (smoothness (samples data)) (lit (2 # 10))
  then (Noise, smoothness (samples data))
  else (Audio, smoothness (samples data)).
Proof.
  intros Hl Hr. rewrite analyze_block_long by assumption.
  rewrite zero_ratio_not_above_99, zero_ratio_not_above_90 by lia.
  apply classify_samples_table.
Qed.

Lemma label_decided_by_variance_and_smoothness_witness :
  fst (analyze_block (correctly_rounded false) jumping_block) = Noise.
Proof.
  rewrite (label_decided_by_variance_and_smoothness (correctly_rounded false) jumping_block).
  - vm_compute. reflexivity.
  - vm_compute. discriminate.
  - vm_compute. discriminate.
Defined.

(** *** The same block on two platforms *)

(** X20. The variance that [analyze_block] computes for a block differs
    by less than 7 between any two platforms, whatever the block. *)
Theorem variance_differs_little_between_platforms
  (pf1 pf2 : PyFloat.platform) (data : list byte) :
  (variance pf1 (samples data) - 7 < variance pf2 (samples data)
   < variance pf1 (samples data) + 7)%Q.
Proof.
  apply variance_platforms; [apply samples_range|].
  rewrite samples_length. apply sample_count_max.
Qed.

(** Away from the threshold of 1000 the platform does not matter. *)
Lemma analyze_block_platforms (pf1 pf2 : PyFloat.platform) (data : list byte) :
  (variance pf1 (samples data) < inject_Z 993)%Q \/
  (inject_Z 1007 <= variance pf1 (samples data))%Q ->
  analyze_block pf1 data = analyze_block pf2 data.
Proof.
  intros H.
  destruct (Z.lt_ge_cases (len data) 1000) as [Hs|Hl].
  { now rewrite !analyze_block_short by assumption. }
  rewrite !analyze_block_long by assumption.
  destruct (gt (zero_ratio data) (lit (99 # 100))); [reflexivity|].
  destruct (gt (zero_ratio data) (lit (90 # 100))); [reflexivity|].
  rewrite !classify_samples_table.
  destruct (max_val (samples data) =? 0); [reflexivity|].
  destruct (variance_platforms pf1 pf2 (samples data) (samples_range data))
    as [V1 V2].
  { rewrite samples_length. apply sample_count_max. }
  change (inject_Z 993) with (993 # 1)%Q in H.
  change (inject_Z 1007) with (1007 # 1)%Q in H.
  assert (E : lt (variance pf1 (samples data)) (inject_Z 1000)
              = lt (variance pf2 (samples data)) (inject_Z 1000)).
  { change (inject_Z 1000) with (1000 # 1)%Q. destruct H as [H|H].
    - transitivity true; [|symmetry]; apply lt_true; lra.
    - transitivity false; [|symmetry]; apply lt_false; lra. }
  now rewrite E.
Qed.

(** X21. A block whose variance on one platform is below 993 or at
    least 1007 gets the same label and the same score on every
    platform. *)
Theorem classification_agrees_between_platforms
  (pf1 pf2 : PyFloat.platform) (data : list byte) :
  (variance pf1 (samples data) < inject_Z 993)%Q \/
  (inject_Z 1007 <= variance pf1 (samples data))%Q ->
  analyze_block pf1 data = analyze_block pf2 data.
Proof. apply analyze_block_platforms. Qed.

Lemma classification_agrees_between_platforms_witness :
  analyze_block (correctly_rounded false) ramp_block
  = analyze_block (correctly_rounded true) ramp_block.
Proof.
  apply classification_agrees_between_platforms.
  right. vm_compute. discriminate.
Defined.

(** The sample blocks are classified alike on every platform. *)
Lemma ramp_block_on_every_platform (pf : PyFloat.platform) :
  analyze_block pf ramp_block = analyze_block (correctly_rounded false) ramp_block.
Proof.
  symmetry. apply analyze_block_platforms. right. vm_compute. discriminate.
Qed.

Lemma jumping_block_on_every_platform (pf : PyFloat.platform) :
  analyze_block pf jumping_block
  = analyze_block (correctly_rounded false) jumping_block.
Proof.
  symmetry. apply analyze_block_platforms. right. vm_compute. discriminate.
Qed.

(** *** Which bytes the samples are made of *)

Lemma firstn_2_skipn {A} (d : A) (l : list A) :
  forall i, (S i < length l)%nat ->
  firstn 2 (skipn i l) = [nth i l d; nth (S i) l d].
Proof.
  induction l as [|x t IH]; intros i H; [simpl in H; lia|].
  destruct i as [|i].
  - destruct t as [|y t']; [simpl in H; lia|]. reflexivity.
  - simpl in H. cbn [skipn]. rewrite IH by lia. reflexivity.
Qed.

Lemma unpack_h_two (a b : byte) :
  Struct.unpack_h [a; b] =
  if byte.unsigned b <? 128
  then byte.unsigned a + 256 * byte.unsigned b
  else byte.unsigned a + 256 * byte.unsigned b - 65536.
Proof.
  unfold Struct.unpack_h. rewrite le_combine_two.
  pose proof (byte.unsigned_range a) as Ha.
  pose proof (byte.unsigned_range b) as Hb.
  change (2 ^ 8) with 256 in Ha, Hb. change (2 ^ 15) with 32768.
  change (2 ^ 16) with 65536.
  destruct (byte.unsigned b <? 128) eqn:E1;
    destruct (byte.unsigned a + 256 * byte.unsigned b <? 32768) eqn:E2;
    try reflexivity.
  - apply Z.ltb_lt in E1. apply Z.ltb_ge in E2. lia.
  - apply Z.ltb_ge in E1. apply Z.ltb_lt in E2. lia.
Qed.

Lemma sample_at_offset data (k : nat) :
  4 * Z.of_nat k + 2 <= len data ->
  Struct.unpack_h (py_slice data (4 * Z.of_nat k) (4 * Z.of_nat k + 2)) =
  sample_value data (4 * k).
Proof.
  intros H. unfold py_slice, sample_value, len in *.
  replace (Z.to_nat (4 * Z.of_nat k + 2 - 4 * Z.of_nat k)) with 2%nat by lia.
  replace (Z.to_nat (4 * Z.of_nat k)) with (4 * k)%nat by lia.
  rewrite (firstn_2_skipn Byte.x00) by lia.
  apply unpack_h_two.
Qed.

Lemma sample_count_inside data (k : nat) :
  (k < Z.to_nat (sample_count data))%nat ->
  4 * Z.of_nat k + 2 <= len data /\ 4 * Z.of_nat k + 2 <= 40000.
Proof.
  unfold sample_count. intros Hk. pose proof (len_nonneg data) as Hl.
  set (stop := Z.min (len data) 40000) in *.
  assert (0 <= (stop + 2) / 4) by (apply Z.div_pos; lia).
  assert (4 * ((stop + 2) / 4) <= stop + 2) by (apply Z.mul_div_le; lia).
  assert (Z.of_nat k < (stop + 2) / 4) by lia.
  unfold stop in *. lia.
Qed.

Lemma samples_values data :
  samples data =
  map (fun k => sample_value data (4 * k))
      (seq 0 (Z.to_nat (sample_count data))).
Proof.
  rewrite samples_eq. apply map_ext_in. intros k Hk. apply in_seq in Hk.
  apply sample_at_offset. apply sample_count_inside. lia.
Qed.

(** X4. The samples are the left channel of the first 10000 frames: sample
    [k] is the signed 16 bit little-endian number in bytes 4k and 4k+1,
    there is one for every [k] with 4k + 2 <= min(len(data), 40000), and
    each lies between -32768 and 32767. *)
Theorem samples_are_left_channel (data : list byte) :
  samples data =
    map (fun k => sample_value data (4 * k))
        (seq 0 (Z.to_nat ((Z.min (len data) 40000 + 2) / 4))) /\
  Forall (fun s => -32768 <= s <= 32767) (samples data).
Proof.
  split; [apply samples_values|].
  eapply Forall_impl; [|apply samples_range]. simpl. intros s Hs.
  change (2 ^ 15) with 32768 in Hs. lia.
Qed.

(** X5. [analyze_block] looks at a block through three things only: its
    length, its number of zero bytes, and the bytes at offsets 4k and 4k+1
    below 40000.  Two blocks that agree on these get the same samples, and
    the same label and score. *)
Theorem only_left_channel_of_first_frames_matters (pf : PyFloat.platform)
  (d1 d2 : list byte) :
  length d1 = length d2 ->
  (forall i, Z.of_nat i < 40000 -> (i mod 4 < 2)%nat ->
             nth i d1 Byte.x00 = nth i d2 Byte.x00) ->
  samples d1 = samples d2 /\
  (zero_count d1 = zero_count d2 -> analyze_block pf d1 = analyze_block pf d2).
Proof.
  intros Hlen Hnth.
  assert (Hl : len d1 = len d2) by (unfold len; now rewrite Hlen).
  assert (Hs : samples d1 = samples d2).
  { rewrite !samples_values. unfold sample_count. rewrite Hl.
    apply map_ext_in. intros k Hk. apply in_seq in Hk.
    pose proof (sample_count_inside d2 k) as Hin. unfold sample_count in Hin.
    specialize (Hin ltac:(lia)). unfold sample_value.
    assert (M0 : ((4 * k) mod 4 < 2)%nat).
    { replace (4 * k)%nat with (0 + k * 4)%nat by lia.
      rewrite Nat.Div0.mod_add. simpl. lia. }
    assert (M1 : ((S (4 * k)) mod 4 < 2)%nat).
    { replace (S (4 * k)) with (1 + k * 4)%nat by lia.
      rewrite Nat.Div0.mod_add. simpl. lia. }
    rewrite (Hnth (4 * k)%nat ltac:(lia) M0).
    rewrite (Hnth (S (4 * k)) ltac:(lia) M1).
    reflexivity. }
  split; [assumption|].
  intros Hz. unfold analyze_block, zero_ratio. now rewrite Hl, Hz, Hs.
Qed.

Lemma only_left_channel_of_first_frames_matters_witness :
  samples (repeat Byte.x01 1000) =
  samples (concat (repeat [Byte.x01; Byte.x01; Byte.x7f; Byte.xff] 250)).
Proof.
  apply (only_left_channel_of_first_frames_matters (correctly_rounded false)
           (repeat Byte.x01 1000)
           (concat (repeat [Byte.x01; Byte.x01; Byte.x7f; Byte.xff] 250))).
  - reflexivity.
  - intros i _ Hi.
    destruct (Nat.lt_ge_cases i 1000) as [Hlt|Hge].
    + assert (Hall : forallb (fun j =>
         if (j mod 4 <? 2)%nat
         then Byte.eqb (nth j (repeat Byte.x01 1000) Byte.x00)
                (nth j (concat (repeat [Byte.x01; Byte.x01; Byte.x7f; Byte.xff] 250))
                     Byte.x00)
         else true) (seq 0 1000) = true) by (vm_compute; reflexivity).
      rewrite forallb_forall in Hall. specialize (Hall i).
      rewrite in_seq in Hall. specialize (Hall ltac:(lia)).
      apply Nat.ltb_lt in Hi. rewrite Hi in Hall.
      now apply Byte.byte_dec_bl in Hall.
    + rewrite !nth_overflow; [reflexivity| |].
      * assert (E : length (concat (repeat [Byte.x01; Byte.x01; Byte.x7f; Byte.xff] 250))
                    = 1000%nat) by (vm_compute; reflexivity).
        rewrite E. lia.
      * rewrite repeat_length. lia.
Defined.

(** *** A constant signal *)

Lemma sum_int_const c l : Forall (fun s => s = c) l -> sum_int l = c * len l.
Proof.
  unfold len. induction 1 as [|x t Hx _ IH]; [simpl; unfold sum_int; simpl; lia|].
  rewrite sum_int_cons, IH. simpl length. lia.
Qed.

Lemma max_val_const c l :
  l <> [] -> Forall (fun s => s = c) l -> max_val l = Z.abs c.
Proof.
  intros Hne H. apply Z.le_antisymm.
  - apply max_val_le; [lia|]. eapply Forall_impl; [|exact H].
    simpl. intros s ->. lia.
  - destruct l as [|x t]; [congruence|]. inversion H; subst.
    apply max_val_In. now left.
Qed.

Lemma diffs_const c l : Forall (fun s => s = c) l -> Forall (fun d => d = 0) (diffs l).
Proof.
  induction 1 as [|x t Hx Ht IH]; [constructor|].
  destruct t as [|y t']; [constructor|].
  change (diffs (x :: y :: t')) with (Z.abs (y - x) :: diffs (y :: t')).
  inversion Ht; subst. constructor; [lia|assumption].
Qed.

Lemma variance_const (pf : PyFloat.platform) c l :
  Z.abs c < 2 ^ 53 -> l <> [] -> Forall (fun s => s = c) l -> variance pf l = 0%Q.
Proof.
  intros Hc Hne H. unfold variance, average.
  rewrite (sum_int_const c l H).
  assert (Hn : 0 < len l) by (unfold len; destruct l; [congruence|simpl; lia]).
  pose proof (inject_Z_pos _ Hn) as HN.
  assert (Eavg : (truediv_int (c * len l) (len l) == inject_Z c)%Q).
  { unfold truediv_int.
    assert (E : (inject_Z (c * len l) / inject_Z (len l) == inject_Z c)%Q).
    { rewrite inject_Z_mult. field. lra. }
    rewrite (RN_comp _ _ E). apply RN_Z. exact Hc. }
  rewrite fsum_zeros.
  - unfold fdiv. apply RN_zero. unfold Qdiv; ring.
  - apply Forall_forall. intros x Hx. apply in_map_iff in Hx.
    destruct Hx as [s [<- Hs]]. rewrite Forall_forall in H.
    rewrite (H s Hs).
    assert (E0 : (of_int c - truediv_int (c * len l) (len l) == 0)%Q).
    { unfold of_int. rewrite RN_Z by exact Hc. rewrite Eavg. ring. }
    apply fpow2_zero. unfold fsub. rewrite (RN_zero _ E0). reflexivity.
Qed.

Lemma avg_diff_const c l : Forall (fun s => s = c) l -> avg_diff l = 0%Q.
Proof.
  intros H. unfold avg_diff. pose proof (diffs_const c l H) as Hd.
  destruct (diffs l) as [|d ds]; [reflexivity|].
  rewrite (sum_int_zeros _ Hd). unfold truediv_int.
  apply RN_zero. unfold Qdiv; ring.
Qed.

Lemma smoothness_const c l :
  c <> 0 -> l <> [] -> Forall (fun s => s = c) l -> (smoothness l == 1)%Q.
Proof.
  intros Hc Hne H. unfold smoothness.
  rewrite (max_val_const c l Hne H).
  destruct (0 <? Z.abs c) eqn:E; [|apply Z.ltb_ge in E; lia].
  rewrite (avg_diff_const c l H).
  assert (E0 : (0 / of_int (Z.abs c * 2) == 0)%Q) by (unfold Qdiv; ring).
  unfold fdiv. rewrite (RN_zero _ E0).
  unfold fsub. assert (E1 : (1 - 0 == 1)%Q) by ring.
  rewrite (RN_comp _ _ E1). apply RN_1.
Qed.

Lemma constant_block_is_silence (pf : PyFloat.platform)
  (data : list byte) (c : Z) :
  1000 <= len data ->
  10 * zero_count data <= 9 * len data ->
  Forall (fun s => s = c) (samples data) ->
  fst (analyze_block pf data) = Silence /\
  (snd (analyze_block pf data) == if c =? 0 then 0 else 1)%Q.
Proof.
  intros Hl Hr Hc.
  pose proof (sample_count_min data Hl) as Hn. rewrite <- samples_length in Hn.
  assert (Hne : samples data <> []).
  { intros E. rewrite E in Hn. unfold len in Hn. simpl in Hn. lia. }
  assert (Hrange : Z.abs c < 2 ^ 53).
  { pose proof (samples_range data) as R. destruct (samples data) as [|x t];
      [congruence|]. inversion R; subst. inversion Hc; subst.
    change (2 ^ 15) with 32768 in *. change (2 ^ 53) with 9007199254740992. lia. }
  rewrite analyze_block_long by assumption.
  rewrite zero_ratio_not_above_99, zero_ratio_not_above_90 by lia.
  rewrite classify_samples_table.
  rewrite (max_val_const c _ Hne Hc).
  destruct (c =? 0) eqn:E0.
  - apply Z.eqb_eq in E0. subst c. cbn. split; reflexivity.
  - apply Z.eqb_neq in E0.
    destruct (Z.abs c =? 0) eqn:E1; [apply Z.eqb_eq in E1; lia|].
    rewrite (variance_const pf c _ Hrange Hne Hc).
    assert (Hlt : lt 0 (inject_Z 1000) = true) by (vm_compute; reflexivity).
    rewrite Hlt. cbn [fst snd]. split; [reflexivity|].
    now apply (smoothness_const c).
Qed.

(** X6. A block (at least 1000 bytes, at most 90 percent zero bytes) whose
    samples all have the same value is classified as silence, whatever the
    value: with score 0 when the value is 0 and with score 1.0 otherwise. *)
Theorem constant_signal_is_silence (pf : PyFloat.platform)
  (data : list byte) (c : Z) :
  1000 <= len data ->
  10 * zero_count data <= 9 * len data ->
  Forall (fun s => s = c) (samples data) ->
  fst (analyze_block pf data) = Silence /\
  (snd (analyze_block pf data) == if c =? 0 then 0 else 1)%Q.
Proof. apply constant_block_is_silence. Qed.

Lemma constant_signal_is_silence_witness :
  fst (analyze_block (correctly_rounded false) (repeat Byte.x01 1000)) = Silence.
Proof.
  apply (constant_signal_is_silence (correctly_rounded false) (repeat Byte.x01 1000) 257).
  - vm_compute. discriminate.
  - vm_compute. discriminate.
  - apply Forall_forall. intros s Hs.
    assert (H : forallb (Z.eqb 257) (samples (repeat Byte.x01 1000)) = true)
      by (vm_compute; reflexivity).
    rewrite forallb_forall in H. symmetry. apply Z.eqb_eq. now apply H.
Defined.

(** C10 as first stated fails on a block of 1000 bytes that are all 1:
    its samples are all equal (to 257), so on every platform the variance
    is zero and the 'silence' branch returns the smoothness, here 1,
    which is neither 0 nor the zero ratio. *)
Lemma silence_score_can_be_smoothness :
  let data := repeat Byte.x01 1000 in
  len data = 1000 /\
  zero_count data = 0 /\
  (forall pf : PyFloat.platform,
     fst (analyze_block pf data) = Silence /\
     (snd (analyze_block pf data) == 1)%Q /\
     ~ (snd (analyze_block pf data) == 0)%Q /\
     ~ (snd (analyze_block pf data) == zero_ratio data)%Q).
Proof.
  cbv zeta. split; [vm_compute; reflexivity|]. split; [vm_compute; reflexivity|].
  intros pf.
  assert (Hc : Forall (fun s => s = 257) (samples (repeat Byte.x01 1000))).
  { apply Forall_forall. intros s Hs.
    assert (H : forallb (Z.eqb 257) (samples (repeat Byte.x01 1000)) = true)
      by (vm_compute; reflexivity).
    rewrite forallb_forall in H. symmetry. apply Z.eqb_eq. now apply H. }
  destruct (constant_block_is_silence pf (repeat Byte.x01 1000) 257) as [L S];
    [vm_compute; discriminate|vm_compute; discriminate|exact Hc|].
  cbn [Z.eqb] in S.
  assert (Z0 : (zero_ratio (repeat Byte.x01 1000) == 0)%Q)
    by (vm_compute; reflexivity).
  split; [exact L|]. split; [exact S|].
  split; intros E; rewrite S in E; [|rewrite Z0 in E]; discriminate E.
Qed.

(** ** The blocks of an image *)

Section Chunks.

Variable n : nat.
Hypothesis n_pos : (0 < n)%nat.

Lemma chunks_fuel_enough fuel :
  forall fuel' image, (length image <= fuel)%nat -> (length image <= fuel')%nat ->
  chunks_fuel n fuel image = chunks_fuel n fuel' image.
Proof.
  induction fuel as [|fuel IH]; intros fuel' image H H'.
  - destruct image; [|cbn [length] in H; lia]. destruct fuel'; reflexivity.
  - destruct image as [|b image']; [destruct fuel'; reflexivity|].
    destruct fuel' as [|fuel']; [cbn [length] in H'; lia|].
    cbn [chunks_fuel]. f_equal.
    apply IH; rewrite length_skipn; cbn [length] in *; lia.
Qed.

Lemma chunks_nil : chunks n [] = [].
Proof. reflexivity. Qed.

Lemma chunks_step image :
  image <> [] -> chunks n image = firstn n image :: chunks n (skipn n image).
Proof.
  intros Hne. unfold chunks. destruct image as [|b image']; [congruence|].
  cbn [length chunks_fuel]. f_equal.
  apply chunks_fuel_enough; rewrite ?length_skipn; cbn [length]; lia.
Qed.

(** Induction on an image, one block at a time. *)
Lemma image_block_ind (P : list byte -> Prop) :
  P [] ->
  (forall image, image <> [] -> P (skipn n image) -> P image) ->
  forall image, P image.
Proof.
  intros H0 Hstep image.
  remember (length image) as m eqn:Hm. revert image Hm.
  induction m as [m IH] using lt_wf_ind. intros image Hm.
  destruct image as [|b image']; [exact H0|].
  apply Hstep; [discriminate|].
  apply (IH (length (skipn n (b :: image')))); [|reflexivity].
  rewrite length_skipn. cbn [length] in *. lia.
Qed.

Lemma chunks_skipn image :
  forall s, skipn s (chunks n image) = chunks n (skipn (s * n) image).
Proof.
  induction image as [|image Hne IH] using image_block_ind; intros s.
  - rewrite !skipn_nil. reflexivity.
  - destruct s as [|s]; [reflexivity|].
    rewrite (chunks_step image Hne). cbn [skipn]. rewrite IH.
    rewrite skipn_skipn. f_equal. f_equal. lia.
Qed.

Lemma chunks_firstn image :
  forall k, concat (firstn k (chunks n image)) = firstn (k * n) image.
Proof.
  induction image as [|image Hne IH] using image_block_ind; intros k.
  - rewrite !firstn_nil. reflexivity.
  - destruct k as [|k]; [reflexivity|].
    rewrite (chunks_step image Hne). cbn [firstn concat]. rewrite IH.
    rewrite <- (firstn_skipn n image) at 3.
    replace (S k * n)%nat with (n + k * n)%nat by lia.
    destruct (Nat.le_gt_cases n (length image)) as [Hle|Hgt].
    + rewrite firstn_app, length_firstn, Nat.min_l by assumption.
      replace (n + k * n - n)%nat with (k * n)%nat by lia.
      rewrite firstn_firstn, Nat.min_r by lia. reflexivity.
    + rewrite (skipn_all2 image) by lia. rewrite firstn_nil, !app_nil_r.
      rewrite firstn_firstn, Nat.min_r by lia. reflexivity.
Qed.

Lemma chunks_length image :
  Z.of_nat (length (chunks n image)) =
  (Z.of_nat (length image) + Z.of_nat n - 1) / Z.of_nat n.
Proof.
  induction image as [|image Hne IH] using image_block_ind.
  - cbn [chunks chunks_fuel length]. change (Z.of_nat 0) with 0.
    symmetry. apply Z.div_small. lia.
  - rewrite (chunks_step image Hne). cbn [length].
    rewrite Nat2Z.inj_succ, IH. rewrite length_skipn.
    assert (Hl : (0 < length image)%nat) by (destruct image; [congruence|cbn [length]; lia]).
    destruct (Nat.le_gt_cases n (length image)) as [Hle|Hgt].
    + rewrite Nat2Z.inj_sub by assumption.
      replace (Z.of_nat (length image) + Z.of_nat n - 1)
        with (Z.of_nat (length image) - Z.of_nat n + Z.of_nat n - 1 + 1 * Z.of_nat n) by lia.
      rewrite Z.div_add by lia. lia.
    + replace (length image - n)%nat with 0%nat by lia.
      change (Z.of_nat 0) with 0.
      rewrite (Z.div_small (0 + Z.of_nat n - 1)) by lia.
      replace (Z.of_nat (length image) + Z.of_nat n - 1)
        with (Z.of_nat (length image) - 1 + 1 * Z.of_nat n) by lia.
      rewrite Z.div_add by lia. rewrite Z.div_small by lia. reflexivity.
Qed.

(** All blocks are full, except possibly the last. *)
Lemma chunks_full image :
  forall k, (S k < length (chunks n image))%nat ->
  length (nth k (chunks n image) []) = n.
Proof.
  induction image as [|image Hne IH] using image_block_ind; intros k Hk.
  - cbn in Hk. lia.
  - rewrite (chunks_step image Hne) in *. cbn [length] in Hk.
    destruct k as [|k].
    + cbn [nth]. rewrite length_firstn.
      destruct (skipn n image) as [|x t] eqn:E; [cbn in Hk; lia|].
      assert (length (skipn n image) = S (length t)) by now rewrite E.
      rewrite length_skipn in H. lia.
    + cbn [nth]. apply IH. lia.
Qed.

End Chunks.

Lemma read_blocks_fuel_chunks fuel :
  forall image,
  read_blocks_fuel fuel image = chunks_fuel (Z.to_nat BLOCK_SIZE) fuel image.
Proof.
  induction fuel as [|fuel IH]; intros image; [reflexivity|].
  destruct image as [|b image']; [reflexivity|].
  cbn [read_blocks_fuel chunks_fuel]. f_equal. apply IH.
Qed.

Lemma read_blocks_chunks image :
  read_blocks image = chunks (Z.to_nat BLOCK_SIZE) image.
Proof. apply read_blocks_fuel_chunks. Qed.

Lemma block_size_nat : (0 < Z.to_nat BLOCK_SIZE)%nat.
Proof. unfold BLOCK_SIZE. lia. Qed.

Lemma block_size_nat_Z : Z.of_nat (Z.to_nat BLOCK_SIZE) = BLOCK_SIZE.
Proof. apply Z2Nat.id. unfold BLOCK_SIZE. lia. Qed.

(** X7. The scan reads ceil(size / BLOCK_SIZE) blocks: all of them full
    except possibly the last, and together they are the image.  The number
    it announces beforehand, size // BLOCK_SIZE, is one less whenever the
    size is not a multiple of the block size. *)
Theorem blocks_read_and_blocks_announced (image : list byte) :
  concat (read_blocks image) = image /\
  Z.of_nat (length (read_blocks image)) = (len image + BLOCK_SIZE - 1) / BLOCK_SIZE /\
  (forall k, (S k < length (read_blocks image))%nat ->
             len (nth k (read_blocks image) []) = BLOCK_SIZE) /\
  (len image mod BLOCK_SIZE = 0 ->
   Z.of_nat (length (read_blocks image)) = total_blocks image) /\
  (len image mod BLOCK_SIZE <> 0 ->
   Z.of_nat (length (read_blocks image)) = total_blocks image + 1).
Proof.
  pose proof block_size_nat as Hn. pose proof block_size_nat_Z as HZ.
  assert (Hpos : 0 < BLOCK_SIZE) by (unfold BLOCK_SIZE; lia).
  assert (Hlen : Z.of_nat (length (read_blocks image)) =
                 (len image + BLOCK_SIZE - 1) / BLOCK_SIZE).
  { rewrite read_blocks_chunks, chunks_length by assumption.
    rewrite HZ. reflexivity. }
  split; [apply read_blocks_concat|]. split; [exact Hlen|]. split; [|split].
  - intros k Hk. rewrite read_blocks_chunks in *. unfold len.
    rewrite chunks_full by assumption. exact HZ.
  - intros Hm. rewrite Hlen. unfold total_blocks.
    pose proof (Z.div_mod (len image) BLOCK_SIZE ltac:(lia)) as Hd.
    rewrite Hm, Z.add_0_r in Hd.
    set (q := len image / BLOCK_SIZE) in *.
    replace (len image + BLOCK_SIZE - 1) with (BLOCK_SIZE - 1 + q * BLOCK_SIZE) by lia.
    rewrite Z.div_add by lia. rewrite Z.div_small by lia. lia.
  - intros Hm. rewrite Hlen. unfold total_blocks.
    pose proof (Z.div_mod (len image) BLOCK_SIZE ltac:(lia)) as Hd.
    pose proof (Z.mod_pos_bound (len image) BLOCK_SIZE Hpos) as Hb.
    set (q := len image / BLOCK_SIZE) in *. set (r := len image mod BLOCK_SIZE) in *.
    replace (len image + BLOCK_SIZE - 1) with (r - 1 + (q + 1) * BLOCK_SIZE) by lia.
    rewrite Z.div_add by lia. rewrite Z.div_small by lia. lia.
Qed.

Lemma blocks_read_and_blocks_announced_witness :
  Z.of_nat (length (read_blocks [Byte.x01; Byte.x02; Byte.x03])) =
  total_blocks [Byte.x01; Byte.x02; Byte.x03] + 1.
Proof.
  apply (blocks_read_and_blocks_announced [Byte.x01; Byte.x02; Byte.x03]).
  unfold len. cbn [length]. rewrite Z.mod_small; unfold BLOCK_SIZE; lia.
Defined.

(** *** Runs and the blocks they cover *)

Lemma blocks_of_run_open {A} (pre rest : list A) (s : Z) :
  0 <= s <= Z.of_nat (length pre) ->
  blocks_of_run (pre ++ rest) (s, Z.of_nat (length pre) - 1) =
  skipn (Z.to_nat s) pre.
Proof.
  intros Hs. unfold blocks_of_run.
  rewrite skipn_app, firstn_app, length_skipn.
  replace (Z.to_nat (Z.of_nat (length pre) - 1 - s + 1))
    with (length pre - Z.to_nat s)%nat by lia.
  rewrite Nat.sub_diag, firstn_O, app_nil_r.
  apply firstn_all2. rewrite length_skipn. lia.
Qed.

Lemma runs_from_blocks {A} (cls : A -> block_type) (l : list A) :
  forall pre start,
  match start with
  | Some s => 0 <= s <= Z.of_nat (length pre)
  | None => True
  end ->
  concat (map (blocks_of_run (pre ++ l))
              (runs_from (Z.of_nat (length pre)) start (map cls l))) =
  match start with Some s => skipn (Z.to_nat s) pre | None => [] end ++
  filter (fun b => is_audio (cls b)) l.
Proof.
  induction l as [|x t IH]; intros pre start Hstart.
  - cbn [map runs_from filter]. destruct start as [s|].
    + cbn [map concat]. rewrite blocks_of_run_open by assumption.
      now rewrite !app_nil_r.
    + reflexivity.
  - assert (Happ : pre ++ x :: t = (pre ++ [x]) ++ t) by now rewrite <- app_assoc.
    assert (Hlen : Z.of_nat (length pre) + 1 = Z.of_nat (length (pre ++ [x])))
      by (rewrite length_app; cbn [length]; lia).
    cbn [map runs_from filter]. destruct (is_audio (cls x)) eqn:E.
    + rewrite Happ, Hlen, IH.
      * destruct start as [s|].
        -- rewrite skipn_app.
           replace (Z.to_nat s - length pre)%nat with 0%nat by lia.
           cbn [skipn]. now rewrite <- app_assoc.
        -- rewrite skipn_app, Nat2Z.id, Nat.sub_diag.
           rewrite skipn_all2 by lia. reflexivity.
      * rewrite length_app. cbn [length]. destruct start as [s|]; lia.
    + destruct start as [s|].
      * cbn [map concat]. rewrite blocks_of_run_open by assumption.
        rewrite Happ, Hlen, IH by exact I. reflexivity.
      * rewrite Happ, Hlen, IH by exact I. reflexivity.
Qed.

Lemma block_data_blocks image s e :
  0 <= s <= e ->
  block_data image (s, e) = concat (blocks_of_run (read_blocks image) (s, e)).
Proof.
  intros Hse. unfold block_data, seek_read, blocks_of_run.
  rewrite read_blocks_chunks.
  rewrite chunks_skipn, chunks_firstn by apply block_size_nat.
  pose proof block_size_nat_Z as HZ.
  assert (Hpos : 0 < BLOCK_SIZE) by (unfold BLOCK_SIZE; lia).
  f_equal; [|f_equal]; rewrite Z2Nat.inj_mul by lia; reflexivity.
Qed.

Lemma find_audio_blocks_in (pf : PyFloat.platform) image s e :
  In (s, e) (find_audio_blocks pf image) ->
  maximal_audio_run (map (fun data => fst (analyze_block pf data)) (read_blocks image)) s e.
Proof.
  rewrite find_audio_blocks_runs, scan_runs_eq, runs_from_spec.
  now replace (s - 0) with s by lia; replace (e - 0) with e by lia.
Qed.

Lemma concat_map_concat {A} (ll : list (list (list A))) :
  concat (map (@concat A) ll) = concat (concat ll).
Proof.
  induction ll as [|l t IH]; [reflexivity|].
  cbn [map concat]. now rewrite concat_app, IH.
Qed.

Lemma runs_from_open_reported (l : list block_type) :
  forall n s, exists b, In (s, b) (runs_from n (Some s) l) /\ n - 1 <= b.
Proof.
  induction l as [|ty t IH]; intros n s.
  - exists (n - 1). split; [now left|lia].
  - cbn [runs_from]. destruct (is_audio ty).
    + destruct (IH (n + 1) s) as [b [Hin Hb]]. exists b. split; [assumption|lia].
    + exists (n - 1). split; [now left|lia].
Qed.

Lemma runs_from_cover (l : list block_type) :
  forall n start i,
  (forall s, start = Some s -> s <= n) ->
  n <= i -> class_at l (i - n) = Some Audio ->
  exists a b, In (a, b) (runs_from n start l) /\ a <= i <= b.
Proof.
  induction l as [|ty t IH]; intros n start i Hstart Hi Hc.
  - rewrite class_at_nil in Hc. discriminate.
  - cbn [runs_from]. destruct (Z.eq_dec i n) as [->|Hne].
    + replace (n - n) with 0 in Hc by lia. rewrite class_at_0 in Hc.
      inversion Hc; subst ty. cbn [is_audio].
      set (s' := match start with Some s => s | None => n end).
      assert (Hs' : s' <= n).
      { unfold s'. destruct start as [s|]; [now apply Hstart|lia]. }
      destruct (runs_from_open_reported t (n + 1) s') as [b [Hin Hb]].
      exists s', b. split; [assumption|lia].
    + rewrite class_at_succ in Hc by lia.
      replace (i - n - 1) with (i - (n + 1)) in Hc by lia.
      destruct (is_audio ty).
      * apply IH; [|lia|assumption].
        intros s Hs. inversion Hs; subst. destruct start as [s0|].
        -- specialize (Hstart s0 eq_refl). lia.
        -- lia.
      * destruct (IH (n + 1) None i ltac:(discriminate) ltac:(lia) Hc)
          as [a [b [Hin Hab]]].
        exists a, b. split; [|assumption].
        destruct start; [now right|assumption].
Qed.

Lemma class_at_map {A} (cls : A -> block_type) (l : list A) (k : nat) :
  class_at (map cls l) (Z.of_nat k) = option_map cls (nth_error l k).
Proof.
  unfold class_at. destruct (Z.of_nat k <? 0) eqn:E; [apply Z.ltb_lt in E; lia|].
  rewrite Nat2Z.id. apply nth_error_map.
Qed.

(** X9. The runs that [find_audio_blocks] returns cover exactly the audio
    blocks: a run lies inside the blocks read and every block of it is
    classified as audio, and every block classified as audio lies in one
    of the runs. *)
Theorem runs_cover_exactly_the_audio_blocks (pf : PyFloat.platform)
  (image : list byte) :
  (forall s e, In (s, e) (find_audio_blocks pf image) ->
     0 <= s <= e /\ e < Z.of_nat (length (read_blocks image)) /\
     forall k, (Z.to_nat s <= k <= Z.to_nat e)%nat ->
       exists data, nth_error (read_blocks image) k = Some data /\
                    fst (analyze_block pf data) = Audio) /\
  (forall k data,
     nth_error (read_blocks image) k = Some data ->
     fst (analyze_block pf data) = Audio ->
     exists s e, In (s, e) (find_audio_blocks pf image) /\ s <= Z.of_nat k <= e).
Proof.
  split.
  - intros s e Hin. apply find_audio_blocks_in in Hin.
    destruct Hin as [Hse [He [Hall _]]]. rewrite length_map in He.
    split; [assumption|]. split; [assumption|].
    intros k Hk. specialize (Hall (Z.of_nat k) ltac:(lia)).
    rewrite class_at_map in Hall.
    destruct (nth_error (read_blocks image) k) as [data|]; [|discriminate].
    exists data. split; [reflexivity|]. now inversion Hall.
  - intros k data Hk Ha.
    rewrite find_audio_blocks_runs, scan_runs_eq.
    apply runs_from_cover; [discriminate|lia|].
    replace (Z.of_nat k - 0) with (Z.of_nat k) by lia.
    rewrite class_at_map, Hk. cbn. now rewrite Ha.
Qed.

(** ** Extracting the runs *)

Lemma files_read_written w fs path content :
  Files.read w (Files.write fs path content) path = Some content.
Proof. unfold Files.write. cbn [Files.read]. now rewrite String.eqb_refl. Qed.

Lemma files_read_other w fs p path content :
  Files.realpath w p <> Files.realpath w path ->
  Files.read w (Files.write fs p content) path = Files.read w fs path.
Proof.
  intros H. unfold Files.write. cbn [Files.read].
  destruct (String.eqb_spec (Files.realpath w p) (Files.realpath w path));
    [contradiction|reflexivity].
Qed.

(** What a run that fits the header adds to the files. *)
Lemma extract_run_fits w image_path output_dir fs i run image :
  Files.read w fs image_path = Some image ->
  Files.creatable w (output_file output_dir i (fst run)) = true ->
  Files.readable w (output_file output_dir i (fst run)) = true ->
  Files.creatable w (wav_file (output_file output_dir i (fst run))) = true ->
  len (block_data image run) + 36 < 2 ^ 32 ->
  extract_run w image_path output_dir fs i run =
  ((wav_file (output_file output_dir i (fst run)),
    header_bytes (len (block_data image run)) ++ block_data image run)
   :: (output_file output_dir i (fst run), block_data image run) :: fs,
   Some tt).
Proof.
  intros Himg Hraw Hread Hwav H.
  unfold extract_run, read_run, create_wav_header_files.
  rewrite Himg, Hraw. cbn [negb].
  rewrite files_read_written, Hread, Hwav. cbn [negb].
  rewrite create_wav_header_fits by exact H. reflexivity.
Qed.

Lemma extract_run_too_big w image_path output_dir fs i run image :
  Files.read w fs image_path = Some image ->
  Files.creatable w (output_file output_dir i (fst run)) = true ->
  Files.readable w (output_file output_dir i (fst run)) = true ->
  Files.creatable w (wav_file (output_file output_dir i (fst run))) = true ->
  2 ^ 32 <= len (block_data image run) + 36 ->
  extract_run w image_path output_dir fs i run =
  ((wav_file (output_file output_dir i (fst run)), bytes "RIFF")
   :: (output_file output_dir i (fst run), block_data image run) :: fs,
   None).
Proof.
  intros Himg Hraw Hread Hwav H.
  unfold extract_run, read_run, create_wav_header_files.
  rewrite Himg, Hraw. cbn [negb].
  rewrite files_read_written, Hread, Hwav. cbn [negb].
  rewrite create_wav_header_too_big by exact H. reflexivity.
Qed.

(** A run that is extracted without an exception fits the header, and
    both its files could be written. *)
Lemma extract_run_returns w image_path output_dir fs i run image fs' :
  Files.read w fs image_path = Some image ->
  extract_run w image_path output_dir fs i run = (fs', Some tt) ->
  fs' =
  (wav_file (output_file output_dir i (fst run)),
   header_bytes (len (block_data image run)) ++ block_data image run)
  :: (output_file output_dir i (fst run), block_data image run) :: fs.
Proof.
  intros Himg. unfold extract_run, read_run, create_wav_header_files.
  rewrite Himg.
  destruct (Files.creatable w (output_file output_dir i (fst run)));
    cbn [negb]; [|discriminate].
  rewrite files_read_written.
  destruct (Files.readable w (output_file output_dir i (fst run)));
    cbn [negb]; [|discriminate].
  destruct (Files.creatable w (wav_file (output_file output_dir i (fst run))));
    cbn [negb]; [|discriminate].
  destruct (Z_lt_le_dec (len (block_data image run) + 36) (2 ^ 32)) as [H|H].
  - rewrite create_wav_header_fits by exact H. intros E. now inversion E.
  - rewrite create_wav_header_too_big by exact H. discriminate.
Qed.

(** The image is still what it was after a run has been extracted, when
    no output file is the image. *)
Lemma image_kept w image_path output_dir fs i run image fs' outcome :
  image_kept_apart w image_path output_dir ->
  Files.read w fs image_path = Some image ->
  extract_run w image_path output_dir fs i run = (fs', outcome) ->
  Files.read w fs' image_path = Some image.
Proof.
  intros Hk Himg. destruct (Hk i (fst run)) as [K1 K2].
  unfold extract_run, read_run, create_wav_header_files. rewrite Himg.
  destruct (Files.creatable w (output_file output_dir i (fst run)));
    cbn [negb]; [|intros E; inversion E; subst; exact Himg].
  rewrite files_read_written.
  destruct (Files.readable w (output_file output_dir i (fst run)));
    cbn [negb];
    [|intros E; inversion E; subst;
      rewrite files_read_other by assumption; exact Himg].
  destruct (Files.creatable w (wav_file (output_file output_dir i (fst run))));
    cbn [negb].
  - destruct (create_wav_header (block_data image run)) as [content o].
    intros E. inversion E; subst.
    rewrite !files_read_other by assumption. exact Himg.
  - intros E. inversion E; subst.
    rewrite files_read_other by assumption. exact Himg.
Qed.

Lemma extract_runs_return w image_path output_dir image runs :
  image_kept_apart w image_path output_dir ->
  forall fs i fs',
  Files.read w fs image_path = Some image ->
  extract_runs w image_path output_dir fs i runs = (fs', Some tt) ->
  fs' = rev (files_of_runs image output_dir i runs) ++ fs.
Proof.
  intros Hk. induction runs as [|run rest IH]; intros fs i fs' Himg.
  - cbn. intros E. now inversion E.
  - cbn [extract_runs files_of_runs].
    destruct (extract_run w image_path output_dir fs i run) as [fs1 [[]|]] eqn:E1;
      [|discriminate].
    pose proof (image_kept _ _ _ _ _ _ _ _ _ Hk Himg E1) as Himg1.
    apply (extract_run_returns _ _ _ _ _ _ _ _ Himg) in E1. subst fs1.
    intros E. apply IH in E; [|exact Himg1]. subst fs'.
    cbn [rev]. now rewrite <- !app_assoc.
Qed.

Lemma extract_runs_fit w image_path output_dir image runs :
  image_kept_apart w image_path output_dir ->
  outputs_usable w output_dir ->
  forall fs i,
  Files.read w fs image_path = Some image ->
  Forall (fun run => len (block_data image run) + 36 < 2 ^ 32) runs ->
  extract_runs w image_path output_dir fs i runs =
  (rev (files_of_runs image output_dir i runs) ++ fs, Some tt).
Proof.
  intros Hk Hw. induction runs as [|run rest IH]; intros fs i Himg H;
    [reflexivity|].
  inversion H; subst. cbn [extract_runs files_of_runs].
  destruct (Hw i (fst run)) as [W1 [W2 W3]].
  pose proof (extract_run_fits w image_path output_dir fs i run image
                Himg W1 W2 W3 ltac:(assumption)) as E1.
  pose proof (image_kept _ _ _ _ _ _ _ _ _ Hk Himg E1) as Himg1.
  rewrite E1, IH by assumption.
  cbn [rev]. now rewrite <- !app_assoc.
Qed.

Lemma block_data_length image s e :
  0 <= s <= e -> len (block_data image (s, e)) <= (e - s + 1) * BLOCK_SIZE.
Proof.
  intros H. unfold block_data, seek_read, len. rewrite length_firstn.
  assert (0 <= (e - s + 1) * BLOCK_SIZE) by (unfold BLOCK_SIZE; lia). lia.
Qed.

Lemma short_runs_fit (pf : PyFloat.platform) image :
  Forall (fun run => snd run - fst run + 1 < 4096) (find_audio_blocks pf image) ->
  Forall (fun run => len (block_data image run) + 36 < 2 ^ 32)
         (find_audio_blocks pf image).
Proof.
  intros H. apply Forall_forall. intros [s e] Hin.
  rewrite Forall_forall in H. specialize (H _ Hin). cbn [fst snd] in H.
  apply find_audio_blocks_in in Hin. destruct Hin as [Hse _].
  pose proof (block_data_length image s e Hse) as Hl.
  unfold BLOCK_SIZE in Hl. lia.
Qed.

Lemma find_audio_blocks_files_fit (w : Files.world)
  (pf : PyFloat.platform) (fs : Files.t) (image_path output_dir : string)
  (image : list byte) :
  Files.read w fs image_path = Some image ->
  Files.readable w image_path = true ->
  Files.mkdir_ok w output_dir = true ->
  outputs_usable w output_dir ->
  image_kept_apart w image_path output_dir ->
  Forall (fun run => snd run - fst run + 1 < 4096) (find_audio_blocks pf image) ->
  find_audio_blocks_files w pf fs image_path output_dir =
  (rev (files_of_runs image output_dir 0 (find_audio_blocks pf image)) ++ fs,
   Some (find_audio_blocks pf image)).
Proof.
  intros Himg Hread Hdir Hw Hk H. unfold find_audio_blocks_files.
  rewrite Himg, Hread, Hdir. cbn [negb].
  rewrite (extract_runs_fit w image_path output_dir image _ Hk Hw fs 0%nat Himg
             (short_runs_fit pf image H)).
  reflexivity.
Qed.


(** X11. The extraction stops at the first run whose bytes do not fit the
    32 bit size fields of a WAV header (2^32 - 36 bytes or more): that
    run's raw file is written in full, its WAV file is left holding the
    four bytes 'RIFF', the exception ends the function, and the runs after
    it are not extracted.  The image is none of the output files, and the
    output files can be created and read. *)
Theorem extraction_stops_at_oversized_run (w : Files.world) (fs : Files.t)
  (image_path output_dir : string) (image : list byte)
  (before after : list (Z * Z)) (run : Z * Z) :
  Files.read w fs image_path = Some image ->
  outputs_usable w output_dir ->
  image_kept_apart w image_path output_dir ->
  Forall (fun r => len (block_data image r) + 36 < 2 ^ 32) before ->
  2 ^ 32 <= len (block_data image run) + 36 ->
  extract_runs w image_path output_dir fs 0 (before ++ run :: after) =
  ((wav_file (output_file output_dir (length before) (fst run)), bytes "RIFF")
   :: (output_file output_dir (length before) (fst run), block_data image run)
   :: rev (files_of_runs image output_dir 0 before) ++ fs,
   None).
Proof.
  intros Himg Hw Hk Hfit Hbig.
  assert (G : forall fs i,
    Files.read w fs image_path = Some image ->
    extract_runs w image_path output_dir fs i (before ++ run :: after) =
    ((wav_file (output_file output_dir (i + length before) (fst run)), bytes "RIFF")
     :: (output_file output_dir (i + length before) (fst run), block_data image run)
     :: rev (files_of_runs image output_dir i before) ++ fs, None)).
  { clear fs Himg. induction before as [|r rest IH]; intros fs i Himg.
    - cbn [app extract_runs length files_of_runs rev].
      destruct (Hw i (fst run)) as [W1 [W2 W3]].
      rewrite (extract_run_too_big w image_path output_dir fs i run image)
        by assumption.
      now rewrite Nat.add_0_r.
    - inversion Hfit; subst. cbn [app extract_runs length files_of_runs].
      destruct (Hw i (fst r)) as [W1 [W2 W3]].
      pose proof (extract_run_fits w image_path output_dir fs i r image
                    Himg W1 W2 W3 ltac:(assumption)) as E1.
      pose proof (image_kept _ _ _ _ _ _ _ _ _ Hk Himg E1) as Himg1.
      rewrite E1, IH by assumption.
      cbn [rev]. rewrite <- !app_assoc.
      replace (S i + length rest)%nat with (i + S (length rest))%nat by lia.
      reflexivity. }
  now rewrite G.
Qed.

Lemma find_audio_blocks_files_returns w pf fs image_path output_dir image fs' runs :
  image_kept_apart w image_path output_dir ->
  Files.read w fs image_path = Some image ->
  find_audio_blocks_files w pf fs image_path output_dir = (fs', Some runs) ->
  runs = find_audio_blocks pf image /\
  fs' = rev (files_of_runs image output_dir 0 runs) ++ fs.
Proof.
  intros Hk Himg. unfold find_audio_blocks_files. rewrite Himg.
  destruct (Files.readable w image_path); cbn [negb]; [|discriminate].
  destruct (Files.mkdir_ok w output_dir); cbn [negb]; [|discriminate].
  destruct (extract_runs w image_path output_dir fs 0 (find_audio_blocks pf image))
    as [fs1 [[]|]] eqn:E; [|discriminate].
  intros E'. inversion E'; subst. split; [reflexivity|].
  eapply extract_runs_return; eassumption.
Qed.

Lemma files_of_runs_raw image output_dir runs :
  forall i k run,
  nth_error runs k = Some run ->
  In (output_file output_dir (i + k) (fst run), block_data image run)
     (files_of_runs image output_dir i runs).
Proof.
  induction runs as [|r rest IH]; intros i k run; [now destruct k|].
  destruct k as [|k]; cbn [nth_error files_of_runs].
  - intros E. inversion E; subst. rewrite Nat.add_0_r. now left.
  - intros E. right. right.
    replace (i + S k)%nat with (S i + k)%nat by lia. now apply IH.
Qed.

Lemma runs_written w pf fs image_path output_dir image fs' runs :
  image_kept_apart w image_path output_dir ->
  Files.read w fs image_path = Some image ->
  find_audio_blocks_files w pf fs image_path output_dir = (fs', Some runs) ->
  runs = find_audio_blocks pf image /\
  forall k run, nth_error runs k = Some run ->
    written fs fs' (output_file output_dir k (fst run)) (block_data image run).
Proof.
  intros Hk Himg E.
  destruct (find_audio_blocks_files_returns _ _ _ _ _ _ _ _ Hk Himg E) as [Hr ->].
  split; [exact Hr|]. intros k run Hn.
  exists (rev (files_of_runs image output_dir 0 runs)). split; [reflexivity|].
  apply in_rev. rewrite rev_involutive.
  now apply (files_of_runs_raw image output_dir runs 0 k run).
Qed.

(** X8. When [find_audio_blocks] returns and the image is none of its
    output files, it has written to the raw file of every run the bytes
    of the run's blocks, and the bytes of all the raw files, one file
    after the other, are the blocks of the image classified as audio, in
    the order of the image: nothing else is extracted and no audio block
    is left out or written twice. *)
Theorem raw_files_hold_the_audio_blocks (w : Files.world)
  (pf : PyFloat.platform) (fs fs' : Files.t) (image_path output_dir : string)
  (image : list byte) (runs : list (Z * Z)) :
  Files.read w fs image_path = Some image ->
  image_kept_apart w image_path output_dir ->
  find_audio_blocks_files w pf fs image_path output_dir = (fs', Some runs) ->
  (forall k run, nth_error runs k = Some run ->
     written fs fs' (output_file output_dir k (fst run)) (block_data image run)) /\
  concat (map (block_data image) runs) =
  concat (filter (fun data => is_audio (fst (analyze_block pf data)))
                 (read_blocks image)).
Proof.
  intros Himg Hk E.
  destruct (runs_written _ _ _ _ _ _ _ _ Hk Himg E) as [-> Hw].
  split; [exact Hw|].
  rewrite (map_ext_in (block_data image)
             (fun r => concat (blocks_of_run (read_blocks image) r))).
  - rewrite <- map_map, concat_map_concat. f_equal.
    rewrite find_audio_blocks_runs, scan_runs_eq.
    apply (runs_from_blocks (fun data => fst (analyze_block pf data))
                            (read_blocks image) [] None I).
  - intros [s e] Hin. apply block_data_blocks.
    apply find_audio_blocks_in in Hin. destruct Hin as [H _]. exact H.
Qed.

Lemma read_blocks_length image :
  Z.of_nat (length (read_blocks image)) = (len image + BLOCK_SIZE - 1) / BLOCK_SIZE.
Proof.
  rewrite read_blocks_chunks, chunks_length by apply block_size_nat.
  now rewrite block_size_nat_Z.
Qed.

Lemma block_data_size (pf : PyFloat.platform) (image : list byte) (s e : Z) :
  In (s, e) (find_audio_blocks pf image) ->
  len (block_data image (s, e)) =
    Z.min ((e - s + 1) * BLOCK_SIZE) (len image - s * BLOCK_SIZE) /\
  (e + 1 < Z.of_nat (length (read_blocks image)) ->
   len (block_data image (s, e)) = (e - s + 1) * BLOCK_SIZE /\
   len (block_data image (s, e)) mod (CHANNELS * BYTES_PER_SAMPLE) = 0).
Proof.
  intros Hin. apply find_audio_blocks_in in Hin.
  destruct Hin as [Hse [He _]]. rewrite length_map in He.
  assert (Hpos : 0 < BLOCK_SIZE) by (unfold BLOCK_SIZE; lia).
  pose proof (read_blocks_length image) as Hn.
  assert (Hlen : len (block_data image (s, e)) =
                 Z.min ((e - s + 1) * BLOCK_SIZE) (len image - s * BLOCK_SIZE)).
  { unfold block_data, seek_read, len. rewrite length_firstn, length_skipn.
    assert (s * BLOCK_SIZE < Z.of_nat (length image)).
    { rewrite Hn in He. unfold len in He.
      assert (s < (Z.of_nat (length image) + BLOCK_SIZE - 1) / BLOCK_SIZE) by lia.
      assert (BLOCK_SIZE * ((Z.of_nat (length image) + BLOCK_SIZE - 1) / BLOCK_SIZE)
              <= Z.of_nat (length image) + BLOCK_SIZE - 1)
        by (apply Z.mul_div_le; lia).
      nia. }
    assert (0 <= s * BLOCK_SIZE) by nia.
    assert (0 <= (e - s + 1) * BLOCK_SIZE) by nia.
    lia. }
  split; [exact Hlen|]. intros Hlast.
  assert (Hfull : (e + 1) * BLOCK_SIZE < len image).
  { rewrite Hn in Hlast.
    assert (BLOCK_SIZE * ((len image + BLOCK_SIZE - 1) / BLOCK_SIZE)
            <= len image + BLOCK_SIZE - 1) by (apply Z.mul_div_le; lia).
    nia. }
  assert (E : len (block_data image (s, e)) = (e - s + 1) * BLOCK_SIZE).
  { rewrite Hlen. apply Z.min_l. lia. }
  split; [exact E|]. rewrite E.
  unfold BLOCK_SIZE, CHANNELS, BYTES_PER_SAMPLE.
  replace ((e - s + 1) * (1024 * 1024)) with ((e - s + 1) * 262144 * (2 * 2)) by lia.
  apply Z.mod_mul. lia.
Qed.

(** X19. When [find_audio_blocks] returns and the image is none of its
    output files, the raw file written for a run that ends before the
    last block of the image holds exactly BLOCK_SIZE bytes for each of
    its blocks, hence a whole number of 16 bit stereo frames; only a run
    that reaches the last block can be shorter, by what the image lacks
    to fill that block. *)
Theorem raw_file_size (w : Files.world) (pf : PyFloat.platform)
  (fs fs' : Files.t) (image_path output_dir : string) (image : list byte)
  (runs : list (Z * Z)) (k : nat) (s e : Z) :
  Files.read w fs image_path = Some image ->
  image_kept_apart w image_path output_dir ->
  find_audio_blocks_files w pf fs image_path output_dir = (fs', Some runs) ->
  nth_error runs k = Some (s, e) ->
  exists data,
    written fs fs' (output_file output_dir k s) data /\
    len data = Z.min ((e - s + 1) * BLOCK_SIZE) (len image - s * BLOCK_SIZE) /\
    (e + 1 < Z.of_nat (length (read_blocks image)) ->
     len data = (e - s + 1) * BLOCK_SIZE /\
     len data mod (CHANNELS * BYTES_PER_SAMPLE) = 0).
Proof.
  intros Himg Hk E Hn.
  destruct (runs_written _ _ _ _ _ _ _ _ Hk Himg E) as [Hr Hw].
  exists (block_data image (s, e)). split; [exact (Hw k (s, e) Hn)|].
  apply (block_data_size pf). rewrite <- Hr. eapply nth_error_In. exact Hn.
Qed.


(** ** File names *)

Module PyStrFacts.

Import PyStr.
Local Open Scope string_scope.

Lemma append_assoc (a b c : string) : (a ++ b) ++ c = a ++ (b ++ c).
Proof. induction a as [|x a IH]; [reflexivity|]. cbn. now rewrite IH. Qed.

Lemma append_cancel_l (p a b : string) : p ++ a = p ++ b -> a = b.
Proof.
  induction p as [|x p IH]; intros H; [exact H|].
  cbn in H. inversion H. now apply IH.
Qed.

(** The strings [str] gives for numbers that are not negative are made of
    digits and read back as the number. *)
Lemma str_digits (n : Z) :
  (0 <= n)%Z ->
  exists u, str n = DecimalString.NilEmpty.string_of_uint u /\ Z.of_uint u = n.
Proof.
  intros Hn. unfold str.
  pose proof (DecimalZ.of_to n) as H.
  destruct n as [|p|p]; [| |lia].
  - exists (Decimal.D0 Decimal.Nil). split; reflexivity.
  - exists (Pos.to_uint p). split; [reflexivity|exact H].
Qed.

Lemma of_uint_zeros k u : Z.of_uint (zeros_in_front k u) = Z.of_uint u.
Proof. induction k as [|k IH]; [reflexivity|]. exact IH. Qed.

Lemma zfill_digits (width : nat) (u : Decimal.uint) :
  exists k,
  DecimalString.NilEmpty.uint_of_string
    (zfill width (DecimalString.NilEmpty.string_of_uint u)) =
  Some (zeros_in_front k u).
Proof.
  unfold zfill.
  exists (width - String.length (DecimalString.NilEmpty.string_of_uint u))%nat.
  induction (width - String.length (DecimalString.NilEmpty.string_of_uint u))%nat
    as [|k IH].
  - cbn. apply DecimalString.NilEmpty.usu.
  - cbn [repeat string_of_list_ascii append DecimalString.NilEmpty.uint_of_string
         zeros_in_front].
    rewrite IH. reflexivity.
Qed.

(** [format(n, '03d')] of a number that is not negative: digits only, and
    they read back as the number. *)
Lemma format_03d_digits (n : Z) :
  (0 <= n)%Z ->
  exists d, DecimalString.NilEmpty.uint_of_string (format_03d n) = Some d /\
            Z.of_uint d = n.
Proof.
  intros Hn. unfold format_03d.
  destruct (n <? 0)%Z eqn:E; [apply Z.ltb_lt in E; lia|].
  destruct (str_digits n Hn) as [u [Hu Hv]]. rewrite Hu.
  destruct (zfill_digits 3 u) as [k Hk].
  exists (zeros_in_front k u). split; [exact Hk|].
  now rewrite of_uint_zeros.
Qed.

Lemma format_03d_inj (a b : Z) :
  (0 <= a)%Z -> (0 <= b)%Z -> format_03d a = format_03d b -> a = b.
Proof.
  intros Ha Hb H.
  destruct (format_03d_digits a Ha) as [da [Pa Va]].
  destruct (format_03d_digits b Hb) as [db [Pb Vb]].
  rewrite H, Pb in Pa. inversion Pa; subst. reflexivity.
Qed.

(** Two strings of digits followed by an underscore: where the strings
    agree, the digits do. *)
Lemma digits_before_underscore (d1 : string) :
  forall d2 r1 r2 u1 u2,
  DecimalString.NilEmpty.uint_of_string d1 = Some u1 ->
  DecimalString.NilEmpty.uint_of_string d2 = Some u2 ->
  d1 ++ String "_" r1 = d2 ++ String "_" r2 -> d1 = d2.
Proof.
  induction d1 as [|c d1 IH]; intros d2 r1 r2 u1 u2 H1 H2 H.
  - destruct d2 as [|c2 d2]; [reflexivity|].
    cbn in H. inversion H; subst c2. cbn in H2.
    destruct (DecimalString.NilEmpty.uint_of_string d2); discriminate.
  - destruct d2 as [|c2 d2].
    + cbn in H. inversion H; subst c. cbn in H1.
      destruct (DecimalString.NilEmpty.uint_of_string d1); discriminate.
    + cbn in H. inversion H; subst c2. f_equal.
      cbn in H1, H2.
      destruct (DecimalString.NilEmpty.uint_of_string d1) as [v1|] eqn:E1;
        [|discriminate].
      destruct (DecimalString.NilEmpty.uint_of_string d2) as [v2|] eqn:E2;
        [|discriminate].
      eapply IH; eauto.
Qed.

(** Joining a directory and a file name that does not start with a slash
    puts the name behind the directory, with a slash in between unless the
    directory is empty or ends with one. *)
Lemma path_join_relative (a b : string) :
  prefix "/" b = false ->
  path_join a b =
  (if (String.length a =? 0)%nat || ends_with_slash a then a else a ++ "/") ++ b.
Proof.
  intros H. unfold path_join. rewrite H.
  destruct ((String.length a =? 0)%nat || ends_with_slash a); [reflexivity|].
  now rewrite append_assoc.
Qed.

Lemma no_dot_append (a b : string) : no_dot (a ++ b) = no_dot a && no_dot b.
Proof.
  induction a as [|c a IH]; [reflexivity|].
  cbn. rewrite IH. now rewrite andb_assoc.
Qed.

Lemma no_dot_uint (u : Decimal.uint) :
  no_dot (DecimalString.NilEmpty.string_of_uint u) = true.
Proof. induction u; cbn; auto. Qed.

Lemma no_dot_str (n : Z) : no_dot (str n) = true.
Proof.
  unfold str. destruct (Z.to_int n) as [u|u]; cbn; apply no_dot_uint.
Qed.

Lemma no_dot_zfill width s : no_dot s = true -> no_dot (zfill width s) = true.
Proof.
  intros H. unfold zfill. rewrite no_dot_append, H, andb_true_r.
  induction (width - String.length s)%nat as [|k IH]; [reflexivity|]. exact IH.
Qed.

Lemma no_dot_format_03d (n : Z) : no_dot (format_03d n) = true.
Proof.
  unfold format_03d. destruct (n <? 0)%Z.
  - rewrite no_dot_append, no_dot_zfill by apply no_dot_str. reflexivity.
  - apply no_dot_zfill, no_dot_str.
Qed.

(** Replacing '.raw' leaves a stretch without dots as it is. *)
Lemma replace_no_dot (a b : string) :
  no_dot a = true ->
  replace_from ".raw" ".wav" 0 (a ++ b) = a ++ replace_from ".raw" ".wav" 0 b.
Proof.
  induction a as [|c a IH]; intros H; [reflexivity|].
  cbn in H. apply andb_true_iff in H. destruct H as [Hc Ha].
  cbn [append replace_from prefix].
  destruct (Ascii.ascii_dec "." c) as [E|NE].
  - subst c. discriminate.
  - now rewrite IH.
Qed.

End PyStrFacts.

Import PyStrFacts.

Lemma stem_not_absolute (rest : string) :
  prefix "/" ("audio_block_" ++ rest) = false.
Proof. reflexivity. Qed.

Lemma start_mb_exact (start : Z) :
  0 <= start < 2 ^ 53 ->
  PyStr.format_0f (PyFloat.truediv_int (start * BLOCK_SIZE) (1024 * 1024)) =
  PyStr.str start.
Proof.
  intros H. unfold PyStr.format_0f, PyFloat.truediv_int.
  assert (E : (inject_Z (start * BLOCK_SIZE) / inject_Z (1024 * 1024) ==
               inject_Z start)%Q).
  { unfold BLOCK_SIZE. rewrite inject_Z_mult. field. discriminate. }
  assert (E' : (PyFloat.RN (inject_Z (start * BLOCK_SIZE) / inject_Z (1024 * 1024))
                == inject_Z start)%Q).
  { rewrite (PyFloatFacts.RN_comp _ _ E). apply PyFloatFacts.RN_Z.
    unfold PyFloat.prec. lia. }
  rewrite (Qleb_comp _ _ (Qeq_refl 0) _ _ E').
  rewrite (PyFloatFacts.round_half_even_comp _ _ E').
  rewrite PyFloatFacts.round_half_even_Z.
  assert (H0 : Qle_bool 0 (inject_Z start) = true).
  { apply Qle_bool_iff. apply inject_Z_nonneg. lia. }
  now rewrite H0.
Qed.

Lemma output_file_stem (output_dir : string) (i : nat) (start : Z) :
  0 <= start < 2 ^ 53 ->
  output_file output_dir i start =
  PyStr.path_join output_dir (file_stem i start ++ ".raw")%string.
Proof.
  intros H. unfold output_file, file_stem. rewrite start_mb_exact by exact H.
  f_equal. now rewrite !append_assoc.
Qed.

(** X12. The raw file of run number [i] (counted from 0) that starts at
    block [start] is called audio_block_NNN_SMB.raw inside the output
    directory, NNN being [i + 1] with at least three digits and S the
    number of the first block, printed exactly. *)
Theorem raw_file_name (output_dir : string) (i : nat) (start : Z) :
  0 <= start < 2 ^ 53 ->
  output_file output_dir i start =
  PyStr.path_join output_dir
    ("audio_block_" ++ PyStr.format_03d (Z.of_nat i + 1) ++ "_"
     ++ PyStr.str start ++ "MB.raw")%string.
Proof.
  intros H. rewrite output_file_stem by exact H.
  unfold file_stem. f_equal. now rewrite !append_assoc.
Qed.

Lemma raw_file_name_witness :
  output_file "/tmp/out" 6 12 = "/tmp/out/audio_block_007_12MB.raw"%string.
Proof.
  rewrite (raw_file_name "/tmp/out" 6 12).
  - reflexivity.
  - lia.
Defined.

(** X13. Different runs get different raw file names, whatever the output
    directory and the blocks they start at: no raw file of one extraction
    overwrites another. *)
Theorem raw_file_names_differ (output_dir : string) (i j : nat) (s1 s2 : Z) :
  i <> j -> output_file output_dir i s1 <> output_file output_dir j s2.
Proof.
  intros Hij H. unfold output_file in H.
  rewrite !path_join_relative in H by reflexivity.
  apply append_cancel_l in H.
  assert (E : forall a b c : string,
             ("audio_block_" ++ a ++ "_" ++ b ++ c)%string =
             ("audio_block_" ++ (a ++ String "_" (b ++ c)))%string) by reflexivity.
  rewrite !E in H. apply append_cancel_l in H.
  destruct (format_03d_digits (Z.of_nat i + 1) ltac:(lia)) as [d1 [P1 V1]].
  destruct (format_03d_digits (Z.of_nat j + 1) ltac:(lia)) as [d2 [P2 V2]].
  pose proof (digits_before_underscore _ _ _ _ _ _ P1 P2 H) as Hd.
  apply format_03d_inj in Hd; lia.
Qed.

Lemma raw_file_names_differ_witness :
  output_file "out" 0 5 <> output_file "out" 1 5.
Proof. apply raw_file_names_differ. discriminate. Defined.

Lemma no_dot_file_stem i start : no_dot (file_stem i start) = true.
Proof.
  unfold file_stem.
  rewrite !no_dot_append, no_dot_format_03d, no_dot_str. reflexivity.
Qed.

(** X14. When the name of the output directory contains no dot, the WAV
    file of a run lies in the same directory as its raw file and has the
    same name with the extension .wav. *)
Theorem wav_file_next_to_raw_file (output_dir : string) (i : nat) (start : Z) :
  0 <= start < 2 ^ 53 ->
  no_dot output_dir = true ->
  wav_file (output_file output_dir i start) =
  PyStr.path_join output_dir (file_stem i start ++ ".wav")%string.
Proof.
  intros Hs Hd. rewrite output_file_stem by exact Hs.
  assert (Hrel : forall ext, prefix "/" (file_stem i start ++ ext) = false)
    by reflexivity.
  rewrite !path_join_relative by apply Hrel.
  set (p := (if (String.length output_dir =? 0)%nat || PyStr.ends_with_slash output_dir
             then output_dir else (output_dir ++ "/")%string)).
  assert (Hp : no_dot p = true).
  { unfold p. destruct ((String.length output_dir =? 0)%nat
                        || PyStr.ends_with_slash output_dir); [exact Hd|].
    rewrite no_dot_append, Hd. reflexivity. }
  unfold wav_file, PyStr.replace.
  rewrite replace_no_dot by exact Hp.
  rewrite replace_no_dot by apply no_dot_file_stem.
  reflexivity.
Qed.

Lemma wav_file_next_to_raw_file_witness :
  wav_file (output_file "/tmp/out" 6 12) = "/tmp/out/audio_block_007_12MB.wav"%string.
Proof.
  rewrite (wav_file_next_to_raw_file "/tmp/out" 6 12).
  - reflexivity.
  - lia.
  - reflexivity.
Defined.

(** X15. The replacement of '.raw' applies to the whole path, the
    directory included: with an output directory called D.raw, D without
    dots, the raw files are written into D.raw and the WAV files into
    D.wav. *)
Theorem wav_file_in_renamed_directory (d : string) (i : nat) (start : Z) :
  0 <= start < 2 ^ 53 ->
  no_dot d = true ->
  output_file (d ++ ".raw") i start =
    (d ++ ".raw/" ++ file_stem i start ++ ".raw")%string /\
  wav_file (output_file (d ++ ".raw") i start) =
    (d ++ ".wav/" ++ file_stem i start ++ ".wav")%string.
Proof.
  intros Hs Hd. rewrite output_file_stem by exact Hs.
  assert (Hrel : prefix "/" (file_stem i start ++ ".raw") = false) by reflexivity.
  rewrite path_join_relative by exact Hrel.
  assert (Hlen : (String.length (d ++ ".raw") =? 0)%nat = false).
  { induction d; reflexivity. }
  assert (Hend : PyStr.ends_with_slash (d ++ ".raw") = false).
  { clear. induction d as [|c d IH]; [reflexivity|].
    cbn [append PyStr.ends_with_slash]. rewrite IH.
    destruct (d ++ ".raw")%string eqn:E; [|reflexivity].
    destruct d; discriminate. }
  rewrite Hlen, Hend. cbn [orb]. rewrite !append_assoc. split; [reflexivity|].
  unfold wav_file, PyStr.replace.
  rewrite replace_no_dot by exact Hd.
  f_equal.
  pose proof (no_dot_file_stem i start) as Hst.
  set (st := file_stem i start) in *. clearbody st.
  assert (Hslash : PyStr.replace_from ".raw" ".wav" 0 (".raw/" ++ st ++ ".raw") =
                   (".wav" ++ PyStr.replace_from ".raw" ".wav" 0
                                (String "/" st ++ ".raw"))%string) by reflexivity.
  change (".raw" ++ "/" ++ st ++ ".raw")%string
    with (".raw/" ++ st ++ ".raw")%string.
  rewrite Hslash. rewrite replace_no_dot; [reflexivity|].
  cbn. exact Hst.
Qed.

Lemma wav_file_in_renamed_directory_witness :
  wav_file (output_file "/tmp/take1.raw" 0 3) =
  "/tmp/take1.wav/audio_block_001_3MB.wav"%string.
Proof.
  apply (wav_file_in_renamed_directory "/tmp/take1" 0 3).
  - lia.
  - reflexivity.
Defined.

(** *** An image and an output directory that are apart *)

Lemma disk_out_apart : image_kept_apart plain_world "/disk.img" "/out".
Proof.
  intros i start. unfold wav_file, output_file. cbv zeta.
  rewrite PyStrFacts.path_join_relative by apply stem_not_absolute.
  cbn [plain_world Files.realpath].
  split; cbn; discriminate.
Qed.

Lemma all_usable output_dir : outputs_usable plain_world output_dir.
Proof. intros i start. repeat split. Qed.

Lemma ramp_block_runs :
  find_audio_blocks (correctly_rounded false) ramp_block = [(0, 0)].
Proof. vm_compute. reflexivity. Qed.

Lemma ramp_block_extracted :
  find_audio_blocks_files plain_world (correctly_rounded false)
    (disk ramp_block) "/disk.img" "/out" =
  (rev (files_of_runs ramp_block "/out" 0 [(0, 0)]) ++ disk ramp_block,
   Some [(0, 0)]).
Proof.
  rewrite <- ramp_block_runs.
  apply find_audio_blocks_files_fit;
    [reflexivity|reflexivity|reflexivity|apply all_usable|apply disk_out_apart|].
  rewrite ramp_block_runs. constructor; [cbn; lia|constructor].
Qed.


Lemma extraction_stops_at_oversized_run_witness :
  snd (extract_runs plain_world "/disk.img" "/out"
         (disk (repeat Byte.x00 (Z.to_nat (2 ^ 32)))) 0 [(0, 4095)])
  = None.
Proof.
  change [(0, 4095)] with ([] ++ [(0, 4095)]).
  rewrite (extraction_stops_at_oversized_run plain_world
             (disk (repeat Byte.x00 (Z.to_nat (2 ^ 32)))) "/disk.img" "/out"
             (repeat Byte.x00 (Z.to_nat (2 ^ 32))) [] [] (0, 4095)).
  - reflexivity.
  - unfold disk. cbn [Files.read plain_world Files.realpath].
    now rewrite String.eqb_refl.
  - apply all_usable.
  - apply disk_out_apart.
  - constructor.
  - unfold block_data, seek_read, len.
    rewrite length_firstn, length_skipn, repeat_length.
    unfold BLOCK_SIZE. lia.
Defined.

Lemma raw_files_hold_the_audio_blocks_witness :
  concat (map (block_data ramp_block) [(0, 0)]) =
  concat (filter (fun data =>
                    is_audio (fst (analyze_block (correctly_rounded false) data)))
                 (read_blocks ramp_block)).
Proof.
  exact (proj2 (raw_files_hold_the_audio_blocks plain_world
                  (correctly_rounded false) (disk ramp_block) _
                  "/disk.img" "/out" ramp_block [(0, 0)]
                  eq_refl disk_out_apart ramp_block_extracted)).
Defined.

Lemma raw_file_size_witness :
  exists data,
    written (disk ramp_block)
            (rev (files_of_runs ramp_block "/out" 0 [(0, 0)]) ++ disk ramp_block)
            (output_file "/out" 0 0) data /\
    len data = Z.min ((0 - 0 + 1) * BLOCK_SIZE) (len ramp_block - 0 * BLOCK_SIZE) /\
    (0 + 1 < Z.of_nat (length (read_blocks ramp_block)) ->
     len data = (0 - 0 + 1) * BLOCK_SIZE /\
     len data mod (CHANNELS * BYTES_PER_SAMPLE) = 0).
Proof.
  exact (raw_file_size plain_world (correctly_rounded false) (disk ramp_block) _
           "/disk.img" "/out" ramp_block [(0, 0)] 0%nat 0 0
           eq_refl disk_out_apart ramp_block_extracted eq_refl).
Defined.


(** ** More on the WAV header and on the [__main__] block *)

(** X16. In a WAV file that [create_wav_header] completes, the sizes in
    the header match the file: the file is 44 bytes longer than the raw
    data, the RIFF size is the file size minus 8, the data size is the
    number of bytes after the header, the byte rate is sample rate times
    block align, and a frame of block align bytes holds one sample of the
    given bit depth per channel. *)
Theorem wav_header_matches_file (raw : list byte) :
  len raw + 36 < 2 ^ 32 ->
  exists h samples,
    parse_wav (fst (create_wav_header raw)) = Some (h, samples) /\
    samples = raw /\
    len (fst (create_wav_header raw)) = len raw + 44 /\
    riff_size h = len (fst (create_wav_header raw)) - 8 /\
    data_size h = len samples /\
    byte_rate h = sample_rate h * block_align h /\
    block_align h * 8 = num_channels h * bits_per_sample h.
Proof.
  intros H. unfold len in *.
  rewrite create_wav_header_fits by exact H. cbn [fst].
  exists (expected_header (Z.of_nat (length raw))), raw.
  split; [apply parse_wav_header_bytes; lia|].
  split; [reflexivity|].
  assert (Hl : Z.of_nat (length (header_bytes (Z.of_nat (length raw)) ++ raw)) =
               Z.of_nat (length raw) + 44).
  { rewrite length_app, header_bytes_length. lia. }
  split; [exact Hl|]. split; [rewrite Hl; cbn; lia|].
  repeat split.
Qed.

Lemma wav_header_matches_file_witness :
  len (fst (create_wav_header [Byte.x01; Byte.x02])) = 46.
Proof.
  destruct (wav_header_matches_file [Byte.x01; Byte.x02]) as [h [s [_ [_ [H _]]]]].
  - vm_compute. reflexivity.
  - exact H.
Defined.

(** X17. With [USA_PERCORSI_MANUALI] switched off the paths come from the
    command line: fewer than two entries in [sys.argv] give the usage
    message and exit code 1; otherwise the image is the first argument and
    the output directory the second, or the default below the home
    directory when there is none; further arguments are ignored.  The scan
    runs on these paths when the image exists, else the error is reported
    with exit code 1. *)
Theorem command_line_mode (w : Main.world) :
  ((length (Main.argv w) < 2)%nat ->
   snd (Main.script false w) = Main.SysExit 1 /\
   Main.scanned (Main.script false w) = false) /\
  (forall prog image_path rest,
     Main.argv w = prog :: image_path :: rest ->
     let output_dir :=
       hd (Main.expanduser w "~/Desktop/recovered_audio") rest in
     (Main.path_exists w image_path = true ->
      hd_error (fst (Main.script false w)) =
        Some (Main.FindAudioBlocks image_path output_dir)) /\
     (Main.path_exists w image_path = false ->
      Main.script false w =
        ([Main.Print ("Errore: file non trovato: " ++ image_path)],
         Main.SysExit 1))).
Proof.
  split.
  - intros H. unfold Main.script, Main.choose_paths.
    destruct (2 <=? length (Main.argv w))%nat eqn:E;
      [apply Nat.leb_le in E; lia|]. split; reflexivity.
  - intros prog image_path rest Hargv output_dir.
    unfold Main.script, Main.choose_paths. rewrite Hargv.
    destruct rest as [|out rest']; cbn [length Nat.leb Nat.ltb nth hd app] in *;
      subst output_dir; cbn [hd];
      (split; intros He; rewrite He; cbn [negb]; [|reflexivity]).
    + destruct (Main.scan_returns w image_path
                  (Main.expanduser w "~/Desktop/recovered_audio")); reflexivity.
    + destruct (Main.scan_returns w image_path out); reflexivity.
Qed.

Lemma command_line_mode_witness :
  hd_error (fst (Main.script false
    (Main.mk_world ["find_audio.py"; "card.dmg"; "out"; "extra"]%string
                   (fun _ => true) (fun p => p) (fun _ _ => true)))) =
  Some (Main.FindAudioBlocks "card.dmg"%string "out"%string).
Proof.
  apply (proj2 (command_line_mode
    (Main.mk_world ["find_audio.py"; "card.dmg"; "out"; "extra"]%string
                   (fun _ => true) (fun p => p) (fun _ _ => true)))
    "find_audio.py"%string "card.dmg"%string ["out"; "extra"]%string eq_refl).
  reflexivity.
Defined.

(** X18. However the paths are chosen, the script starts the scan at most
    once and only on a path that exists; it prints FATTO! exactly when the
    scan returned; and when it ends through [sys.exit] the code is 1 and
    no scan was started. *)
Theorem scan_started_at_most_once (manual : bool) (w : Main.world) :
  (length (filter Main.is_scan (fst (Main.script manual w))) <= 1)%nat /\
  (forall image_path output_dir,
     In (Main.FindAudioBlocks image_path output_dir) (fst (Main.script manual w)) ->
     Main.path_exists w image_path = true) /\
  (In (Main.Print "FATTO!") (fst (Main.script manual w)) <->
   snd (Main.script manual w) = Main.Completed) /\
  (forall code, snd (Main.script manual w) = Main.SysExit code ->
     code = 1 /\ Main.scanned (Main.script manual w) = false).
Proof.
  unfold Main.script.
  destruct (Main.choose_paths manual w) as [[[out image_path] output_dir]|usage] eqn:E.
  - assert (Hout : forall e, In e out -> Main.is_scan e = false /\
                                         e <> Main.Print "FATTO!").
    { unfold Main.choose_paths in E. destruct manual.
      - inversion E; subst. intros e [<-|[<-|[<-|[<-|[]]]]]; split;
          try reflexivity; discriminate.
      - destruct (2 <=? length (Main.argv w))%nat; inversion E; subst.
        intros e []. }
    assert (Hfilter : filter Main.is_scan out = []).
    { clear E. induction out as [|e t IH]; [reflexivity|].
      cbn [filter]. rewrite (proj1 (Hout e (or_introl eq_refl))).
      apply IH. intros e' He'. apply Hout. now right. }
    assert (Hexists : existsb Main.is_scan out = false).
    { clear E Hfilter. induction out as [|e t IH]; [reflexivity|].
      cbn [existsb]. rewrite (proj1 (Hout e (or_introl eq_refl))).
      apply IH. intros e' He'. apply Hout. now right. }
    destruct (Main.path_exists w image_path) eqn:Ex; cbn [negb].
    + destruct (Main.scan_returns w image_path output_dir); cbn [negb fst snd].
      * split; [rewrite filter_app, Hfilter; cbn; lia|].
        split; [|split].
        -- intros ip od Hin. apply in_app_or in Hin. destruct Hin as [Hin|Hin].
           ++ apply Hout in Hin. destruct Hin as [Hs _]. discriminate.
           ++ cbn in Hin. destruct Hin as [Hin|Hin];
                [inversion Hin; subst; exact Ex|].
              repeat (destruct Hin as [Hin|Hin]; [discriminate|]). destruct Hin.
        -- split; [reflexivity|]. intros _. apply in_or_app. right. cbn. tauto.
        -- discriminate.
      * split; [rewrite filter_app, Hfilter; cbn; lia|].
        split; [|split].
        -- intros ip od Hin. apply in_app_or in Hin. destruct Hin as [Hin|Hin].
           ++ apply Hout in Hin. destruct Hin as [Hs _]. discriminate.
           ++ cbn in Hin. destruct Hin as [Hin|[]]. inversion Hin; subst; exact Ex.
        -- split; [|discriminate]. intros Hin. apply in_app_or in Hin.
           destruct Hin as [Hin|Hin].
           ++ apply Hout in Hin. destruct Hin as [_ Hn]. congruence.
           ++ cbn in Hin. destruct Hin as [Hin|[]]. discriminate.
        -- discriminate.
    + cbn [fst snd]. split; [rewrite filter_app, Hfilter; cbn; lia|].
      split; [|split].
      * intros ip od Hin. apply in_app_or in Hin. destruct Hin as [Hin|Hin].
        -- apply Hout in Hin. destruct Hin as [Hs _]. discriminate.
        -- cbn in Hin. destruct Hin as [Hin|[]]. discriminate.
      * split; [|discriminate]. intros Hin. apply in_app_or in Hin.
        destruct Hin as [Hin|Hin].
        -- apply Hout in Hin. destruct Hin as [_ Hn]. congruence.
        -- cbn in Hin. destruct Hin as [Hin|[]]. discriminate.
      * intros code Hc. inversion Hc. split; [reflexivity|].
        unfold Main.scanned. cbn [fst]. rewrite existsb_app, Hexists. reflexivity.
  - unfold Main.choose_paths in E. destruct manual; [discriminate|].
    destruct (2 <=? length (Main.argv w))%nat; [discriminate|].
    inversion E; subst. cbn [fst snd].
    split; [cbn; lia|]. split; [|split].
    + intros ip od Hin. cbn in Hin.
      repeat (destruct Hin as [Hin|Hin]; [discriminate|]). destruct Hin.
    + split; [|discriminate]. intros Hin. cbn in Hin.
      repeat (destruct Hin as [Hin|Hin]; [discriminate|]). destruct Hin.
    + intros code Hc. inversion Hc. split; reflexivity.
Qed.

Lemma scan_started_at_most_once_witness :
  Main.path_exists
    (Main.mk_world ["p"; "a.dmg"]%string (fun _ => true) (fun p => p) (fun _ _ => false))
    "a.dmg"%string = true.
Proof.
  apply (proj1 (proj2 (scan_started_at_most_once false
    (Main.mk_world ["p"; "a.dmg"]%string (fun _ => true) (fun p => p) (fun _ _ => false))))
    "a.dmg"%string "~/Desktop/recovered_audio"%string).
  cbn. left. reflexivity.
Defined.

Lemma runs_cover_exactly_the_audio_blocks_witness :
  exists s e, In (s, e) (find_audio_blocks (correctly_rounded false) ramp_block) /\ s <= 0 <= e.
Proof.
  apply (proj2 (runs_cover_exactly_the_audio_blocks (correctly_rounded false) ramp_block) 0%nat ramp_block).
  - vm_compute. reflexivity.
  - vm_compute. reflexivity.
Defined.

